(** * TypeGen schema validator: registry, rules and validation passes

    A shallow embedding of the Go packages [validator] (errors, rules,
    resolver, validator) and [parser/ast] of WhatsApp-Platform/typegen,
    with the properties the specification states about them. *)

From Stdlib Require Import ZArith List Ascii String Bool Lia Permutation OrdersEx.
Set Warnings "-register-all".
From stdpp Require Import base option list gmap strings pretty.

Local Open Scope string_scope.
Local Open Scope Z_scope.

(** ** Go strings

    A Go [string] is a sequence of bytes; the functions of package
    [strings] used by the validator work bytewise. *)
Module GoStrings.

(** [strings.HasPrefix(s, prefix)]. *)
Fixpoint HasPrefix (s prefix : string) : bool :=
  match prefix, s with
  | EmptyString, _ => true
  | String _ _, EmptyString => false
  | String c p', String d s' => if Ascii.eqb c d then HasPrefix s' p' else false
  end.

(** The slice expression [s[n:]], for [n <= len(s)]. *)
Fixpoint sliceFrom (n : nat) (s : string) : string :=
  match n, s with
  | O, _ => s
  | S n', String _ s' => sliceFrom n' s'
  | S _, EmptyString => EmptyString
  end.

(** [strings.HasSuffix(s, suffix)]:
    [len(s) >= len(suffix) && s[len(s)-len(suffix):] == suffix]. *)
Definition HasSuffix (s suffix : string) : bool :=
  (String.length suffix <=? String.length s)%nat
  && String.eqb (sliceFrom (String.length s - String.length suffix) s) suffix.

(** [strings.Split(s, sep)] for a non-empty [sep]: the pieces between the
    successive non-overlapping occurrences of [sep], scanning from the
    left.  [skip] counts the bytes of a matched separator still to be
    passed over, [cur] is the piece being accumulated. *)
Fixpoint split_go (sep s : string) (skip : nat) (cur : string) : list string :=
  match s with
  | EmptyString => [cur]
  | String c s' =>
      match skip with
      | S k => split_go sep s' k cur
      | O =>
          if HasPrefix s sep
          then cur :: split_go sep s' (String.length sep - 1) EmptyString
          else split_go sep s' O (cur +:+ String c EmptyString)
      end
  end.

Definition Split (s sep : string) : list string := split_go sep s O EmptyString.

(** [strings.Join(elems, sep)]. *)
Fixpoint Join (elems : list string) (sep : string) : string :=
  match elems with
  | [] => EmptyString
  | [e] => e
  | e :: rest => e +:+ sep +:+ Join rest sep
  end.

(** [fmt.Sprintf("%d", n)] for a Go [int]. *)
Definition itoa (n : Z) : string := pretty n.

End GoStrings.
Import GoStrings.

(** ** The AST consumed by the validator (package [parser/ast]) *)

Record Position := mkPosition {
  Filename : string;
  Line : Z;
  Column : Z
}.

(** [BaseNode] is embedded in every node; [Pos()] returns its position. *)
Record BaseNode := mkBaseNode { Pos : Position }.

(** Type expressions: the five implementations of the [ast.Type]
    interface.  The grammar always fills the element, key and value
    positions, so they are not optional here. *)
Inductive Type_ : Type :=
| PrimitiveType (base : BaseNode) (Name : string)
| NamedType (base : BaseNode) (Name : string)
| ArrayType (base : BaseNode) (ElementType : Type_)
| MapType (base : BaseNode) (KeyType ValueType : Type_)
| OptionalType (base : BaseNode) (ElementType : Type_).

Record FieldNode := mkFieldNode {
  field_base : BaseNode;
  field_Name : string;
  field_Type : Type_;
  field_Optional : bool
}.

(** [Payload] is a nil interface for a variant without payload. *)
Record EnumVariantNode := mkEnumVariantNode {
  variant_base : BaseNode;
  variant_Name : string;
  variant_Payload : option Type_
}.

Inductive ConstantValue :=
| IntConstant (base : BaseNode) (Value : Z)
| StringConstant (base : BaseNode) (Value : string).

(** The four implementations of the [ast.Declaration] interface. *)
Inductive Declaration :=
| StructNode (base : BaseNode) (Name : string) (Fields : list FieldNode)
| EnumNode (base : BaseNode) (Name : string) (Variants : list EnumVariantNode)
| TypeAliasNode (base : BaseNode) (Name : string) (Type' : Type_)
| ConstantNode (base : BaseNode) (Name : string) (Value : option ConstantValue).

Definition decl_Pos (d : Declaration) : Position :=
  match d with
  | StructNode b _ _ | EnumNode b _ _ | TypeAliasNode b _ _ | ConstantNode b _ _ => Pos b
  end.

Definition decl_Name (d : Declaration) : string :=
  match d with
  | StructNode _ n _ | EnumNode _ n _ | TypeAliasNode _ n _ | ConstantNode _ n _ => n
  end.

Record ImportNode := mkImportNode {
  import_base : BaseNode;
  import_Path : string
}.

Record ProgramNode := mkProgramNode {
  program_base : BaseNode;
  Imports : list ImportNode;
  Declarations : list Declaration
}.

(** A Go map that the code ranges over is kept as the list of its entries
    in the order in which the [range] loop enumerates them.  Go leaves that
    order unspecified, so two lists that are permutations of one another
    stand for the same map, and a statement about the code has to hold for
    every list.  The maps that are only indexed and assigned ([declNames],
    [visited], ...) are finite maps. *)
Definition GoMap (V : Type) : Type := list (string * V).

Inductive Module_ : Type := mkModule {
  Path : string;
  Name : string;
  Files : GoMap ProgramNode;
  SubModules : list (string * Module_)
}.

(** ** Validation errors (errors.go) *)

(** Modelled from the spec: the last constructor,
    [CircularDependencyError], which [validateCircularDependencies] reports
    but which is not among the constants declared in errors.go; the
    specification names it as one more error kind.  The eleven others are
    the string constants of type [ValidationErrorType] that errors.go
    declares; they are pairwise distinct, which is all the validator uses. *)
Inductive ValidationErrorType :=
| UndefinedTypeError
| InvalidPrimitiveError
| InvalidMapKeyError
| NamingConventionError
| DuplicateTypeError
| DuplicateFieldError
| DuplicateVariantError
| DuplicateConstantError
| InvalidImportError
| InvalidOptionalError
| InvalidConstantError
| CircularDependencyError.

Global Instance ValidationErrorType_eq_dec : EqDecision ValidationErrorType.
Proof. solve_decision. Defined.

Record ValidationError := mkValidationError {
  Type' : ValidationErrorType;
  Message : string;
  File : string;
  err_Line : Z;
  err_Column : Z;
  Suggestion : string
}.

Record ValidationResult := mkValidationResult {
  Errors : list ValidationError;
  Valid : bool
}.

Definition HasErrors (r : ValidationResult) : bool :=
  (0 <? length (Errors r))%nat.

Definition ErrorCount (r : ValidationResult) : nat := length (Errors r).

Definition AddError (r : ValidationResult) (errorType : ValidationErrorType)
    (message file : string) (line column : Z) (suggestion : string)
    : ValidationResult :=
  {| Errors := (Errors r ++ [mkValidationError errorType message file line column suggestion])%list;
     Valid := false |}.

Definition NewValidationResult : ValidationResult :=
  {| Errors := []; Valid := true |}.

(** ** Rules (rules.go) *)

(** A Go [map[string]bool] literal used as a set: indexing a missing key
    yields [false]. *)
Definition ValidPrimitiveTypes : gmap string bool :=
  list_to_map
    [("int8", true); ("int16", true); ("int32", true); ("int64", true);
     ("nat8", true); ("nat16", true); ("nat32", true); ("nat64", true);
     ("float32", true); ("float64", true);
     ("string", true); ("bool", true);
     ("json", true);
     ("datetime", true); ("date", true); ("time", true)].

Definition ValidMapKeyTypes : gmap string bool :=
  list_to_map
    [("string", true);
     ("int8", true); ("int16", true); ("int32", true); ("int64", true);
     ("nat8", true); ("nat16", true); ("nat32", true); ("nat64", true)].

Definition IsValidPrimitiveType (typeName : string) : bool :=
  default false (ValidPrimitiveTypes !! typeName).

Definition IsValidMapKeyType (typeName : string) : bool :=
  default false (ValidMapKeyTypes !! typeName).

(** The naming conventions are anchored regular expressions over ASCII
    classes.  No byte of a multi-byte UTF-8 sequence belongs to an ASCII
    class, so matching the bytes decides exactly what the regexp decides. *)
Definition is_lower (c : ascii) : bool :=
  let n := nat_of_ascii c in ((97 <=? n) && (n <=? 122))%nat.
Definition is_upper (c : ascii) : bool :=
  let n := nat_of_ascii c in ((65 <=? n) && (n <=? 90))%nat.
Definition is_digit (c : ascii) : bool :=
  let n := nat_of_ascii c in ((48 <=? n) && (n <=? 57))%nat.
Definition is_underscore (c : ascii) : bool := Ascii.eqb c "_"%char.

Fixpoint all_chars (p : ascii -> bool) (s : string) : bool :=
  match s with
  | EmptyString => true
  | String c s' => p c && all_chars p s'
  end.

(** [^[a-z][a-z0-9_]*$] *)
Definition IsValidSnakeCase (s : string) : bool :=
  match s with
  | EmptyString => false
  | String c s' =>
      is_lower c && all_chars (fun d => is_lower d || is_digit d || is_underscore d) s'
  end.

(** [^[A-Z][a-zA-Z0-9]*$] *)
Definition IsValidPascalCase (s : string) : bool :=
  match s with
  | EmptyString => false
  | String c s' =>
      is_upper c && all_chars (fun d => is_lower d || is_upper d || is_digit d) s'
  end.

(** [^[A-Z][A-Z0-9_]*$] *)
Definition IsValidConstantCase (s : string) : bool :=
  match s with
  | EmptyString => false
  | String c s' =>
      is_upper c && all_chars (fun d => is_upper d || is_digit d || is_underscore d) s'
  end.

(** [^[a-z0-9]+$] *)
Definition IsValidSmashCase (s : string) : bool :=
  match s with
  | EmptyString => false
  | String _ _ => all_chars (fun d => is_lower d || is_digit d) s
  end.

Definition IsValidModuleName (name : string) : bool :=
  if String.eqb name "" then false
  else forallb IsValidSnakeCase (Split name ".").

(** The suggested rewrites walk the runes of the name with the case tables
    of Go's package [unicode] ([unicode.IsUpper], [unicode.ToLower],
    [strings.ToUpper], ...).  Those tables are not part of the repository;
    the three conversions are kept as an interface, and nothing proved
    below depends on what they return. *)
Class CaseConversion := {
  camelToSnake : string -> string;
  snakeToPascal : string -> string;
  toUpper : string -> string
}.

(** The conversions on ASCII names, where the case tables reduce to the
    letters [A-Z] and [a-z]: an underscore before each upper-case letter
    but the first and everything lowered; the parts between underscores
    capitalised and joined; everything raised. *)
Definition ascii_toLower (c : ascii) : ascii :=
  if is_upper c then ascii_of_nat (nat_of_ascii c + 32) else c.

Definition ascii_toUpper (c : ascii) : ascii :=
  if is_lower c then ascii_of_nat (nat_of_ascii c - 32) else c.

Fixpoint map_chars (f : ascii -> ascii) (s : string) : string :=
  match s with
  | EmptyString => EmptyString
  | String c s' => String (f c) (map_chars f s')
  end.

Fixpoint ascii_camelToSnake_from (i : nat) (s : string) : string :=
  match s with
  | EmptyString => EmptyString
  | String c s' =>
      let rest := String (ascii_toLower c) (ascii_camelToSnake_from (S i) s') in
      if (0 <? i)%nat && is_upper c then String "_"%char rest else rest
  end.

Definition ascii_snakeToPascal (s : string) : string :=
  fold_right
    (fun part acc =>
       match part with
       | EmptyString => acc
       | String c rest => String (ascii_toUpper c) (map_chars ascii_toLower rest) +:+ acc
       end)
    EmptyString (Split s "_").

Definition asciiCase : CaseConversion :=
  {| camelToSnake := ascii_camelToSnake_from 0;
     snakeToPascal := ascii_snakeToPascal;
     toUpper := map_chars ascii_toUpper |}.

Section Suggestions.
Context `{CaseConversion}.

Definition SuggestSnakeCase (s : string) : string :=
  if IsValidSnakeCase s then s else camelToSnake s.

Definition SuggestPascalCase (s : string) : string :=
  if IsValidPascalCase s then s else snakeToPascal s.

Definition SuggestConstantCase (s : string) : string :=
  if IsValidConstantCase s then s else toUpper (SuggestSnakeCase s).

Definition SuggestModuleName (name : string) : string :=
  if IsValidModuleName name then name
  else Join (map SuggestSnakeCase (Split name ".")) ".".
End Suggestions.

(** ** The type registry (resolver.go)

    Two versions of the resolver are in the tree.  [TypeExists],
    [FindType], [qualifyName] and the registration walk are the same text
    in both; the one embedded here is the one the validator needs, which
    also records dependencies and searches them for cycles. *)

Record TypeInfo := mkTypeInfo {
  ti_Name : string;
  DeclType : string;
  ti_File : string;
  ti_Line : Z;
  ti_Column : Z;
  Dependencies : list string
}.

(** Indexing [m[k]] and the assignment [m[k] = v] on a map kept as its
    entries: an assignment to a present key replaces the value in place, a
    new key is enumerated after the others. *)
Fixpoint gomap_lookup {V} (k : string) (m : GoMap V) : option V :=
  match m with
  | [] => None
  | (k', v) :: m' => if String.eqb k' k then Some v else gomap_lookup k m'
  end.

Fixpoint gomap_store {V} (k : string) (v : V) (m : GoMap V) : GoMap V :=
  match m with
  | [] => [(k, v)]
  | (k', v') :: m' =>
      if String.eqb k' k then (k, v) :: m' else (k', v') :: gomap_store k v m'
  end.

Definition gomap_keys {V} (m : GoMap V) : list string := map fst m.

Record TypeRegistry := mkTypeRegistry {
  types : GoMap TypeInfo;
  currentFile : string
}.

Definition NewTypeRegistry : TypeRegistry :=
  {| types := []; currentFile := "" |}.

(** [fmt.Sprintf("%s::%s", file, name)] *)
Definition qualifyName (name file : string) : string :=
  file +:+ "::" +:+ name.

Definition RegisterType (r : TypeRegistry) (name declType file : string)
    (line column : Z) : TypeRegistry :=
  let qualifiedName := qualifyName name file in
  {| types := gomap_store qualifiedName
                (mkTypeInfo name declType file line column []) (types r);
     currentFile := currentFile r |}.

(** The registry holds pointers to the records, so appending to
    [info.Dependencies] updates the record stored under the key. *)
Definition AddDependency (r : TypeRegistry) (fromType toType file : string)
    : TypeRegistry :=
  let qualifiedFrom := qualifyName fromType file in
  match gomap_lookup qualifiedFrom (types r) with
  | Some info =>
      {| types := gomap_store qualifiedFrom
                    (mkTypeInfo (ti_Name info) (DeclType info) (ti_File info)
                       (ti_Line info) (ti_Column info)
                       (Dependencies info ++ [toType])%list)
                    (types r);
         currentFile := currentFile r |}
  | None => r
  end.

Definition TypeExists (r : TypeRegistry) (name currentFile : string) : bool :=
  if IsValidPrimitiveType name then true
  else
    let qualifiedName := qualifyName name currentFile in
    match gomap_lookup qualifiedName (types r) with
    | Some _ => true
    | None =>
        (fix range (keys : list string) : bool :=
           match keys with
           | [] => false
           | qualName :: rest =>
               if HasSuffix qualName ("::" +:+ name) then true else range rest
           end) (gomap_keys (types r))
    end.

(** Returns the record and the flag of the Go function as an option. *)
Definition FindType (r : TypeRegistry) (name currentFile : string)
    : option TypeInfo :=
  let qualifiedName := qualifyName name currentFile in
  match gomap_lookup qualifiedName (types r) with
  | Some info => Some info
  | None =>
      (fix range (entries : GoMap TypeInfo) : option TypeInfo :=
         match entries with
         | [] => None
         | (qualName, info) :: rest =>
             if HasSuffix qualName ("::" +:+ name) then Some info else range rest
         end) (types r)
  end.

Definition GetAllTypes (r : TypeRegistry) : GoMap TypeInfo := types r.

(** [addTypeDependencies]: one [AddDependency] per named leaf. *)
Fixpoint addTypeDependencies (registry : TypeRegistry) (fromType : string)
    (typeNode : Type_) (file : string) : TypeRegistry :=
  match typeNode with
  | NamedType _ n => AddDependency registry fromType n file
  | ArrayType _ e => addTypeDependencies registry fromType e file
  | MapType _ k v =>
      addTypeDependencies (addTypeDependencies registry fromType k file)
        fromType v file
  | OptionalType _ e => addTypeDependencies registry fromType e file
  | PrimitiveType _ _ => registry
  end.

(** [basePath + "/" + name], without the separator for an empty base. *)
Definition joinPath (basePath name : string) : string :=
  if String.eqb basePath "" then name else basePath +:+ "/" +:+ name.

Definition registerDeclaration (registry : TypeRegistry) (fullPath : string)
    (decl : Declaration) : TypeRegistry :=
  let pos := decl_Pos decl in
  match decl with
  | StructNode _ name fields =>
      fold_left
        (fun reg field => addTypeDependencies reg name (field_Type field) fullPath)
        fields
        (RegisterType registry name "struct" fullPath (Line pos) (Column pos))
  | EnumNode _ name variants =>
      fold_left
        (fun reg variant =>
           match variant_Payload variant with
           | Some payload => addTypeDependencies reg name payload fullPath
           | None => reg
           end)
        variants
        (RegisterType registry name "enum" fullPath (Line pos) (Column pos))
  | TypeAliasNode _ name t =>
      addTypeDependencies
        (RegisterType registry name "alias" fullPath (Line pos) (Column pos))
        name t fullPath
  | ConstantNode _ name _ =>
      RegisterType registry name "constant" fullPath (Line pos) (Column pos)
  end.

Definition registerFile (basePath : string) (registry : TypeRegistry)
    (entry : string * ProgramNode) : TypeRegistry :=
  let fullPath := joinPath basePath (fst entry) in
  fold_left (fun reg decl => registerDeclaration reg fullPath decl)
    (Declarations (snd entry))
    {| types := types registry; currentFile := fullPath |}.

Fixpoint processModuleForRegistry (module : Module_) (basePath : string)
    (registry : TypeRegistry) : TypeRegistry :=
  let registry := fold_left (registerFile basePath) (Files module) registry in
  (fix submodules (subs : list (string * Module_)) (registry : TypeRegistry)
     : TypeRegistry :=
     match subs with
     | [] => registry
     | (subModuleName, subModule) :: rest =>
         submodules rest
           (processModuleForRegistry subModule (joinPath basePath subModuleName)
              registry)
     end) (SubModules module) registry.

Definition buildTypeRegistry (module : Module_) : TypeRegistry :=
  processModuleForRegistry module "" NewTypeRegistry.

(** ** Cycle search over the recorded dependencies (resolver.go) *)

(** [visited] and [recStack] are [map[string]bool]: a missing key reads as
    [false].  They are shared by all the recursive calls, so they are
    threaded through. *)
Definition flag (m : gmap string bool) (k : string) : bool :=
  default false (m !! k).

(** The index loop [for i, p := range path { if p == qualifiedDep ... }]. *)
Fixpoint cycleStart (path : list string) (qualifiedDep : string) : option nat :=
  match path with
  | [] => None
  | p :: rest =>
      if String.eqb p qualifiedDep then Some O
      else option_map S (cycleStart rest qualifiedDep)
  end.

(** The outcome of one call: the returned path ([None] for [nil]) and the
    two maps as the call leaves them. *)
Definition DetectResult : Type :=
  option (list string) * gmap string bool * gmap string bool.

(** The loop of [detectCycle] over [typeInfo.Dependencies]; [descend] is
    the recursive call, [file] is [typeInfo.File] and [path] already ends
    in [typeName]. *)
Definition dependenciesLoop
    (descend : string -> gmap string bool -> gmap string bool -> option DetectResult)
    (typeName file : string) (path : list string)
    : list string -> gmap string bool -> gmap string bool -> option DetectResult :=
  fix deps (ds : list string) (visited recStack : gmap string bool) :=
    match ds with
    | [] => Some (None, visited, <[typeName := false]> recStack)
    | dep :: rest =>
        let qualifiedDep := qualifyName dep file in
        if negb (flag visited qualifiedDep) then
          match descend qualifiedDep visited recStack with
          | None => None
          | Some (Some cycle, visited', recStack') =>
              Some (Some cycle, visited', recStack')
          | Some (None, visited', recStack') => deps rest visited' recStack'
          end
        else if flag recStack qualifiedDep then
          match cycleStart path qualifiedDep with
          | Some i =>
              Some (Some (List.skipn i path ++ [qualifiedDep])%list,
                    visited, recStack)
          | None => deps rest visited recStack
          end
        else deps rest visited recStack
    end.

(** [detectCycle] recurses on unvisited names only, which the termination
    argument below turns into a bound; [fuel] is that bound made explicit
    and the outer [None] means it was too small. *)
Fixpoint detectCycle (fuel : nat) (r : TypeRegistry) (typeName : string)
    (visited recStack : gmap string bool) (path : list string)
    : option DetectResult :=
  match fuel with
  | O => None
  | S fuel' =>
      let visited := <[typeName := true]> visited in
      let recStack := <[typeName := true]> recStack in
      let path := (path ++ [typeName])%list in
      match gomap_lookup typeName (types r) with
      | Some typeInfo =>
          dependenciesLoop
            (fun qualifiedDep visited recStack =>
               detectCycle fuel' r qualifiedDep visited recStack path)
            typeName (ti_File typeInfo) path
            (Dependencies typeInfo) visited recStack
      | None => Some (None, visited, <[typeName := false]> recStack)
      end
  end.

(** The loop of [ValidateCircularDependencies] over the registered names. *)
Fixpoint cyclesFrom (fuel : nat) (r : TypeRegistry) (names : list string)
    (visited recStack : gmap string bool) (cycles : list string)
    : option (list string) :=
  match names with
  | [] => Some cycles
  | typeName :: rest =>
      if negb (flag visited typeName) then
        match detectCycle fuel r typeName visited recStack [] with
        | None => None
        | Some (Some cycle, visited', recStack') =>
            cyclesFrom fuel r rest visited' recStack' (cycles ++ [Join cycle " -> "])%list
        | Some (None, visited', recStack') =>
            cyclesFrom fuel r rest visited' recStack' cycles
        end
      else cyclesFrom fuel r rest visited recStack cycles
  end.

Definition ValidateCircularDependencies_fuel (fuel : nat) (r : TypeRegistry)
    : option (list string) :=
  cyclesFrom fuel r (gomap_keys (types r)) ∅ ∅ [].

(** Every name the search can reach: the registered keys and the qualified
    dependencies of the registered records. *)
Definition reachableNames (r : TypeRegistry) : list string :=
  (gomap_keys (types r)
  ++ flat_map (fun e => map (fun dep => qualifyName dep (ti_File (snd e)))
                          (Dependencies (snd e)))
       (types r))%list.

(** One more than the number of reachable names is enough fuel
    ([ValidateCircularDependencies_fuel_enough]). *)
Definition ValidateCircularDependencies (r : TypeRegistry) : list string :=
  default [] (ValidateCircularDependencies_fuel (S (length (reachableNames r))) r).

(** ** The validator (validator.go)

    The methods of [*Validator] append to [v.result] and read
    [v.registry]; each one takes the registry and maps the result before
    the call to the result after it. *)

(** [registry] is a pointer, nil until the first call of [Validate]. *)
Record Validator := mkValidator {
  registry : option TypeRegistry;
  result : ValidationResult
}.

Definition NewValidator : Validator :=
  {| registry := None; result := NewValidationResult |}.

Definition validatePrimitiveType (name filename : string) (line column : Z)
    (res : ValidationResult) : ValidationResult :=
  if negb (IsValidPrimitiveType name) then
    AddError res InvalidPrimitiveError
      ("'" +:+ name +:+ "' is not a valid primitive type")
      filename line column
      "use one of: int8, int16, int32, int64, nat8, nat16, nat32, nat64, float32, float64, string, bool, json, datetime, date, time"
  else res.

Definition validateNamedType (r : TypeRegistry) (name filename : string)
    (line column : Z) (res : ValidationResult) : ValidationResult :=
  if negb (TypeExists r name filename) then
    AddError res UndefinedTypeError
      ("undefined type '" +:+ name +:+ "'")
      filename line column
      "define the type or check the spelling"
  else res.

(** The key check that opens [validateMapType]. *)
Definition checkMapKey (keyType : Type_) (filename : string) (line column : Z)
    (res : ValidationResult) : ValidationResult :=
  match keyType with
  | PrimitiveType _ name =>
      if negb (IsValidMapKeyType name) then
        AddError res InvalidMapKeyError
          ("map key type '" +:+ name +:+ "' is not valid")
          filename line column
          "use string or integer types for map keys"
      else res
  | _ =>
      AddError res InvalidMapKeyError
        "map key must be a primitive type"
        filename line column
        "use string or integer types for map keys"
  end.

(** The check for [??] that opens [validateOptionalType]. *)
Definition checkDoubleOptional (elementType : Type_) (filename : string)
    (line column : Z) (res : ValidationResult) : ValidationResult :=
  match elementType with
  | OptionalType _ _ =>
      AddError res InvalidOptionalError
        "double-wrapped optional types are not allowed"
        filename line column
        "use single optional marker ?Type"
  | _ => res
  end.

(** [validateType] with the bodies of [validateMapType] and
    [validateOptionalType], which call back into it, written in place. *)
Fixpoint validateType (r : TypeRegistry) (typeNode : Type_) (filename : string)
    (line column : Z) (res : ValidationResult) : ValidationResult :=
  match typeNode with
  | PrimitiveType _ name => validatePrimitiveType name filename line column res
  | NamedType _ name => validateNamedType r name filename line column res
  | ArrayType _ elementType => validateType r elementType filename line column res
  | MapType _ keyType valueType =>
      let res := checkMapKey keyType filename line column res in
      let res := validateType r keyType filename line column res in
      validateType r valueType filename line column res
  | OptionalType _ elementType =>
      let res := checkDoubleOptional elementType filename line column res in
      validateType r elementType filename line column res
  end.

Definition validateMapType (r : TypeRegistry) (keyType valueType : Type_)
    (filename : string) (line column : Z) (res : ValidationResult)
    : ValidationResult :=
  let res := checkMapKey keyType filename line column res in
  let res := validateType r keyType filename line column res in
  validateType r valueType filename line column res.

Definition validateOptionalType (r : TypeRegistry) (elementType : Type_)
    (filename : string) (line column : Z) (res : ValidationResult)
    : ValidationResult :=
  let res := checkDoubleOptional elementType filename line column res in
  validateType r elementType filename line column res.

Section Validation.
Context `{CaseConversion}.

Definition validateImport (imp : ImportNode) (filename : string)
    (res : ValidationResult) : ValidationResult :=
  let pos := Pos (import_base imp) in
  if negb (IsValidModuleName (import_Path imp)) then
    AddError res InvalidImportError
      ("import path '" +:+ import_Path imp
         +:+ "' should follow snake_case convention for module names")
      filename (Line pos) (Column pos)
      ("use '" +:+ SuggestModuleName (import_Path imp) +:+ "'")
  else res.

(** The local maps [fieldNames], [variantNames] and [declNames] are only
    indexed and assigned, never ranged over. *)
Definition validateField (r : TypeRegistry) (field : FieldNode)
    (filename : string)
    (st : gmap string FieldNode * ValidationResult)
    : gmap string FieldNode * ValidationResult :=
  let '(fieldNames, res) := st in
  let pos := Pos (field_base field) in
  let res :=
    if negb (IsValidSnakeCase (field_Name field)) then
      AddError res NamingConventionError
        ("field name '" +:+ field_Name field
           +:+ "' should follow snake_case convention")
        filename (Line pos) (Column pos)
        ("use '" +:+ SuggestSnakeCase (field_Name field) +:+ "'")
    else res in
  let '(fieldNames, res) :=
    match fieldNames !! field_Name field with
    | Some existing =>
        let existingPos := Pos (field_base existing) in
        (fieldNames,
         AddError res DuplicateFieldError
           ("duplicate field '" +:+ field_Name field
              +:+ "' (first declared at line " +:+ itoa (Line existingPos) +:+ ")")
           filename (Line pos) (Column pos)
           "rename one of the fields")
    | None => (<[field_Name field := field]> fieldNames, res)
    end in
  (fieldNames,
   validateType r (field_Type field) filename (Line pos) (Column pos) res).

Definition validateStruct (r : TypeRegistry) (base : BaseNode) (name : string)
    (fields : list FieldNode) (filename : string) (res : ValidationResult)
    : ValidationResult :=
  let pos := Pos base in
  let res :=
    if negb (IsValidPascalCase name) then
      AddError res NamingConventionError
        ("struct name '" +:+ name +:+ "' should follow PascalCase convention")
        filename (Line pos) (Column pos)
        ("use '" +:+ SuggestPascalCase name +:+ "'")
    else res in
  snd (fold_left (fun st field => validateField r field filename st)
         fields (∅, res)).

Definition validateEnumVariant (r : TypeRegistry) (variant : EnumVariantNode)
    (filename : string)
    (st : gmap string EnumVariantNode * ValidationResult)
    : gmap string EnumVariantNode * ValidationResult :=
  let '(variantNames, res) := st in
  let pos := Pos (variant_base variant) in
  let res :=
    if negb (IsValidSnakeCase (variant_Name variant)) then
      AddError res NamingConventionError
        ("enum variant '" +:+ variant_Name variant
           +:+ "' should follow snake_case convention")
        filename (Line pos) (Column pos)
        ("use '" +:+ SuggestSnakeCase (variant_Name variant) +:+ "'")
    else res in
  let '(variantNames, res) :=
    match variantNames !! variant_Name variant with
    | Some existing =>
        let existingPos := Pos (variant_base existing) in
        (variantNames,
         AddError res DuplicateVariantError
           ("duplicate variant '" +:+ variant_Name variant
              +:+ "' (first declared at line " +:+ itoa (Line existingPos) +:+ ")")
           filename (Line pos) (Column pos)
           "rename one of the variants")
    | None => (<[variant_Name variant := variant]> variantNames, res)
    end in
  (variantNames,
   match variant_Payload variant with
   | Some payload => validateType r payload filename (Line pos) (Column pos) res
   | None => res
   end).

Definition validateEnum (r : TypeRegistry) (base : BaseNode) (name : string)
    (variants : list EnumVariantNode) (filename : string)
    (res : ValidationResult) : ValidationResult :=
  let pos := Pos base in
  let res :=
    if negb (IsValidPascalCase name) then
      AddError res NamingConventionError
        ("enum name '" +:+ name +:+ "' should follow PascalCase convention")
        filename (Line pos) (Column pos)
        ("use '" +:+ SuggestPascalCase name +:+ "'")
    else res in
  snd (fold_left (fun st variant => validateEnumVariant r variant filename st)
         variants (∅, res)).

Definition validateTypeAlias (r : TypeRegistry) (base : BaseNode)
    (name : string) (t : Type_) (filename : string) (res : ValidationResult)
    : ValidationResult :=
  let pos := Pos base in
  let res :=
    if negb (IsValidPascalCase name) then
      AddError res NamingConventionError
        ("type alias '" +:+ name +:+ "' should follow PascalCase convention")
        filename (Line pos) (Column pos)
        ("use '" +:+ SuggestPascalCase name +:+ "'")
    else res in
  validateType r t filename (Line pos) (Column pos) res.

Definition validateConstant (base : BaseNode) (name : string)
    (value : option ConstantValue) (filename : string)
    (res : ValidationResult) : ValidationResult :=
  let pos := Pos base in
  let res :=
    if negb (IsValidConstantCase name) then
      AddError res NamingConventionError
        ("constant name '" +:+ name +:+ "' should follow CONSTANT_CASE convention")
        filename (Line pos) (Column pos)
        ("use '" +:+ SuggestConstantCase name +:+ "'")
    else res in
  match value with
  | None =>
      AddError res InvalidConstantError
        ("constant '" +:+ name +:+ "' must have a value")
        filename (Line pos) (Column pos)
        "provide a value for the constant"
  | Some _ => res
  end.

(** The kind name that the duplicate message prints. *)
Definition declType (decl : Declaration) : string :=
  match decl with
  | StructNode _ _ _ => "struct"
  | EnumNode _ _ _ => "enum"
  | TypeAliasNode _ _ _ => "type alias"
  | ConstantNode _ _ _ => "constant"
  end.

Definition validateDeclaration (r : TypeRegistry) (decl : Declaration)
    (filename : string)
    (st : gmap string Declaration * ValidationResult)
    : gmap string Declaration * ValidationResult :=
  let '(declNames, res) := st in
  let declName := decl_Name decl in
  let res :=
    match decl with
    | StructNode b name fields => validateStruct r b name fields filename res
    | EnumNode b name variants => validateEnum r b name variants filename res
    | TypeAliasNode b name t => validateTypeAlias r b name t filename res
    | ConstantNode b name value => validateConstant b name value filename res
    end in
  match declNames !! declName with
  | Some existing =>
      let existingPos := decl_Pos existing in
      let declPos := decl_Pos decl in
      (declNames,
       AddError res DuplicateTypeError
         ("duplicate " +:+ declType decl +:+ " '" +:+ declName
            +:+ "' (first declared at line " +:+ itoa (Line existingPos) +:+ ")")
         filename (Line declPos) (Column declPos)
         "rename one of the declarations")
  | None => (<[declName := decl]> declNames, res)
  end.

Definition validateProgram (r : TypeRegistry) (program : ProgramNode)
    (filename : string) (res : ValidationResult) : ValidationResult :=
  let res := fold_left (fun res imp => validateImport imp filename res)
               (Imports program) res in
  snd (fold_left (fun st decl => validateDeclaration r decl filename st)
         (Declarations program) (∅, res)).

(** The naming check on a submodule's directory name. *)
Definition checkSubModuleName (subModuleName basePath : string)
    (res : ValidationResult) : ValidationResult :=
  if negb (IsValidSnakeCase subModuleName) then
    AddError res NamingConventionError
      ("module name '" +:+ subModuleName +:+ "' should follow snake_case convention")
      basePath 0 0
      ("use '" +:+ SuggestSnakeCase subModuleName +:+ "'")
  else res.

Fixpoint validateModule (r : TypeRegistry) (module : Module_)
    (basePath : string) (res : ValidationResult) : ValidationResult :=
  let res :=
    fold_left
      (fun res entry =>
         validateProgram r (snd entry) (joinPath basePath (fst entry)) res)
      (Files module) res in
  (fix submodules (subs : list (string * Module_)) (res : ValidationResult)
     : ValidationResult :=
     match subs with
     | [] => res
     | (subModuleName, subModule) :: rest =>
         let res := checkSubModuleName subModuleName basePath res in
         submodules rest
           (validateModule r subModule (joinPath basePath subModuleName) res)
     end) (SubModules module) res.

(** One [CircularDependencyError] per reported cycle whose first name
    splits at [::] into exactly a file and a type. *)
Definition reportCycle (res : ValidationResult) (cycle : string)
    : ValidationResult :=
  match Split cycle " -> " with
  | firstType :: _ =>
      match Split firstType "::" with
      | [file; _] =>
          AddError res CircularDependencyError
            ("circular dependency detected: " +:+ cycle)
            file 0 0
            "restructure types to eliminate circular references"
      | _ => res
      end
  | [] => res
  end.

Definition validateCircularDependencies (r : TypeRegistry)
    (res : ValidationResult) : ValidationResult :=
  fold_left reportCycle (ValidateCircularDependencies r) res.

(** [Validate] overwrites both fields of the validator and returns the
    result it has built; the pair is the validator after the call and the
    returned result. *)
Definition Validate (v : Validator) (module : Module_)
    : Validator * ValidationResult :=
  let result0 := NewValidationResult in
  let registry0 := buildTypeRegistry module in
  let result1 := validateModule registry0 module "" result0 in
  let result2 := validateCircularDependencies registry0 result1 in
  ({| registry := Some registry0; result := result2 |}, result2).

End Validation.

(** ** The lexer's tables and the grammar's name rules (package [parser/grammar])

    The tokens are those that grammar.y declares. *)

Inductive Token :=
| IDENTIFIER | STRING_LITERAL | NUMBER_LITERAL
| IMPORT | STRUCT | ENUM | TYPE | CONST
| LBRACE | RBRACE | LPAREN | RPAREN | LBRACKET | RBRACKET
| COLON | SEMICOLON | COMMA | EQUALS | QUESTION | DOT
| COMMENT
| INT8 | INT16 | INT32 | INT64 | INT | BIGINT
| NAT8 | NAT16 | NAT32 | NAT64 | NAT | BIGNAT
| FLOAT32 | FLOAT64 | DECIMAL
| STRING | BOOL | JSON
| TIME | DATE | DATETIME | TIMETZ | DATETZ | DATETIMETZ.

Definition Keywords : gmap string Token :=
  list_to_map
    [("import", IMPORT); ("struct", STRUCT); ("enum", ENUM); ("type", TYPE);
     ("const", CONST);
     ("int8", INT8); ("int16", INT16); ("int32", INT32); ("int64", INT64);
     ("int", INT); ("bigint", BIGINT);
     ("nat8", NAT8); ("nat16", NAT16); ("nat32", NAT32); ("nat64", NAT64);
     ("nat", NAT); ("bignat", BIGNAT);
     ("float32", FLOAT32); ("float64", FLOAT64); ("decimal", DECIMAL);
     ("string", STRING); ("bool", BOOL); ("json", JSON);
     ("time", TIME); ("date", DATE); ("datetime", DATETIME);
     ("timetz", TIMETZ); ("datetz", DATETZ); ("datetimetz", DATETIMETZ)].

(** The [scanner.Ident] case of [Lex]: the token, and the text left in
    [lval.ident] for an identifier. *)
Definition lexIdent (text : string) : Token * option string :=
  match Keywords !! text with
  | Some tokenType => (tokenType, None)
  | None => (IDENTIFIER, Some text)
  end.

(** [^[A-Z][A-Z0-9]*(_[A-Z0-9]+)*$], read from the second byte on:
    [afterUnderscore] holds when the last byte read is an underscore, which
    must be followed by a letter or a digit. *)
Fixpoint constantCaseTail (afterUnderscore : bool) (s : string) : bool :=
  match s with
  | EmptyString => negb afterUnderscore
  | String c s' =>
      if is_upper c || is_digit c then constantCaseTail false s'
      else if is_underscore c then negb afterUnderscore && constantCaseTail true s'
      else false
  end.

Definition IsConstantCase (name : string) : bool :=
  match name with
  | EmptyString => false
  | String c s' => is_upper c && constantCaseTail false s'
  end.

(** The rules [module_path] and [qualified_name]: an identifier, then
    [$1 + "." + $3] for each further identifier. *)
Definition dottedName (first : string) (rest : list string) : string :=
  fold_left (fun name ident => name +:+ "." +:+ ident) rest first.

(** The rule [primitive_type]: the [Name] of the node built for a token;
    the other tokens do not start a primitive type. *)
Definition primitive_type (token : Token) : option string :=
  match token with
  | INT8 => Some "int8" | INT16 => Some "int16" | INT32 => Some "int32"
  | INT64 => Some "int64" | INT => Some "int" | BIGINT => Some "bigint"
  | NAT8 => Some "nat8" | NAT16 => Some "nat16" | NAT32 => Some "nat32"
  | NAT64 => Some "nat64" | NAT => Some "nat" | BIGNAT => Some "bignat"
  | FLOAT32 => Some "float32" | FLOAT64 => Some "float64"
  | DECIMAL => Some "decimal"
  | STRING => Some "string" | BOOL => Some "bool" | JSON => Some "json"
  | TIME => Some "time" | DATE => Some "date" | DATETIME => Some "datetime"
  | TIMETZ => Some "timetz" | DATETZ => Some "datetz"
  | DATETIMETZ => Some "datetimetz"
  | _ => None
  end.

(** The rule [const_decl]: the parse fails ([None]) unless the name is in
    CONSTANT_CASE. *)
Definition const_decl (base : BaseNode) (name : string) (value : ConstantValue)
    : option Declaration :=
  if negb (IsConstantCase name) then None
  else Some (ConstantNode base name (Some value)).

(** ** Grouping and ordering the errors (errors.go) *)

(** [groups[err.File] = append(groups[err.File], err)] for each error in
    turn; a missing key reads as the nil slice. *)
Definition GroupedErrors (r : ValidationResult) : GoMap (list ValidationError) :=
  fold_left
    (fun groups err =>
       gomap_store (File err)
         (default [] (gomap_lookup (File err) groups) ++ [err])%list groups)
    (Errors r) [].

(** Go's [<] on strings: the order of the bytes, then of the lengths. *)
Definition string_lt (a b : string) : bool :=
  match String_as_OT.compare a b with
  | Lt => true
  | _ => false
  end.

(** The [less] function that [SortErrors] hands to [sort.Slice]. *)
Definition SortErrors_less (a b : ValidationError) : bool :=
  if negb (String.eqb (File a) (File b)) then string_lt (File a) (File b)
  else if negb (err_Line a =? err_Line b) then err_Line a <? err_Line b
  else err_Column a <? err_Column b.

(** ** Declarations of a module tree (parser/ast/module.go) *)

Fixpoint AllDeclarations (m : Module_) : list Declaration :=
  (flat_map (fun entry => Declarations (snd entry)) (Files m)
   ++ (fix submodules (subs : list (string * Module_)) : list Declaration :=
         match subs with
         | [] => []
         | (_, subModule) :: rest => AllDeclarations subModule ++ submodules rest
         end) (SubModules m))%list.

(** The type switch of [FindDeclaration]: structs, enums and aliases are
    compared with the name, a constant matches no case. *)
Definition declarationNamed (name : string) (decl : Declaration) : bool :=
  match decl with
  | StructNode _ n _ | EnumNode _ n _ | TypeAliasNode _ n _ => String.eqb n name
  | ConstantNode _ _ _ => false
  end.

Section FindDeclaration.

(** [filepath.Join], of Go's standard library. *)
Variable filepath_Join : string -> string -> string.

(** The loop over the files of one module. *)
Fixpoint findInFiles (name : string) (files : GoMap ProgramNode)
    : option (Declaration * string) :=
  match files with
  | [] => None
  | (filename, program) :: rest =>
      match List.find (declarationNamed name) (Declarations program) with
      | Some d => Some (d, filename)
      | None => findInFiles name rest
      end
  end.

Fixpoint FindDeclaration (m : Module_) (name : string)
    : option (Declaration * string) :=
  match findInFiles name (Files m) with
  | Some found => Some found
  | None =>
      (fix submodules (subs : list (string * Module_))
         : option (Declaration * string) :=
         match subs with
         | [] => None
         | (subModuleName, subModule) :: rest =>
             match FindDeclaration subModule name with
             | Some (decl, filename) =>
                 Some (decl, filepath_Join subModuleName filename)
             | None => submodules rest
             end
         end) (SubModules m)
  end.

End FindDeclaration.

(** ** The build configuration and the builder (package [build])

    The two configuration maps are ranged over only to be copied, key by
    key, into a new map, so they are finite maps here and the loops are
    folds over them. *)

Record GenerateTask := mkGenerateTask {
  Generator : string;
  Input : string;
  Output : string;
  task_Config : gmap string string
}.

Record Config := mkConfig {
  Version : Z;
  cfg_Config : gmap string string;
  Generate : list GenerateTask
}.

(** [nil] for an index out of range. *)
Definition MergedConfig (c : Config) (taskIndex : Z) : option (gmap string string) :=
  if (taskIndex <? 0) || (Z.of_nat (length (Generate c)) <=? taskIndex) then None
  else
    match nth_error (Generate c) (Z.to_nat taskIndex) with
    | Some task =>
        let merged := map_fold (fun k v merged => <[k := v]> merged) ∅ (cfg_Config c) in
        Some (map_fold (fun k v merged => <[k := v]> merged) merged (task_Config task))
    | None => None
    end.

Record Builder := mkBuilder {
  config : option Config;
  moduleCache : gmap string Module_;
  validationCache : gmap string ValidationResult
}.

Definition NewBuilder (c : option Config) : Builder :=
  {| config := c; moduleCache := ∅; validationCache := ∅ |}.

Section Builder.
Context `{CaseConversion}.

(** The builder after the call and the returned result, [None] for the
    nil pointer returned on a cache hit. *)
Definition getOrValidateModule (b : Builder) (module : Module_)
    (modulePath : string) : Builder * option ValidationResult :=
  match validationCache b !! modulePath with
  | Some _ => (b, None)
  | None =>
      let result := snd (Validate NewValidator module) in
      ({| config := config b;
          moduleCache := moduleCache b;
          validationCache := <[modulePath := result]> (validationCache b) |},
       Some result)
  end.

(** The validation step of [executeTask]: the builder after the step, and
    whether the task stops there with "validation failed". *)
Definition validationStep (b : Builder) (module : Module_) (input : string)
    : Builder * bool :=
  let '(b, result) := getOrValidateModule b module input in
  (b, match result with
      | Some result => HasErrors result
      | None => false
      end).

End Builder.

(** ** Directories that the parser leaves out (parser.go) *)

Definition skipDirs : list string :=
  [".git"; ".svn"; ".hg";
   "node_modules"; "vendor";
   ".vscode"; ".idea";
   "target"; "build"; "dist";
   "__pycache__"; ".pytest_cache"].

Definition shouldSkipDirectory (name : string) : bool :=
  (fix range (dirs : list string) : bool :=
     match dirs with
     | [] => HasPrefix name "."
     | skipDir :: rest => if String.eqb name skipDir then true else range rest
     end) skipDirs.

(** ** The resolver with module paths (validator/resolver.go)

    The second version of the resolver keeps, beside [types], a map
    [moduleTypes] keyed by module path and name, and answers
    [QualifiedTypeExists] from it.  It records no dependencies. *)

Module ModuleResolver.

(** The slice expression [s[:n]], for [n <= len(s)]. *)
Fixpoint sliceTo (n : nat) (s : string) : string :=
  match n, s with
  | S n', String c s' => String c (sliceTo n' s')
  | _, _ => EmptyString
  end.

(** [strings.TrimSuffix(s, suffix)]. *)
Definition TrimSuffix (s suffix : string) : string :=
  if HasSuffix s suffix then sliceTo (String.length s - String.length suffix) s
  else s.

(** [strings.ReplaceAll(s, old, new)] for one-byte [old] and [new]. *)
Definition ReplaceAll (s : string) (old new : ascii) : string :=
  map_chars (fun c => if Ascii.eqb c old then new else c) s.

(** [strings.SplitN(s, sep, 2)] for a non-empty [sep]: [None] stands for
    the one-element result [[s]], [Some (a, b)] for [[a, b]], cut at the
    first occurrence of [sep]; [before] is what has been passed over. *)
Fixpoint cut (sep s before : string) : option (string * string) :=
  if HasPrefix s sep then Some (before, sliceFrom (String.length sep) s)
  else
    match s with
    | EmptyString => None
    | String c s' => cut sep s' (before +:+ String c EmptyString)
    end.

Definition SplitN2 (s sep : string) : option (string * string) :=
  cut sep s EmptyString.

Record TypeInfo := mkTypeInfo {
  ti_Name : string;
  DeclType : string;
  ti_File : string;
  ti_Line : Z;
  ti_Column : Z
}.

Record TypeRegistry := mkTypeRegistry {
  types : GoMap TypeInfo;
  moduleTypes : GoMap TypeInfo;
  currentFile : string
}.

Definition NewTypeRegistry : TypeRegistry :=
  {| types := []; moduleTypes := []; currentFile := "" |}.

Definition fileToModulePath (file : string) : string :=
  let path := TrimSuffix file ".tg" in
  ReplaceAll path "/" ".".

Definition RegisterType (r : TypeRegistry) (name declType file : string)
    (line column : Z) : TypeRegistry :=
  let qualifiedName := qualifyName name file in
  let typeInfo := mkTypeInfo name declType file line column in
  let modulePath := fileToModulePath file in
  let moduleQualifiedName := modulePath +:+ "." +:+ name in
  {| types := gomap_store qualifiedName typeInfo (types r);
     moduleTypes := gomap_store moduleQualifiedName typeInfo (moduleTypes r);
     currentFile := currentFile r |}.

Definition QualifiedTypeExists (r : TypeRegistry) (qualifiedName modulePath : string)
    : bool :=
  match gomap_lookup qualifiedName (moduleTypes r) with
  | Some _ => true
  | None =>
      match SplitN2 qualifiedName "." with
      | None => false
      | Some (moduleAlias, typeName) =>
          (fix range (keys : list string) : bool :=
             match keys with
             | [] => false
             | moduleTypeKey :: rest =>
                 if HasSuffix moduleTypeKey ("." +:+ typeName) then
                   let keyModulePath :=
                     match SplitN2 moduleTypeKey ("." +:+ typeName) with
                     | Some (first, _) => first
                     | None => moduleTypeKey
                     end in
                   if HasSuffix modulePath ("." +:+ moduleAlias)
                      || String.eqb modulePath moduleAlias
                   then true
                   else if String.eqb keyModulePath modulePath then true
                   else range rest
                 else range rest
             end) (gomap_keys (moduleTypes r))
      end
  end.

(** [TypeExists] and [FindType] are the same text as in the version with
    dependencies. *)
Definition TypeExists (r : TypeRegistry) (name currentFile : string) : bool :=
  if IsValidPrimitiveType name then true
  else
    let qualifiedName := qualifyName name currentFile in
    match gomap_lookup qualifiedName (types r) with
    | Some _ => true
    | None =>
        (fix range (keys : list string) : bool :=
           match keys with
           | [] => false
           | qualName :: rest =>
               if HasSuffix qualName ("::" +:+ name) then true else range rest
           end) (gomap_keys (types r))
    end.

Definition FindType (r : TypeRegistry) (name currentFile : string)
    : option TypeInfo :=
  let qualifiedName := qualifyName name currentFile in
  match gomap_lookup qualifiedName (types r) with
  | Some info => Some info
  | None =>
      (fix range (entries : GoMap TypeInfo) : option TypeInfo :=
         match entries with
         | [] => None
         | (qualName, info) :: rest =>
             if HasSuffix qualName ("::" +:+ name) then Some info else range rest
         end) (types r)
  end.

(** [processModuleForRegistry] of this version: one [RegisterType] per
    declaration. *)
Definition registerDeclaration (registry : TypeRegistry) (fullPath : string)
    (decl : Declaration) : TypeRegistry :=
  let pos := decl_Pos decl in
  match decl with
  | StructNode _ name _ =>
      RegisterType registry name "struct" fullPath (Line pos) (Column pos)
  | EnumNode _ name _ =>
      RegisterType registry name "enum" fullPath (Line pos) (Column pos)
  | TypeAliasNode _ name _ =>
      RegisterType registry name "alias" fullPath (Line pos) (Column pos)
  | ConstantNode _ name _ =>
      RegisterType registry name "constant" fullPath (Line pos) (Column pos)
  end.

Definition registerFile (basePath : string) (registry : TypeRegistry)
    (entry : string * ProgramNode) : TypeRegistry :=
  let fullPath := joinPath basePath (fst entry) in
  fold_left (fun reg decl => registerDeclaration reg fullPath decl)
    (Declarations (snd entry))
    {| types := types registry; moduleTypes := moduleTypes registry;
       currentFile := fullPath |}.

Fixpoint processModuleForRegistry (module : Module_) (basePath : string)
    (registry : TypeRegistry) : TypeRegistry :=
  let registry := fold_left (registerFile basePath) (Files module) registry in
  (fix submodules (subs : list (string * Module_)) (registry : TypeRegistry)
     : TypeRegistry :=
     match subs with
     | [] => registry
     | (subModuleName, subModule) :: rest =>
         submodules rest
           (processModuleForRegistry subModule (joinPath basePath subModuleName)
              registry)
     end) (SubModules module) registry.

Definition buildTypeRegistry (module : Module_) : TypeRegistry :=
  processModuleForRegistry module "" NewTypeRegistry.

End ModuleResolver.

(** * Notions used in the statements *)

(** The names for which [ValidPrimitiveTypes] holds [true]. *)
Definition primitiveNames : list string :=
  ["int8"; "int16"; "int32"; "int64"; "nat8"; "nat16"; "nat32"; "nat64";
   "float32"; "float64"; "string"; "bool"; "json"; "datetime"; "date"; "time"].

(** The names for which [ValidMapKeyTypes] holds [true]. *)
Definition mapKeyNames : list string :=
  ["string"; "int8"; "int16"; "int32"; "int64";
   "nat8"; "nat16"; "nat32"; "nat64"].

(** The errors of one kind, in the order in which they were added. *)
Definition errorsOfType (ty : ValidationErrorType) (errs : list ValidationError)
    : list ValidationError :=
  List.filter (fun e => bool_decide (Type' e = ty)) errs.

(** What a run of validator methods does to a result: it appends. *)
Definition appendErrors (res : ValidationResult) (errs : list ValidationError)
    : ValidationResult :=
  {| Errors := (Errors res ++ errs)%list;
     Valid := match errs with [] => Valid res | _ :: _ => false end |}.

(** The errors that validating a type expression on its own adds. *)
Definition typeErrors (r : TypeRegistry) (typeNode : Type_) (filename : string)
    (line column : Z) : list ValidationError :=
  Errors (validateType r typeNode filename line column NewValidationResult).

(** The invariant of a result. *)
Definition result_ok (res : ValidationResult) : Prop :=
  Valid res = (length (Errors res) =? 0)%nat.

(** The results the package can build: a fresh one, and one more error. *)
Inductive built : ValidationResult -> Prop :=
| built_new : built NewValidationResult
| built_add res errorType message file line column suggestion :
    built res ->
    built (AddError res errorType message file line column suggestion).

(** [Logs f errs]: whatever the result before, [f] appends [errs]. *)
Definition Logs (f : ValidationResult -> ValidationResult)
    (errs : list ValidationError) : Prop :=
  forall res, f res = appendErrors res errs.

(** The key of a map is accepted when it is a primitive whose name is in
    [ValidMapKeyTypes]. *)
Definition mapKeyAccepted (keyType : Type_) : bool :=
  match keyType with
  | PrimitiveType _ name => IsValidMapKeyType name
  | _ => false
  end.

Definition mapKeyMessage (keyType : Type_) : string :=
  match keyType with
  | PrimitiveType _ name => "map key type '" +:+ name +:+ "' is not valid"
  | _ => "map key must be a primitive type"
  end.

Definition mapKeyErrors (keyType : Type_) (filename : string) (line column : Z)
    : list ValidationError :=
  if mapKeyAccepted keyType then []
  else [mkValidationError InvalidMapKeyError (mapKeyMessage keyType)
          filename line column "use string or integer types for map keys"].

Definition doubleOptionalErrors (elementType : Type_) (filename : string)
    (line column : Z) : list ValidationError :=
  match elementType with
  | OptionalType _ _ =>
      [mkValidationError InvalidOptionalError
         "double-wrapped optional types are not allowed"
         filename line column "use single optional marker ?Type"]
  | _ => []
  end.

(** The files of a module tree with the paths under which the registry and
    the validator know them, in the order of the walk: the files of the
    module, then each submodule in turn. *)
Fixpoint moduleFiles (module : Module_) (basePath : string)
    : list (string * ProgramNode) :=
  (map (fun entry => (joinPath basePath (fst entry), snd entry)) (Files module)
   ++ (fix submodules (subs : list (string * Module_)) :=
         match subs with
         | [] => []
         | (subModuleName, subModule) :: rest =>
             moduleFiles subModule (joinPath basePath subModuleName)
             ++ submodules rest
         end) (SubModules module))%list.

(** [LogsOnly kinds f]: [f] appends errors, all of a kind in [kinds]. *)
Definition LogsOnly (kinds : list ValidationErrorType)
    (f : ValidationResult -> ValidationResult) : Prop :=
  exists errs, Logs f errs /\ Forall (fun e => In (Type' e) kinds) errs.

(** [Silent ty f]: [f] appends errors, none of kind [ty]. *)
Definition Silent (ty : ValidationErrorType)
    (f : ValidationResult -> ValidationResult) : Prop :=
  exists errs, Logs f errs /\ errorsOfType ty errs = [].

Definition typeKinds : list ValidationErrorType :=
  [InvalidPrimitiveError; UndefinedTypeError; InvalidMapKeyError; InvalidOptionalError].

Definition declKinds : list ValidationErrorType :=
  [NamingConventionError; DuplicateFieldError; DuplicateVariantError;
   InvalidConstantError; InvalidPrimitiveError; UndefinedTypeError;
   InvalidMapKeyError; InvalidOptionalError].

Definition duplicateFieldReport (filename : string) (field existing : FieldNode)
    : ValidationError :=
  mkValidationError DuplicateFieldError
    ("duplicate field '" +:+ field_Name field
       +:+ "' (first declared at line "
       +:+ itoa (Line (Pos (field_base existing))) +:+ ")")
    filename (Line (Pos (field_base field))) (Column (Pos (field_base field)))
    "rename one of the fields".

Definition duplicateVariantReport (filename : string)
    (variant existing : EnumVariantNode) : ValidationError :=
  mkValidationError DuplicateVariantError
    ("duplicate variant '" +:+ variant_Name variant
       +:+ "' (first declared at line "
       +:+ itoa (Line (Pos (variant_base existing))) +:+ ")")
    filename (Line (Pos (variant_base variant)))
    (Column (Pos (variant_base variant)))
    "rename one of the variants".

Definition grows (visited visited' : gmap string bool) : Prop :=
  forall k, flag visited k = true -> flag visited' k = true.

(** How many of [names] are not flagged. *)
Definition remaining (names : list string) (visited : gmap string bool) : nat :=
  length (List.filter (fun k => negb (flag visited k)) (remove_dups names)).

(** What [validateModule] meets, in order: a file under its path, or the
    name of a submodule together with the path of its parent. *)
Inductive WalkEvent :=
| VisitFile (fullPath : string) (program : ProgramNode)
| EnterSubModule (subModuleName basePath : string).

Fixpoint moduleWalk (module : Module_) (basePath : string) : list WalkEvent :=
  (map (fun entry => VisitFile (joinPath basePath (fst entry)) (snd entry))
     (Files module)
   ++ (fix submodules (subs : list (string * Module_)) :=
         match subs with
         | [] => []
         | (subModuleName, subModule) :: rest =>
             EnterSubModule subModuleName basePath
             :: moduleWalk subModule (joinPath basePath subModuleName)
             ++ submodules rest
         end) (SubModules module))%list.

Definition walkFiles (events : list WalkEvent) : list (string * ProgramNode) :=
  flat_map (fun ev => match ev with
                      | VisitFile p prog => [(p, prog)]
                      | EnterSubModule _ _ => []
                      end) events.

(** Two enumerations of one module tree: the same files and the same
    submodules under the same names, listed in any order at every level. *)
Inductive SameModule : Module_ -> Module_ -> Prop :=
| SameModule_intro path name files files' subs subs' reordered :
    Permutation files files' ->
    Permutation subs reordered ->
    Forall2 (fun sub sub' => fst sub = fst sub' /\ SameModule (snd sub) (snd sub'))
      reordered subs' ->
    SameModule (mkModule path name files subs) (mkModule path name files' subs').

(** Two registries that answer [TypeExists] alike. *)
Definition sameAnswers (r r' : TypeRegistry) : Prop :=
  forall name currentFile, TypeExists r name currentFile = TypeExists r' name currentFile.

(** The errors of every kind but one. *)
Definition errorsNotOfType (ty : ValidationErrorType) (errs : list ValidationError)
    : list ValidationError :=
  List.filter (fun e => negb (bool_decide (Type' e = ty))) errs.

Definition walkKinds : list ValidationErrorType :=
  [NamingConventionError; DuplicateFieldError; DuplicateVariantError;
   InvalidConstantError; InvalidPrimitiveError; UndefinedTypeError;
   InvalidMapKeyError; InvalidOptionalError; DuplicateTypeError;
   InvalidImportError].

(** ** Loops that remember the names they have seen

    [validateField], [validateEnumVariant] and [validateDeclaration] share
    one shape: some checks, then the lookup of the name among the names
    seen, which either reports a duplicate or remembers the item, then
    some more checks. *)

Section DuplicateLoopNotions.
Context {A : Type} (name : A -> string).
Context (pre post : A -> ValidationResult -> ValidationResult).
Context (dup : A -> A -> ValidationResult -> ValidationResult).
Context (report : A -> A -> ValidationError).

Definition dupStep (a : A) (st : gmap string A * ValidationResult)
    : gmap string A * ValidationResult :=
  let '(seen, res) := st in
  let res := pre a res in
  let '(seen, res) :=
    match seen !! name a with
    | Some existing => (seen, dup a existing res)
    | None => (<[name a := a]> seen, res)
    end in
  (seen, post a res).

Definition remember (seen : gmap string A) (a : A) : gmap string A :=
  match seen !! name a with
  | Some _ => seen
  | None => <[name a := a]> seen
  end.

(** The duplicate reports of a loop: one for each item whose name has been
    seen, citing the item remembered under that name. *)
Fixpoint duplicateReports (items : list A) (seen : gmap string A)
    : list ValidationError :=
  match items with
  | [] => []
  | a :: rest =>
      (match seen !! name a with
       | Some existing => [report a existing]
       | None => []
       end ++ duplicateReports rest (remember seen a))%list
  end.

End DuplicateLoopNotions.

Section ValidationNotions.
Context `{CaseConversion}.

Definition duplicateTypeReport (filename : string) (decl existing : Declaration)
    : ValidationError :=
  mkValidationError DuplicateTypeError
    ("duplicate " +:+ declType decl +:+ " '" +:+ decl_Name decl
       +:+ "' (first declared at line " +:+ itoa (Line (decl_Pos existing)) +:+ ")")
    filename (Line (decl_Pos decl)) (Column (decl_Pos decl))
    "rename one of the declarations".

(** The duplicate reports of one file, and of the files of a walk. *)
Definition fileDuplicates (entry : string * ProgramNode) : list ValidationError :=
  duplicateReports decl_Name (duplicateTypeReport (fst entry))
    (Declarations (snd entry)) ∅.

Definition fieldNameCheck (filename : string) (field : FieldNode)
    (res : ValidationResult) : ValidationResult :=
  if negb (IsValidSnakeCase (field_Name field)) then
    AddError res NamingConventionError
      ("field name '" +:+ field_Name field
         +:+ "' should follow snake_case convention")
      filename (Line (Pos (field_base field))) (Column (Pos (field_base field)))
      ("use '" +:+ SuggestSnakeCase (field_Name field) +:+ "'")
  else res.

Definition fieldTypeCheck (r : TypeRegistry) (filename : string)
    (field : FieldNode) (res : ValidationResult) : ValidationResult :=
  validateType r (field_Type field) filename
    (Line (Pos (field_base field))) (Column (Pos (field_base field))) res.

Definition fieldDuplicate (filename : string) (field existing : FieldNode)
    (res : ValidationResult) : ValidationResult :=
  AddError res DuplicateFieldError
    (Message (duplicateFieldReport filename field existing))
    filename (Line (Pos (field_base field))) (Column (Pos (field_base field)))
    "rename one of the fields".

Definition variantNameCheck (filename : string) (variant : EnumVariantNode)
    (res : ValidationResult) : ValidationResult :=
  if negb (IsValidSnakeCase (variant_Name variant)) then
    AddError res NamingConventionError
      ("enum variant '" +:+ variant_Name variant
         +:+ "' should follow snake_case convention")
      filename (Line (Pos (variant_base variant)))
      (Column (Pos (variant_base variant)))
      ("use '" +:+ SuggestSnakeCase (variant_Name variant) +:+ "'")
  else res.

Definition variantPayloadCheck (r : TypeRegistry) (filename : string)
    (variant : EnumVariantNode) (res : ValidationResult) : ValidationResult :=
  match variant_Payload variant with
  | Some payload =>
      validateType r payload filename (Line (Pos (variant_base variant)))
        (Column (Pos (variant_base variant))) res
  | None => res
  end.

Definition variantDuplicate (filename : string)
    (variant existing : EnumVariantNode) (res : ValidationResult)
    : ValidationResult :=
  AddError res DuplicateVariantError
    (Message (duplicateVariantReport filename variant existing))
    filename (Line (Pos (variant_base variant)))
    (Column (Pos (variant_base variant)))
    "rename one of the variants".

(** The checks of one declaration, ahead of the lookup of its name. *)
Definition declCheck (r : TypeRegistry) (filename : string) (decl : Declaration)
    (res : ValidationResult) : ValidationResult :=
  match decl with
  | StructNode b name fields => validateStruct r b name fields filename res
  | EnumNode b name variants => validateEnum r b name variants filename res
  | TypeAliasNode b name t => validateTypeAlias r b name t filename res
  | ConstantNode b name value => validateConstant b name value filename res
  end.

Definition declDuplicate (filename : string) (decl existing : Declaration)
    (res : ValidationResult) : ValidationResult :=
  AddError res DuplicateTypeError
    (Message (duplicateTypeReport filename decl existing))
    filename (Line (decl_Pos decl)) (Column (decl_Pos decl))
    "rename one of the declarations".

(** [Reports ty f dups]: [f] appends errors, of which those of kind [ty]
    are [dups]. *)
Definition Reports (ty : ValidationErrorType)
    (f : ValidationResult -> ValidationResult) (dups : list ValidationError)
    : Prop :=
  exists errs, Logs f errs /\ errorsOfType ty errs = dups.

Definition walkStep (r : TypeRegistry) (res : ValidationResult) (ev : WalkEvent)
    : ValidationResult :=
  match ev with
  | VisitFile fullPath program => validateProgram r program fullPath res
  | EnterSubModule subModuleName basePath =>
      checkSubModuleName subModuleName basePath res
  end.

(** The errors that one event of the walk adds. *)
Definition eventErrors (r : TypeRegistry) (ev : WalkEvent) : list ValidationError :=
  Errors (walkStep r NewValidationResult ev).

End ValidationNotions.

(** ** The registry as a table of declarations *)

(** The names a type expression refers to, from left to right. *)
Fixpoint namedLeaves (typeNode : Type_) : list string :=
  match typeNode with
  | PrimitiveType _ _ => []
  | NamedType _ n => [n]
  | ArrayType _ e => namedLeaves e
  | MapType _ k v => (namedLeaves k ++ namedLeaves v)%list
  | OptionalType _ e => namedLeaves e
  end.

(** The names a declaration refers to: those of its fields, of its
    payloads or of the aliased type; a constant refers to none. *)
Definition declLeaves (decl : Declaration) : list string :=
  match decl with
  | StructNode _ _ fields =>
      flat_map (fun field => namedLeaves (field_Type field)) fields
  | EnumNode _ _ variants =>
      flat_map (fun variant =>
                  match variant_Payload variant with
                  | Some payload => namedLeaves payload
                  | None => []
                  end) variants
  | TypeAliasNode _ _ t => namedLeaves t
  | ConstantNode _ _ _ => []
  end.

(** The [declType] strings of [processModuleForRegistry]. *)
Definition registryKind (decl : Declaration) : string :=
  match decl with
  | StructNode _ _ _ => "struct"
  | EnumNode _ _ _ => "enum"
  | TypeAliasNode _ _ _ => "alias"
  | ConstantNode _ _ _ => "constant"
  end.

(** The record that registering [decl] of the file [fullPath] leaves in
    the registry. *)
Definition declRecord (fullPath : string) (decl : Declaration) : TypeInfo :=
  mkTypeInfo (decl_Name decl) (registryKind decl) fullPath
    (Line (decl_Pos decl)) (Column (decl_Pos decl)) (declLeaves decl).

Definition withDependencies (info : TypeInfo) (deps : list string) : TypeInfo :=
  mkTypeInfo (ti_Name info) (DeclType info) (ti_File info)
    (ti_Line info) (ti_Column info) deps.

(** Every record sits under the key made of its own name and file, is of
    one of the four kinds, and no key occurs twice. *)
Definition registry_wf (r : TypeRegistry) : Prop :=
  List.NoDup (gomap_keys (types r))
  /\ Forall (fun entry =>
               fst entry = qualifyName (ti_Name (snd entry)) (ti_File (snd entry))
               /\ In (DeclType (snd entry)) ["struct"; "enum"; "alias"; "constant"])
       (types r).

(** All the declarations of a module tree, with the path of their file. *)
Definition moduleDeclarations (module : Module_) : list (string * Declaration) :=
  flat_map (fun entry => map (fun decl => (fst entry, decl)) (Declarations (snd entry)))
    (moduleFiles module "").

(** ** The registry as a graph of dependencies *)

(** [dependsOn r a b]: the record under the key [a] lists a dependency
    that, qualified with the file of that record, is [b]: an edge that
    [detectCycle] follows. *)
Definition dependsOn (r : TypeRegistry) (a b : string) : Prop :=
  exists info dep,
    gomap_lookup a (types r) = Some info
    /\ In dep (Dependencies info)
    /\ b = qualifyName dep (ti_File info).

(** Each element depends on the next one. *)
Fixpoint chain (r : TypeRegistry) (path : list string) : Prop :=
  match path with
  | a :: rest =>
      match rest with
      | b :: _ => dependsOn r a b /\ chain r rest
      | [] => True
      end
  | [] => True
  end.

(** A chain that ends where it starts. *)
Definition closedChain (r : TypeRegistry) (cycle : list string) : Prop :=
  chain r cycle /\ exists q mid, cycle = q :: (mid ++ [q])%list.

(** The text of a reported cycle. *)
Definition cycleReport (r : TypeRegistry) (s : string) : Prop :=
  exists cycle, s = Join cycle " -> " /\ closedChain r cycle.

(** ** Bytes that a name does not contain *)

Definition notDot (c : ascii) : bool := negb (Ascii.eqb c ".").
Definition notColon (c : ascii) : bool := negb (Ascii.eqb c ":").

(** The eight names that the grammar makes primitive types of and that
    [ValidPrimitiveTypes] does not hold. *)
Definition unsupportedPrimitives : list string :=
  ["int"; "bigint"; "nat"; "bignat"; "decimal"; "timetz"; "datetz"; "datetimetz"].

(** An identifier of the lexer written in ASCII: a letter, then letters,
    digits and underscores. *)
Definition asciiIdentifier (s : string) : bool :=
  match s with
  | EmptyString => false
  | String c s' =>
      (is_lower c || is_upper c)
      && all_chars (fun d => is_lower d || is_upper d || is_digit d || is_underscore d) s'
  end.

(** ** Where the errors point *)

(** [LogsAll P f]: [f] appends errors, all of which satisfy [P]. *)
Definition LogsAll (P : ValidationError -> Prop)
    (f : ValidationResult -> ValidationResult) : Prop :=
  exists errs, Logs f errs /\ Forall P errs.

Definition nodeAt (pos : Position) : Z * Z := (Line pos, Column pos).

(** The positions of a declaration and of its fields or variants, and
    those of the imports and declarations of a file. *)
Definition declPositions (decl : Declaration) : list (Z * Z) :=
  nodeAt (decl_Pos decl) ::
  match decl with
  | StructNode _ _ fields => map (fun field => nodeAt (Pos (field_base field))) fields
  | EnumNode _ _ variants =>
      map (fun variant => nodeAt (Pos (variant_base variant))) variants
  | TypeAliasNode _ _ _ | ConstantNode _ _ _ => []
  end.

Definition programPositions (program : ProgramNode) : list (Z * Z) :=
  (map (fun imp => nodeAt (Pos (import_base imp))) (Imports program)
   ++ flat_map declPositions (Declarations program))%list.

Definition locatedIn (filename : string) (positions : list (Z * Z))
    (e : ValidationError) : Prop :=
  File e = filename /\ In (err_Line e, err_Column e) positions.

(** An error without a position: line and column are zero. *)
Definition unlocated (kinds : list ValidationErrorType) (e : ValidationError) : Prop :=
  err_Line e = 0 /\ err_Column e = 0 /\ In (Type' e) kinds.

Section ImportNotions.
Context `{CaseConversion}.

(** The errors of the import loop of a file: one for each path that is
    not a valid module name, in the order of the imports. *)
Definition importErrors (filename : string) (imports : list ImportNode)
    : list ValidationError :=
  flat_map
    (fun imp =>
       if IsValidModuleName (import_Path imp) then []
       else [mkValidationError InvalidImportError
               ("import path '" +:+ import_Path imp
                  +:+ "' should follow snake_case convention for module names")
               filename (Line (Pos (import_base imp))) (Column (Pos (import_base imp)))
               ("use '" +:+ SuggestModuleName (import_Path imp) +:+ "'")])
    imports.

(** A file without its imports. *)
Definition withoutImports (program : ProgramNode) : ProgramNode :=
  mkProgramNode (program_base program) [] (Declarations program).

End ImportNotions.

(** A byte of a plain name: neither a colon nor a space, the bytes that
    the separators of a cycle report start with. *)
Definition plainByte (c : ascii) : bool := notColon c && negb (Ascii.eqb c " ").

(** The key under which a declaration of a file is registered. *)
Definition declKey (entry : string * Declaration) : string :=
  qualifyName (decl_Name (snd entry)) (fst entry).



(** ** What a search that finds nothing has established *)

(** [fresh v v' x]: [x] is flagged in [v'] and was not in [v]. *)
Definition fresh (v v' : gmap string bool) (x : string) : Prop :=
  flag v x = false /\ flag v' x = true.

(** [explored r stack v v']: the names visited between [v] and [v'] have
    all their dependencies visited, none of them on [stack], and no cycle
    runs through these names alone. *)
Definition explored (r : TypeRegistry) (stack : list string)
    (v v' : gmap string bool) : Prop :=
  grows v v'
  /\ (forall x y, fresh v v' x -> dependsOn r x y ->
        flag v' y = true /\ ~ In y stack)
  /\ (forall cycle, closedChain r cycle -> ~ Forall (fresh v v') cycle).

(** The names on the path of the search are visited and on the stack. *)
Definition onStack (path : list string) (visited recStack : gmap string bool) : Prop :=
  forall s, In s path -> flag visited s = true /\ flag recStack s = true.

(** * Properties *)

(** ** The unit tests of the package, run on the embedding *)

Example TestNamingConventionRules :
  IsValidSnakeCase "user_name" = true /\ IsValidSnakeCase "UserName" = false
  /\ IsValidPascalCase "UserName" = true /\ IsValidPascalCase "user_name" = false
  /\ IsValidConstantCase "MAX_SIZE" = true /\ IsValidConstantCase "max_size" = false.
Proof. repeat split; reflexivity. Qed.

Example TestPrimitiveTypeValidation :
  forallb IsValidPrimitiveType
    ["int8"; "int16"; "int32"; "int64"; "nat8"; "nat16"; "nat32"; "nat64";
     "float32"; "float64"; "string"; "bool"; "json"; "datetime"; "date"; "time"]
  = true
  /\ existsb IsValidPrimitiveType ["integer"; "double"; "str"; "boolean"; "timestamp"]
     = false.
Proof. split; vm_compute; reflexivity. Qed.

Example TestMapKeyValidation :
  forallb IsValidMapKeyType
    ["string"; "int8"; "int16"; "int32"; "int64"; "nat8"; "nat16"; "nat32"; "nat64"]
  = true
  /\ existsb IsValidMapKeyType ["float32"; "float64"; "bool"; "json"; "datetime"]
     = false.
Proof. split; vm_compute; reflexivity. Qed.

Example TestNamingConventionSuggestions :
  SuggestPascalCase (H := asciiCase) "user_name" = "UserName"
  /\ SuggestSnakeCase (H := asciiCase) "UserName" = "user_name"
  /\ SuggestConstantCase (H := asciiCase) "userName" = "USER_NAME".
Proof. repeat split; vm_compute; reflexivity. Qed.

(** [struct User { id: int64, name: string, email: ?string, tags: []string,
    metadata: [string]string } enum Status { active, pending: string }
    type UserID = int64  const MAX_USERS = 1000] *)
Example TestValidator_ValidModule `{CaseConversion} (v : Validator) (b : BaseNode) :
  snd (Validate v
         (mkModule "test" "test"
            [("test.tg",
              mkProgramNode b []
                [StructNode b "User"
                   [mkFieldNode b "id" (PrimitiveType b "int64") false;
                    mkFieldNode b "name" (PrimitiveType b "string") false;
                    mkFieldNode b "email"
                      (OptionalType b (PrimitiveType b "string")) false;
                    mkFieldNode b "tags"
                      (ArrayType b (PrimitiveType b "string")) false;
                    mkFieldNode b "metadata"
                      (MapType b (PrimitiveType b "string") (PrimitiveType b "string"))
                      false];
                 EnumNode b "Status"
                   [mkEnumVariantNode b "active" None;
                    mkEnumVariantNode b "pending" (Some (PrimitiveType b "string"))];
                 TypeAliasNode b "UserID" (PrimitiveType b "int64");
                 ConstantNode b "MAX_USERS" (Some (IntConstant b 1000))])] []))
  = NewValidationResult.
Proof. vm_compute. reflexivity. Qed.

(** [struct User { id: int64, profile: NonExistentType }] *)
Example TestValidator_UndefinedType `{CaseConversion} (v : Validator) (b : BaseNode) :
  map Type'
    (Errors (snd (Validate v
       (mkModule "test" "test"
          [("test.tg",
            mkProgramNode b []
              [StructNode b "User"
                 [mkFieldNode b "id" (PrimitiveType b "int64") false;
                  mkFieldNode b "profile" (NamedType b "NonExistentType") false]])]
          []))))
  = [UndefinedTypeError].
Proof. vm_compute. reflexivity. Qed.

(** [struct User { metadata: [bool]string }] *)
Example TestValidator_InvalidMapKey `{CaseConversion} (v : Validator) (b : BaseNode) :
  map Type'
    (Errors (snd (Validate v
       (mkModule "test" "test"
          [("test.tg",
            mkProgramNode b []
              [StructNode b "User"
                 [mkFieldNode b "metadata"
                    (MapType b (PrimitiveType b "bool") (PrimitiveType b "string"))
                    false]])]
          []))))
  = [InvalidMapKeyError].
Proof. vm_compute. reflexivity. Qed.

(** ** Results and the append discipline *)

Lemma appendErrors_nil res : appendErrors res [] = res.
Proof. destruct res; unfold appendErrors; simpl. by rewrite app_nil_r. Qed.

Lemma appendErrors_app res e1 e2 :
  appendErrors (appendErrors res e1) e2 = appendErrors res (e1 ++ e2).
Proof.
  unfold appendErrors; simpl. rewrite <- app_assoc.
  destruct e1, e2; simpl; reflexivity.
Qed.

Lemma AddError_append res ty m f l c sg :
  AddError res ty m f l c sg = appendErrors res [mkValidationError ty m f l c sg].
Proof. reflexivity. Qed.

Lemma Logs_id : Logs (fun res => res) [].
Proof. intros res. by rewrite appendErrors_nil. Qed.

Lemma Logs_AddError ty m f l c sg :
  Logs (fun res => AddError res ty m f l c sg) [mkValidationError ty m f l c sg].
Proof. intros res. reflexivity. Qed.

Lemma Logs_comp f g e1 e2 :
  Logs f e1 -> Logs g e2 -> Logs (fun res => g (f res)) (e1 ++ e2).
Proof. intros Hf Hg res. by rewrite Hf, Hg, appendErrors_app. Qed.

Lemma Logs_unique f e1 e2 : Logs f e1 -> Logs f e2 -> e1 = e2.
Proof.
  intros H1 H2. pose proof (H1 NewValidationResult) as E1.
  rewrite (H2 NewValidationResult) in E1.
  by injection E1.
Qed.

Lemma errorsOfType_app ty e1 e2 :
  errorsOfType ty (e1 ++ e2) = (errorsOfType ty e1 ++ errorsOfType ty e2)%list.
Proof. unfold errorsOfType. apply List.filter_app. Qed.

Lemma validatePrimitiveType_Logs name filename line column :
  Logs (validatePrimitiveType name filename line column)
    (if IsValidPrimitiveType name then []
     else [mkValidationError InvalidPrimitiveError
             ("'" +:+ name +:+ "' is not a valid primitive type")
             filename line column
             "use one of: int8, int16, int32, int64, nat8, nat16, nat32, nat64, float32, float64, string, bool, json, datetime, date, time"]).
Proof.
  intros res. unfold validatePrimitiveType.
  destruct (IsValidPrimitiveType name); simpl; [by rewrite appendErrors_nil | reflexivity].
Qed.

Lemma validateNamedType_Logs r name filename line column :
  Logs (validateNamedType r name filename line column)
    (if TypeExists r name filename then []
     else [mkValidationError UndefinedTypeError
             ("undefined type '" +:+ name +:+ "'")
             filename line column
             "define the type or check the spelling"]).
Proof.
  intros res. unfold validateNamedType.
  destruct (TypeExists r name filename); simpl; [by rewrite appendErrors_nil | reflexivity].
Qed.

Lemma checkMapKey_Logs keyType filename line column :
  Logs (checkMapKey keyType filename line column)
    (mapKeyErrors keyType filename line column).
Proof.
  intros res. unfold checkMapKey, mapKeyErrors, mapKeyAccepted, mapKeyMessage.
  destruct keyType; try reflexivity.
  destruct (IsValidMapKeyType Name0); simpl; [by rewrite appendErrors_nil | reflexivity].
Qed.

Lemma checkDoubleOptional_Logs elementType filename line column :
  Logs (checkDoubleOptional elementType filename line column)
    (doubleOptionalErrors elementType filename line column).
Proof.
  intros res. unfold checkDoubleOptional, doubleOptionalErrors.
  destruct elementType; try (by rewrite appendErrors_nil); reflexivity.
Qed.

Lemma validateType_Logs r typeNode filename line column :
  Logs (validateType r typeNode filename line column)
    (typeErrors r typeNode filename line column).
Proof.
  assert (Hex : exists errs, Logs (validateType r typeNode filename line column) errs).
  { induction typeNode as [b n | b n | b e IHe | b k IHk v IHv | b e IHe]; simpl.
    - eexists. apply validatePrimitiveType_Logs.
    - eexists. apply validateNamedType_Logs.
    - exact IHe.
    - destruct IHk as [ek Hk], IHv as [ev Hv]. eexists.
      apply (Logs_comp _ _ _ _
               (Logs_comp _ _ _ _ (checkMapKey_Logs k filename line column) Hk) Hv).
    - destruct IHe as [ee He]. eexists.
      apply (Logs_comp _ _ _ _ (checkDoubleOptional_Logs e filename line column) He). }
  destruct Hex as [errs Hl]. intros res. rewrite Hl. unfold typeErrors.
  rewrite (Hl NewValidationResult). simpl. reflexivity.
Qed.

Lemma typeErrors_Primitive r b name filename line column :
  typeErrors r (PrimitiveType b name) filename line column =
  if IsValidPrimitiveType name then []
  else [mkValidationError InvalidPrimitiveError
          ("'" +:+ name +:+ "' is not a valid primitive type")
          filename line column
          "use one of: int8, int16, int32, int64, nat8, nat16, nat32, nat64, float32, float64, string, bool, json, datetime, date, time"].
Proof.
  unfold typeErrors. cbn [validateType]. rewrite validatePrimitiveType_Logs.
  destruct (IsValidPrimitiveType name); reflexivity.
Qed.

Lemma typeErrors_Map r b k v filename line column :
  typeErrors r (MapType b k v) filename line column =
  (mapKeyErrors k filename line column ++ typeErrors r k filename line column
     ++ typeErrors r v filename line column)%list.
Proof.
  unfold typeErrors at 1. simpl.
  rewrite checkMapKey_Logs, !validateType_Logs, !appendErrors_app. reflexivity.
Qed.

Lemma typeErrors_Optional r b e filename line column :
  typeErrors r (OptionalType b e) filename line column =
  (doubleOptionalErrors e filename line column
     ++ typeErrors r e filename line column)%list.
Proof.
  unfold typeErrors at 1. simpl.
  rewrite checkDoubleOptional_Logs, !validateType_Logs, !appendErrors_app. reflexivity.
Qed.

(** ** The invariant of [ValidationResult] *)

Lemma built_ok res : built res -> result_ok res.
Proof.
  induction 1 as [| res ty m f l c sg _ _]; unfold result_ok; simpl; [reflexivity|].
  rewrite length_app. simpl. symmetry. apply Nat.eqb_neq. lia.
Qed.

Lemma result_ok_HasErrors res : result_ok res -> HasErrors res = negb (Valid res).
Proof.
  unfold result_ok, HasErrors. intros ->.
  destruct (length (Errors res)); reflexivity.
Qed.

Lemma built_appendErrors res errs : built res -> built (appendErrors res errs).
Proof.
  revert res. induction errs as [| e errs IH]; intros res Hb.
  - by rewrite appendErrors_nil.
  - replace (e :: errs) with ([e] ++ errs)%list by reflexivity.
    rewrite <- appendErrors_app. apply IH.
    destruct e as [ty m f l c sg]. rewrite <- AddError_append. by constructor.
Qed.

(** ** Primitive names *)

Lemma IsValidPrimitiveType_spec name :
  IsValidPrimitiveType name = true <-> In name primitiveNames.
Proof.
  unfold IsValidPrimitiveType. split.
  - destruct (ValidPrimitiveTypes !! name) as [b|] eqn:E; simpl; [|discriminate].
    intros ->. apply elem_of_list_to_map_2 in E. apply list_elem_of_In in E.
    simpl in E. unfold primitiveNames. simpl.
    repeat (destruct E as [E|E]; [inversion E; tauto|]). destruct E.
  - intros Hin. unfold primitiveNames in Hin. simpl in Hin.
    repeat (destruct Hin as [<-|Hin]; [vm_compute; reflexivity|]). destruct Hin.
Qed.

Lemma IsValidMapKeyType_spec name :
  IsValidMapKeyType name = true <-> In name mapKeyNames.
Proof.
  unfold IsValidMapKeyType. split.
  - destruct (ValidMapKeyTypes !! name) as [b|] eqn:E; simpl; [|discriminate].
    intros ->. apply elem_of_list_to_map_2 in E. apply list_elem_of_In in E.
    simpl in E. unfold mapKeyNames. simpl.
    repeat (destruct E as [E|E]; [inversion E; tauto|]). destruct E.
  - intros Hin. unfold mapKeyNames in Hin. simpl in Hin.
    repeat (destruct Hin as [<-|Hin]; [vm_compute; reflexivity|]). destruct Hin.
Qed.

Lemma primitiveNames_NoDup : List.NoDup primitiveNames.
Proof.
  unfold primitiveNames.
  repeat (constructor; [simpl; intros Hin;
    repeat (destruct Hin as [Hin|Hin]; [discriminate Hin|]); destruct Hin|]).
  constructor.
Qed.

Lemma validateType_MapType r b keyType valueType filename line column res :
  validateType r (MapType b keyType valueType) filename line column res
  = validateMapType r keyType valueType filename line column res.
Proof. reflexivity. Qed.

Lemma validateType_OptionalType r b elementType filename line column res :
  validateType r (OptionalType b elementType) filename line column res
  = validateOptionalType r elementType filename line column res.
Proof. reflexivity. Qed.

Lemma validateType_Errors r typeNode filename line column res :
  Errors (validateType r typeNode filename line column res) =
  (Errors res ++ typeErrors r typeNode filename line column)%list.
Proof. by rewrite validateType_Logs. Qed.

(** C2, as the code has it: a primitive type expression is accepted exactly
    when its name is one of the sixteen names of [ValidPrimitiveTypes]
    (signed and unsigned integers of four widths, two floats, string, bool,
    json, and the three date/time names datetime, date and time); for any
    other name validation adds one [InvalidPrimitiveError], and nothing
    else. *)
Theorem primitive_accepted_iff_sixteen
    (r : TypeRegistry) (b : BaseNode) (name filename : string)
    (line column : Z) (res : ValidationResult) :
  length primitiveNames = 16%nat /\
  List.NoDup primitiveNames /\
  (IsValidPrimitiveType name = true <-> In name primitiveNames) /\
  validateType r (PrimitiveType b name) filename line column res =
    if IsValidPrimitiveType name then res
    else AddError res InvalidPrimitiveError
           ("'" +:+ name +:+ "' is not a valid primitive type")
           filename line column
           "use one of: int8, int16, int32, int64, nat8, nat16, nat32, nat64, float32, float64, string, bool, json, datetime, date, time".
Proof.
  split; [reflexivity|]. split; [apply primitiveNames_NoDup|].
  split; [apply IsValidPrimitiveType_spec|].
  cbn [validateType]. unfold validatePrimitiveType.
  destruct (IsValidPrimitiveType name); reflexivity.
Qed.

(** C2, as stated, fails: no set of seventeen names is the set of accepted
    primitive names, and of the six date/time names of the language the
    three with a time zone are rejected with an [InvalidPrimitiveError]. *)
Lemma primitive_seventeen_refuted :
  (~ exists names : list string,
       List.NoDup names /\ length names = 17%nat /\
       forall n, IsValidPrimitiveType n = true <-> In n names) /\
  IsValidPrimitiveType "timetz" = false /\
  IsValidPrimitiveType "datetz" = false /\
  IsValidPrimitiveType "datetimetz" = false /\
  map Type'
    (Errors (validateType NewTypeRegistry
               (PrimitiveType (mkBaseNode (mkPosition "a.tg" 2 10)) "datetimetz")
               "a.tg" 2 3 NewValidationResult))
  = [InvalidPrimitiveError].
Proof.
  split.
  - intros (names & Hnd & Hlen & Hiff).
    assert (Hincl : incl names primitiveNames).
    { intros n Hn. apply IsValidPrimitiveType_spec, Hiff, Hn. }
    pose proof (List.NoDup_incl_length Hnd Hincl) as Hle.
    rewrite Hlen in Hle. simpl in Hle. lia.
  - repeat split; vm_compute; reflexivity.
Qed.

(** C4: validating a map type adds, before what validating its key and its
    value as types adds, one [InvalidMapKeyError] exactly when the key is
    not a primitive named in [ValidMapKeyTypes] (string and the eight
    integer widths); bool, the floats, json and the date/time names are
    rejected, string and every integer width are accepted, and validating
    a primitive key as a type never adds an [InvalidMapKeyError]. *)
Theorem map_key_rejected_iff_not_in_subset
    (r : TypeRegistry) (b : BaseNode) (keyType valueType : Type_)
    (filename : string) (line column : Z) (res : ValidationResult) :
  Errors (validateType r (MapType b keyType valueType) filename line column res) =
    (Errors res
       ++ (if mapKeyAccepted keyType then []
           else [mkValidationError InvalidMapKeyError (mapKeyMessage keyType)
                   filename line column
                   "use string or integer types for map keys"])
       ++ typeErrors r keyType filename line column
       ++ typeErrors r valueType filename line column)%list /\
  (mapKeyAccepted keyType = true <->
     exists bk name, keyType = PrimitiveType bk name /\ In name mapKeyNames) /\
  mapKeyNames = ["string"; "int8"; "int16"; "int32"; "int64";
                 "nat8"; "nat16"; "nat32"; "nat64"] /\
  Forall (fun name => mapKeyAccepted (PrimitiveType b name) = false)
    ["bool"; "float32"; "float64"; "json"; "datetime"; "date"; "time";
     "timetz"; "datetz"; "datetimetz"] /\
  (forall bk name,
     errorsOfType InvalidMapKeyError
       (typeErrors r (PrimitiveType bk name) filename line column) = []).
Proof.
  split; [|split; [|split; [|split]]].
  - rewrite validateType_Errors, typeErrors_Map. reflexivity.
  - split.
    + destruct keyType; simpl; try discriminate.
      intros Hk. eexists _, _. split; [reflexivity|].
      by apply IsValidMapKeyType_spec.
    + intros (bk & name & -> & Hin). simpl. by apply IsValidMapKeyType_spec.
  - reflexivity.
  - repeat constructor.
  - intros bk name. rewrite typeErrors_Primitive.
    destruct (IsValidPrimitiveType name); reflexivity.
Qed.

(** C5: whatever [T] is, validating [??T] adds an [InvalidOptionalError],
    ahead of what validating the inner [?T] adds, and the result is not
    valid. *)
Theorem double_optional_rejected
    (r : TypeRegistry) (b1 b2 : BaseNode) (T : Type_)
    (filename : string) (line column : Z) (res : ValidationResult) :
  Errors (validateType r (OptionalType b1 (OptionalType b2 T))
            filename line column res) =
    (Errors res
       ++ mkValidationError InvalidOptionalError
            "double-wrapped optional types are not allowed"
            filename line column "use single optional marker ?Type"
       :: typeErrors r (OptionalType b2 T) filename line column)%list /\
  Valid (validateType r (OptionalType b1 (OptionalType b2 T))
           filename line column res) = false.
Proof.
  rewrite validateType_Logs, typeErrors_Optional. simpl. split; reflexivity.
Qed.

(** ** Resolution of names *)

Lemma length_append (a b : string) :
  String.length (a +:+ b) = (String.length a + String.length b)%nat.
Proof. induction a as [| c a IH]; simpl; [reflexivity | by rewrite IH]. Qed.

Lemma sliceFrom_append (a b : string) : sliceFrom (String.length a) (a +:+ b) = b.
Proof. induction a as [| c a IH]; simpl; [by destruct b | exact IH]. Qed.

Lemma HasSuffix_append (a b : string) : HasSuffix (a +:+ b) b = true.
Proof.
  unfold HasSuffix. rewrite length_append.
  replace (String.length a + String.length b - String.length b)%nat
    with (String.length a) by lia.
  rewrite sliceFrom_append, String.eqb_refl, andb_true_r.
  apply Nat.leb_le. lia.
Qed.

Lemma HasSuffix_qualifyName name file :
  HasSuffix (qualifyName name file) ("::" +:+ name) = true.
Proof. unfold qualifyName. apply HasSuffix_append. Qed.

Lemma gomap_lookup_Some_In {V} (k : string) (m : GoMap V) :
  (exists v, gomap_lookup k m = Some v) <-> In k (gomap_keys m).
Proof.
  induction m as [| [k' v'] m IH]; simpl.
  - split; [intros [v Hv]; discriminate | intros []].
  - destruct (String.eqb k' k) eqn:E.
    + apply String.eqb_eq in E. split; [intros _; by left | intros _; by eexists].
    + apply String.eqb_neq in E. rewrite IH. split; [by right | intros [?|?]; [done|done]].
Qed.

Lemma gomap_lookup_In {V} (k : string) (v : V) (m : GoMap V) :
  gomap_lookup k m = Some v -> In (k, v) m.
Proof.
  induction m as [| [k' v'] m IH]; simpl; [discriminate|].
  destruct (String.eqb k' k) eqn:E.
  - apply String.eqb_eq in E. intros [= ->]. left. by subst.
  - intros Hl. right. by apply IH.
Qed.

(** The [range] loop of [TypeExists]. *)
Lemma TypeExists_range name (keys : list string) :
  (fix range (keys : list string) : bool :=
     match keys with
     | [] => false
     | qualName :: rest =>
         if HasSuffix qualName ("::" +:+ name) then true else range rest
     end) keys = true
  <-> exists k, In k keys /\ HasSuffix k ("::" +:+ name) = true.
Proof.
  induction keys as [| k keys IH].
  - split; [discriminate | intros (k & [] & _)].
  - destruct (HasSuffix k ("::" +:+ name)) eqn:E.
    + split; [intros _; exists k; split; [by left | done] | done].
    + rewrite IH. split.
      * intros (k' & Hin & Hs). exists k'. split; [by right | done].
      * intros (k' & [<- | Hin] & Hs); [congruence | by exists k'].
Qed.

Lemma TypeExists_true_iff (r : TypeRegistry) (name currentFile : string) :
  TypeExists r name currentFile = true <->
  IsValidPrimitiveType name = true
  \/ In (qualifyName name currentFile) (gomap_keys (types r))
  \/ exists k, In k (gomap_keys (types r)) /\ HasSuffix k ("::" +:+ name) = true.
Proof.
  unfold TypeExists.
  destruct (IsValidPrimitiveType name); [split; [by left | done]|].
  destruct (gomap_lookup (qualifyName name currentFile) (types r)) as [info|] eqn:E.
  - split; [intros _ | done]. right. left. apply gomap_lookup_Some_In. eauto.
  - rewrite TypeExists_range. split.
    + intros Hk. right. by right.
    + intros [Hp | [Hq | Hk]]; [discriminate | | done].
      apply gomap_lookup_Some_In in Hq as [v Hv]. congruence.
Qed.

(** ** The walk over the module tree *)

Lemma Module_induction (P : Module_ -> Prop) :
  (forall path name files subs,
     Forall (fun sub => P (snd sub)) subs -> P (mkModule path name files subs)) ->
  forall module, P module.
Proof.
  intros Hstep. fix IH 1. intros [path name files subs]. apply Hstep.
  induction subs as [| [n sub] subs IHsubs]; constructor; [apply IH | exact IHsubs].
Qed.

Lemma fold_registerFile_joined basePath files registry :
  fold_left (registerFile basePath) files registry =
  fold_left (registerFile "")
    (map (fun entry => (joinPath basePath (fst entry), snd entry)) files) registry.
Proof.
  revert registry. induction files as [| e files IH]; intros registry; simpl;
    [reflexivity | apply IH].
Qed.

Lemma processModuleForRegistry_files module :
  forall basePath registry,
    processModuleForRegistry module basePath registry =
    fold_left (registerFile "") (moduleFiles module basePath) registry.
Proof.
  induction module as [path name files subs IH] using Module_induction.
  intros basePath registry. simpl.
  rewrite fold_left_app, <- fold_registerFile_joined.
  generalize (fold_left (registerFile basePath) files registry) as reg.
  induction IH as [| [n sub] subs Hsub _ IHsubs]; intros reg; simpl; [reflexivity|].
  rewrite fold_left_app, <- Hsub. apply IHsubs.
Qed.

Lemma gomap_store_keys {V} (k k' : string) (v : V) (m : GoMap V) :
  In k (gomap_keys (gomap_store k' v m)) <-> k = k' \/ In k (gomap_keys m).
Proof.
  induction m as [| [k0 v0] m IH]; simpl.
  - split; [intros [<-|[]]; by left | intros [->|[]]; by left].
  - destruct (String.eqb k0 k') eqn:E; simpl.
    + apply String.eqb_eq in E. subst k0. split; [intros [<-|?]|intros [->|[?|?]]]; auto.
    + rewrite IH. split; [intros [?|[?|?]] | intros [?|[?|?]]]; auto.
Qed.

Lemma RegisterType_keys r name declType file line column k :
  In k (gomap_keys (types (RegisterType r name declType file line column)))
  <-> k = qualifyName name file \/ In k (gomap_keys (types r)).
Proof. unfold RegisterType. simpl. apply gomap_store_keys. Qed.

Lemma AddDependency_keys r fromType toType file k :
  In k (gomap_keys (types (AddDependency r fromType toType file)))
  <-> In k (gomap_keys (types r)).
Proof.
  unfold AddDependency.
  destruct (gomap_lookup (qualifyName fromType file) (types r)) as [info|] eqn:E;
    [|reflexivity].
  simpl. rewrite gomap_store_keys. split; [intros [->|?]; [|done] | by right].
  apply gomap_lookup_Some_In. eauto.
Qed.

Lemma addTypeDependencies_keys typeNode :
  forall r fromType file k,
    In k (gomap_keys (types (addTypeDependencies r fromType typeNode file)))
    <-> In k (gomap_keys (types r)).
Proof.
  induction typeNode as [b n | b n | b e IHe | b kt IHk v IHv | b e IHe];
    intros r fromType file k; simpl.
  - reflexivity.
  - apply AddDependency_keys.
  - apply IHe.
  - rewrite IHv. apply IHk.
  - apply IHe.
Qed.

Lemma fold_fields_keys fields name fullPath k :
  forall reg,
    In k (gomap_keys (types
      (fold_left
         (fun reg field => addTypeDependencies reg name (field_Type field) fullPath)
         fields reg)))
    <-> In k (gomap_keys (types reg)).
Proof.
  induction fields as [| f fields IH]; intros reg; simpl; [reflexivity|].
  rewrite IH. apply addTypeDependencies_keys.
Qed.

Lemma fold_variants_keys variants name fullPath k :
  forall reg,
    In k (gomap_keys (types
      (fold_left
         (fun reg variant =>
            match variant_Payload variant with
            | Some payload => addTypeDependencies reg name payload fullPath
            | None => reg
            end)
         variants reg)))
    <-> In k (gomap_keys (types reg)).
Proof.
  induction variants as [| v variants IH]; intros reg; simpl; [reflexivity|].
  rewrite IH. destruct (variant_Payload v); [apply addTypeDependencies_keys | reflexivity].
Qed.

Lemma registerDeclaration_keys r fullPath decl k :
  In k (gomap_keys (types (registerDeclaration r fullPath decl)))
  <-> k = qualifyName (decl_Name decl) fullPath \/ In k (gomap_keys (types r)).
Proof.
  destruct decl as [b name fields | b name variants | b name t | b name value];
    unfold registerDeclaration, decl_Name.
  - rewrite fold_fields_keys. apply RegisterType_keys.
  - rewrite fold_variants_keys. apply RegisterType_keys.
  - rewrite addTypeDependencies_keys. apply RegisterType_keys.
  - apply RegisterType_keys.
Qed.

Lemma fold_registerDeclaration_keys decls path k :
  forall reg,
    In k (gomap_keys (types
      (fold_left (fun reg decl => registerDeclaration reg path decl) decls reg)))
    <-> (exists decl, In decl decls /\ k = qualifyName (decl_Name decl) path)
        \/ In k (gomap_keys (types reg)).
Proof.
  induction decls as [| d ds IH]; intros reg; simpl.
  - split; [intros ?; by right | intros [(d & [] & _) | ?]; done].
  - rewrite IH, registerDeclaration_keys. split.
    + intros [(d' & Hin & ->) | [-> | Hk]];
        [left; exists d'; auto | left; exists d; auto | by right].
    + intros [(d' & [<- | Hin] & ->) | Hk];
        [right; by left | left; exists d'; auto | right; by right].
Qed.

Lemma registerFile_keys r path program k :
  In k (gomap_keys (types (registerFile "" r (path, program))))
  <-> (exists decl, In decl (Declarations program)
                    /\ k = qualifyName (decl_Name decl) path)
      \/ In k (gomap_keys (types r)).
Proof.
  unfold registerFile. rewrite fold_registerDeclaration_keys. reflexivity.
Qed.

Lemma buildTypeRegistry_keys module k :
  In k (gomap_keys (types (buildTypeRegistry module)))
  <-> exists path program decl,
        In (path, program) (moduleFiles module "")
        /\ In decl (Declarations program)
        /\ k = qualifyName (decl_Name decl) path.
Proof.
  unfold buildTypeRegistry. rewrite processModuleForRegistry_files.
  assert (Hgen : forall files reg,
    In k (gomap_keys (types (fold_left (registerFile "") files reg)))
    <-> (exists path program decl,
           In (path, program) files /\ In decl (Declarations program)
           /\ k = qualifyName (decl_Name decl) path)
        \/ In k (gomap_keys (types reg))).
  { induction files as [| [p prog] files IH]; intros reg; simpl.
    - split; [intros ?; by right | intros [(? & ? & ? & [] & _) | ?]; done].
    - rewrite IH, registerFile_keys. split.
      + intros [(p' & prog' & d & Hin & Hd & ->) | [(d & Hd & ->) | Hk]].
        * left. exists p', prog', d. auto.
        * left. exists p, prog, d. auto.
        * by right.
      + intros [(p' & prog' & d & [[= <- <-] | Hin] & Hd & ->) | Hk].
        * right. left. exists d. auto.
        * left. exists p', prog', d. auto.
        * right. by right. }
  rewrite Hgen. simpl. split; [intros [?|[]]; done | intros ?; by left].
Qed.

(** The registry is a function of the paths and the declarations alone. *)
Lemma buildTypeRegistry_declarations module module' :
  map (fun entry => (fst entry, Declarations (snd entry))) (moduleFiles module "")
  = map (fun entry => (fst entry, Declarations (snd entry))) (moduleFiles module' "") ->
  buildTypeRegistry module = buildTypeRegistry module'.
Proof.
  unfold buildTypeRegistry. rewrite !processModuleForRegistry_files.
  generalize NewTypeRegistry as reg.
  generalize (moduleFiles module' "") as files'.
  induction (moduleFiles module "") as [| [p prog] files IH];
    intros [| [p' prog'] files'] reg Heq; simpl in Heq; try discriminate;
    [reflexivity|].
  injection Heq as -> Hd Hrest. simpl.
  replace (registerFile "" reg (p', prog')) with (registerFile "" reg (p', prog))
    by (unfold registerFile; simpl; by rewrite Hd).
  by apply IH.
Qed.

(** C3: [TypeExists] answers [true] exactly when the name is a valid
    primitive, or the key [currentFile::name] is registered, or some
    registered key ends in [::name].  So the name of any declaration of any
    file of the module tree resolves from every file, and since the
    registry is built from the paths and the declarations alone, import
    statements have no part in the answer. *)
Theorem TypeExists_iff (r : TypeRegistry) (name currentFile : string) :
  (TypeExists r name currentFile = true <->
     IsValidPrimitiveType name = true
     \/ In (qualifyName name currentFile) (gomap_keys (types r))
     \/ exists k, In k (gomap_keys (types r))
                  /\ HasSuffix k ("::" +:+ name) = true) /\
  (forall module path program decl,
     In (path, program) (moduleFiles module "") ->
     In decl (Declarations program) ->
     TypeExists (buildTypeRegistry module) (decl_Name decl) currentFile = true) /\
  (forall module module',
     map (fun entry => (fst entry, Declarations (snd entry))) (moduleFiles module "")
     = map (fun entry => (fst entry, Declarations (snd entry)))
         (moduleFiles module' "") ->
     TypeExists (buildTypeRegistry module) name currentFile
     = TypeExists (buildTypeRegistry module') name currentFile).
Proof.
  split; [apply TypeExists_true_iff|]. split.
  - intros module path program decl Hfile Hdecl.
    apply TypeExists_true_iff. right. right.
    exists (qualifyName (decl_Name decl) path).
    split; [|apply HasSuffix_qualifyName].
    apply buildTypeRegistry_keys. exists path, program, decl. auto.
  - intros module module' Heq.
    by rewrite (buildTypeRegistry_declarations _ _ Heq).
Qed.

(** The [range] loop of [FindType] returns the record of the first entry,
    in the order of enumeration, whose key ends in [::name]. *)
Lemma FindType_range name (entries : GoMap TypeInfo) :
  (fix range (entries : GoMap TypeInfo) : option TypeInfo :=
     match entries with
     | [] => None
     | (qualName, info) :: rest =>
         if HasSuffix qualName ("::" +:+ name) then Some info else range rest
     end) entries
  = option_map snd
      (List.find (fun entry => HasSuffix (fst entry) ("::" +:+ name)) entries).
Proof.
  induction entries as [| [k info] entries IH]; simpl; [reflexivity|].
  destruct (HasSuffix k ("::" +:+ name)); [reflexivity | exact IH].
Qed.

Lemma FindType_registry r name currentFile :
  TypeExists r name currentFile =
  IsValidPrimitiveType name || bool_decide (is_Some (FindType r name currentFile)).
Proof.
  unfold TypeExists, FindType.
  destruct (IsValidPrimitiveType name); [reflexivity|]. simpl.
  destruct (gomap_lookup (qualifyName name currentFile) (types r)) as [info|].
  - symmetry. apply bool_decide_eq_true. eauto.
  - unfold gomap_keys.
    induction (types r) as [| [k info] entries IH]; simpl; [reflexivity|].
    destruct (HasSuffix k ("::" +:+ name)); [|exact IH].
    symmetry. apply bool_decide_eq_true. eauto.
Qed.

(** C8, as the code has it: [FindType] has no branch for primitives.  It
    returns the record stored under [currentFile::name] when that key is
    registered, and otherwise the record of the first registered key, in
    the order of enumeration, that ends in [::name]; it returns a record
    exactly when one of these two registry branches of [TypeExists] holds,
    so that [TypeExists] is true exactly when the name is a valid primitive
    or [FindType] returns a record. *)
Theorem FindType_registry_branches (r : TypeRegistry) (name currentFile : string) :
  FindType r name currentFile =
    match gomap_lookup (qualifyName name currentFile) (types r) with
    | Some info => Some info
    | None =>
        option_map snd
          (List.find (fun entry => HasSuffix (fst entry) ("::" +:+ name)) (types r))
    end /\
  (is_Some (FindType r name currentFile) <->
     In (qualifyName name currentFile) (gomap_keys (types r))
     \/ exists k, In k (gomap_keys (types r))
                  /\ HasSuffix k ("::" +:+ name) = true) /\
  TypeExists r name currentFile =
    IsValidPrimitiveType name || bool_decide (is_Some (FindType r name currentFile)).
Proof.
  split; [|split].
  - unfold FindType. rewrite FindType_range. reflexivity.
  - pose proof (FindType_registry r name currentFile) as Hb.
    pose proof (TypeExists_true_iff r name currentFile) as Hiff.
    unfold FindType.
    destruct (gomap_lookup (qualifyName name currentFile) (types r)) as [info|] eqn:E.
    + split; [intros _ | eauto]. left. apply gomap_lookup_Some_In. eauto.
    + rewrite FindType_range. split.
      * intros [info Hfind].
        destruct (List.find _ (types r)) as [[k i]|] eqn:Ef; [|discriminate].
        apply List.find_some in Ef as [Hin Hs]. right. exists k. split; [|exact Hs].
        unfold gomap_keys. apply in_map_iff. exists (k, i). auto.
      * intros [Hq | (k & Hk & Hs)].
        { apply gomap_lookup_Some_In in Hq as [v Hv]. congruence. }
        unfold gomap_keys in Hk. apply in_map_iff in Hk as ([k' i] & <- & Hin).
        destruct (List.find (fun entry => HasSuffix entry.1 ("::" +:+ name)) (types r))
          as [[k2 i2]|] eqn:Ef; [eauto|].
        exfalso. pose proof (List.find_none _ _ Ef _ Hin) as Hn. cbn [fst] in Hn, Hs. congruence.
  - apply FindType_registry.
Qed.

(** C8, as stated, fails: for a primitive name [TypeExists] answers [true]
    on its first branch while [FindType] returns no record. *)
Lemma FindType_primitive_refuted :
  TypeExists NewTypeRegistry "string" "a.tg" = true /\
  FindType NewTypeRegistry "string" "a.tg" = None.
Proof. split; vm_compute; reflexivity. Qed.

(** ** Which kinds of error a method can add *)

Lemma LogsOnly_id kinds : LogsOnly kinds (fun res => res).
Proof. exists []. split; [apply Logs_id | constructor]. Qed.

Lemma LogsOnly_AddError kinds ty m f l c sg :
  In ty kinds -> LogsOnly kinds (fun res => AddError res ty m f l c sg).
Proof. intros Hin. eexists. split; [apply Logs_AddError | by repeat constructor]. Qed.

Lemma LogsOnly_comp kinds f g :
  LogsOnly kinds f -> LogsOnly kinds g -> LogsOnly kinds (fun res => g (f res)).
Proof.
  intros (e1 & H1 & F1) (e2 & H2 & F2). exists (e1 ++ e2)%list.
  split; [by apply Logs_comp | by apply Forall_app].
Qed.

Lemma LogsOnly_ext kinds f g :
  (forall res, f res = g res) -> LogsOnly kinds f -> LogsOnly kinds g.
Proof. intros Heq (e & Hl & Hf). exists e. split; [|done]. intros res. by rewrite <- Heq. Qed.

Lemma LogsOnly_incl kinds kinds' f :
  incl kinds kinds' -> LogsOnly kinds f -> LogsOnly kinds' f.
Proof.
  intros Hi (e & Hl & Hf). exists e. split; [done|].
  eapply Forall_impl; [exact Hf|]. intros x Hx. by apply Hi.
Qed.

Lemma LogsOnly_fold {A} kinds (f : A -> ValidationResult -> ValidationResult)
    (items : list A) :
  (forall a, LogsOnly kinds (f a)) ->
  LogsOnly kinds (fun res => fold_left (fun res a => f a res) items res).
Proof.
  intros Hf. induction items as [| a items IH]; simpl; [apply LogsOnly_id|].
  apply (LogsOnly_comp kinds (f a) _ (Hf a) IH).
Qed.

Lemma LogsOnly_Silent kinds ty f : ~ In ty kinds -> LogsOnly kinds f -> Silent ty f.
Proof.
  intros Hn (e & Hl & Hf). exists e. split; [done|]. clear Hl.
  unfold errorsOfType. induction Hf as [| x e Hx _ IH]; simpl; [reflexivity|].
  destruct (bool_decide (Type' x = ty)) eqn:E; [|exact IH].
  apply bool_decide_eq_true in E. subst ty. contradiction.
Qed.

Lemma Silent_errors ty f res :
  Silent ty f -> errorsOfType ty (Errors (f res)) = errorsOfType ty (Errors res).
Proof.
  intros (e & Hl & He). rewrite Hl. simpl.
  by rewrite errorsOfType_app, He, app_nil_r.
Qed.

Ltac kind_in := simpl; tauto.
Ltac kind_incl := intros ? ?; simpl in *; tauto.

Lemma validateType_kinds r typeNode filename line column :
  LogsOnly typeKinds (validateType r typeNode filename line column).
Proof.
  induction typeNode as [b n | b n | b e IHe | b k IHk v IHv | b e IHe]; simpl.
  - unfold validatePrimitiveType. destruct (negb (IsValidPrimitiveType n));
      [apply LogsOnly_AddError; kind_in | apply LogsOnly_id].
  - unfold validateNamedType. destruct (negb (TypeExists r n filename));
      [apply LogsOnly_AddError; kind_in | apply LogsOnly_id].
  - exact IHe.
  - apply (LogsOnly_comp _ (fun res => validateType r k filename line column
                                        (checkMapKey k filename line column res)));
      [|exact IHv].
    apply (LogsOnly_comp _ (checkMapKey k filename line column)); [|exact IHk].
    unfold checkMapKey. destruct k; try (apply LogsOnly_AddError; kind_in).
    destruct (negb (IsValidMapKeyType Name0));
      [apply LogsOnly_AddError; kind_in | apply LogsOnly_id].
  - apply (LogsOnly_comp _ (checkDoubleOptional e filename line column)); [|exact IHe].
    unfold checkDoubleOptional. destruct e; try apply LogsOnly_id.
    apply LogsOnly_AddError; kind_in.
Qed.

(** ** The loops over fields, variants and declarations *)

Section DuplicateLoop.
Context {A : Type} (name : A -> string).
Context (pre post : A -> ValidationResult -> ValidationResult).
Context (dup : A -> A -> ValidationResult -> ValidationResult).
Context (report : A -> A -> ValidationError).

Lemma remember_lookup items :
  forall seen k,
    fold_left (remember name) items seen !! k =
    match seen !! k with
    | Some x => Some x
    | None => List.find (fun a => String.eqb (name a) k) items
    end.
Proof.
  induction items as [| a items IH]; intros seen k; simpl.
  - by destruct (seen !! k).
  - rewrite IH. unfold remember.
    destruct (seen !! name a) as [x|] eqn:Ea.
    + destruct (seen !! k) as [y|] eqn:Ek; [reflexivity|].
      destruct (String.eqb (name a) k) eqn:E; [|reflexivity].
      apply String.eqb_eq in E. congruence.
    + destruct (String.eqb (name a) k) eqn:E.
      * apply String.eqb_eq in E. subst k. by rewrite lookup_insert_eq, Ea.
      * apply String.eqb_neq in E. by rewrite lookup_insert_ne.
Qed.

Lemma duplicateReports_app items1 items2 seen :
  duplicateReports name report (items1 ++ items2) seen =
  (duplicateReports name report items1 seen
     ++ duplicateReports name report items2 (fold_left (remember name) items1 seen))%list.
Proof.
  revert seen. induction items1 as [| a items1 IH]; intros seen; simpl; [reflexivity|].
  by rewrite IH, app_assoc.
Qed.

Lemma duplicateReports_fresh items :
  forall seen,
    List.NoDup (map name items) ->
    (forall a, In a items -> seen !! name a = None) ->
    duplicateReports name report items seen = [].
Proof.
  induction items as [| a items IH]; intros seen Hnd Hfresh; simpl; [reflexivity|].
  inversion Hnd as [| ? ? Hnotin Hnd']; subst.
  rewrite (Hfresh a (or_introl eq_refl)). simpl. apply IH; [exact Hnd'|].
  intros a' Hin. unfold remember. rewrite (Hfresh a (or_introl eq_refl)).
  rewrite lookup_insert_ne; [apply Hfresh; by right|].
  intros Heq. apply Hnotin. rewrite Heq. by apply in_map.
Qed.

Lemma find_name_None items k :
  ~ In k (map name items) -> List.find (fun a => String.eqb (name a) k) items = None.
Proof.
  induction items as [| a items IH]; simpl; [reflexivity|]. intros Hn.
  destruct (String.eqb (name a) k) eqn:E.
  - apply String.eqb_eq in E. exfalso. apply Hn. by left.
  - apply IH. intros Hin. apply Hn. by right.
Qed.

Lemma find_name_first items1 a items2 :
  ~ In (name a) (map name items1) ->
  List.find (fun x => String.eqb (name x) (name a)) (items1 ++ a :: items2) = Some a.
Proof.
  induction items1 as [| x items1 IH]; simpl; intros Hn.
  - by rewrite String.eqb_refl.
  - destruct (String.eqb (name x) (name a)) eqn:E.
    + apply String.eqb_eq in E. exfalso. apply Hn. by left.
    + apply IH. intros Hin. apply Hn. by right.
Qed.

(** A name declared twice, all other names being distinct: one report, for
    the second item, citing the first. *)
Lemma duplicateReports_pair items1 a1 items2 a2 items3 :
  name a1 = name a2 ->
  List.NoDup (map name (items1 ++ a1 :: items2 ++ items3)) ->
  duplicateReports name report (items1 ++ a1 :: items2 ++ a2 :: items3) ∅ = [report a2 a1].
Proof.
  intros Hname Hnd.
  replace (items1 ++ a1 :: items2 ++ a2 :: items3)%list
    with ((items1 ++ a1 :: items2) ++ [a2] ++ items3)%list
    by (rewrite <- !app_assoc; reflexivity).
  assert (Hnd1 : List.NoDup (map name (items1 ++ a1 :: items2))).
  { replace (items1 ++ a1 :: items2 ++ items3)%list
      with ((items1 ++ a1 :: items2) ++ items3)%list in Hnd
      by (rewrite <- !app_assoc; reflexivity).
    rewrite map_app in Hnd. by apply List.NoDup_app_remove_r in Hnd. }
  assert (Hfirst : ~ In (name a1) (map name items1)).
  { rewrite map_app in Hnd1. simpl in Hnd1.
    apply List.NoDup_remove_2 in Hnd1. intros Hin. apply Hnd1.
    apply in_or_app. by left. }
  rewrite (duplicateReports_app (items1 ++ a1 :: items2) ([a2] ++ items3)).
  rewrite (duplicateReports_fresh (items1 ++ a1 :: items2));
    [|exact Hnd1|intros; apply lookup_empty].
  change ([a2] ++ items3)%list with (a2 :: items3). cbn [duplicateReports app].
  rewrite remember_lookup, lookup_empty, <- Hname.
  rewrite (find_name_first _ _ _ Hfirst). simpl.
  rewrite duplicateReports_fresh; [reflexivity| |].
  - replace (items1 ++ a1 :: items2 ++ items3)%list
      with ((items1 ++ a1 :: items2) ++ items3)%list in Hnd
      by (rewrite <- !app_assoc; reflexivity).
    rewrite map_app in Hnd. by apply List.NoDup_app_remove_l in Hnd.
  - intros a Hin. unfold remember at 1.
    rewrite remember_lookup, lookup_empty, <- Hname, (find_name_first _ _ _ Hfirst).
    rewrite remember_lookup, lookup_empty. apply find_name_None.
    replace (items1 ++ a1 :: items2 ++ items3)%list
      with ((items1 ++ a1 :: items2) ++ items3)%list in Hnd
      by (rewrite <- !app_assoc; reflexivity).
    rewrite map_app in Hnd. intros Hin1.
    apply NoDup_ListNoDup, NoDup_app in Hnd as (_ & Hdisj & _).
    apply (Hdisj (name a)); apply list_elem_of_In; [exact Hin1 | by apply in_map].
Qed.

Lemma dupLoop_kinds (kinds : list ValidationErrorType) :
  (forall a, LogsOnly kinds (pre a)) ->
  (forall a, LogsOnly kinds (post a)) ->
  (forall a existing, LogsOnly kinds (dup a existing)) ->
  forall items seen,
    LogsOnly kinds
      (fun res => snd (fold_left (fun st a => dupStep name pre post dup a st) items (seen, res))).
Proof.
  intros Hpre Hpost Hdup.
  induction items as [| a items IH]; intros seen; simpl; [apply LogsOnly_id|].
  destruct (seen !! name a) as [existing|] eqn:Ea.
  - apply (LogsOnly_comp kinds
             (fun res => post a (dup a existing (pre a res)))
             (fun res => snd (fold_left (fun st a => dupStep name pre post dup a st) items (seen, res))));
      [|apply IH].
    apply (LogsOnly_comp kinds (fun res => dup a existing (pre a res)) (post a));
      [|apply Hpost].
    apply (LogsOnly_comp kinds (pre a) (dup a existing)); [apply Hpre | apply Hdup].
  - apply (LogsOnly_comp kinds (fun res => post a (pre a res))
             (fun res => snd (fold_left (fun st a => dupStep name pre post dup a st) items
                                (<[name a := a]> seen, res))));
      [|apply IH].
    apply (LogsOnly_comp kinds (pre a) (post a)); [apply Hpre | apply Hpost].
Qed.

Context (ty : ValidationErrorType).
Hypothesis pre_silent : forall a, Silent ty (pre a).
Hypothesis post_silent : forall a, Silent ty (post a).
Hypothesis dup_reports : forall a existing, Logs (dup a existing) [report a existing].
Hypothesis report_kind : forall a existing, Type' (report a existing) = ty.

Lemma dupLoop_reports :
  forall items seen,
    exists errs,
      (forall res,
         fold_left (fun st a => dupStep name pre post dup a st) items (seen, res)
         = (fold_left (remember name) items seen, appendErrors res errs))
      /\ errorsOfType ty errs = duplicateReports name report items seen.
Proof.
  induction items as [| a items IH]; intros seen; simpl.
  - exists []. split; [intros res; by rewrite appendErrors_nil | reflexivity].
  - destruct (pre_silent a) as (e1 & Hl1 & He1).
    destruct (post_silent a) as (e3 & Hl3 & He3).
    destruct (IH (remember name seen a)) as (errs & Hfold & Herrs).
    unfold remember in *. destruct (seen !! name a) as [existing|] eqn:Ea.
    + exists (e1 ++ [report a existing] ++ e3 ++ errs)%list. split.
      * intros res. rewrite Hl1, dup_reports, Hl3, Hfold, !appendErrors_app.
        rewrite <- ?app_assoc. reflexivity.
      * rewrite !errorsOfType_app, He1, He3, Herrs. simpl.
        rewrite bool_decide_eq_true_2; [reflexivity | apply report_kind].
    + exists (e1 ++ e3 ++ errs)%list. split.
      * intros res. rewrite Hl1, Hl3, Hfold, !appendErrors_app.
        rewrite <- ?app_assoc. reflexivity.
      * by rewrite !errorsOfType_app, He1, He3, Herrs.
Qed.

End DuplicateLoop.

(** ** Duplicate names *)

Section DuplicateNames.
Context `{CaseConversion}.

Lemma namingCheck_kinds (bad : bool) m f l c sg :
  LogsOnly [NamingConventionError]
    (fun res => if bad then AddError res NamingConventionError m f l c sg else res).
Proof.
  destruct bad; [apply LogsOnly_AddError; kind_in | apply LogsOnly_id].
Qed.

Lemma validateField_dupStep r filename field st :
  validateField r field filename st =
  dupStep field_Name (fieldNameCheck filename) (fieldTypeCheck r filename)
    (fieldDuplicate filename) field st.
Proof.
  destruct st as [seen res]. unfold validateField, dupStep.
  destruct (seen !! field_Name field); reflexivity.
Qed.

Lemma validateEnumVariant_dupStep r filename variant st :
  validateEnumVariant r variant filename st =
  dupStep variant_Name (variantNameCheck filename) (variantPayloadCheck r filename)
    (variantDuplicate filename) variant st.
Proof.
  destruct st as [seen res]. unfold validateEnumVariant, dupStep.
  destruct (seen !! variant_Name variant); reflexivity.
Qed.

Lemma fold_left_ext {A B} (f g : A -> B -> A) (items : list B) (a : A) :
  (forall a b, f a b = g a b) -> fold_left f items a = fold_left g items a.
Proof.
  intros Heq. revert a. induction items as [| b items IH]; intros a; simpl;
    [reflexivity | by rewrite Heq, IH].
Qed.

Lemma variantPayloadCheck_kinds r filename variant :
  LogsOnly typeKinds (variantPayloadCheck r filename variant).
Proof.
  unfold variantPayloadCheck.
  destruct (variant_Payload variant); [apply validateType_kinds | apply LogsOnly_id].
Qed.

(** The duplicate-field errors of a struct are the reports of its loop. *)
Lemma validateStruct_duplicates r b name fields filename res :
  errorsOfType DuplicateFieldError
    (Errors (validateStruct r b name fields filename res)) =
  (errorsOfType DuplicateFieldError (Errors res)
     ++ duplicateReports field_Name (duplicateFieldReport filename) fields ∅)%list.
Proof.
  unfold validateStruct.
  rewrite (fold_left_ext _ _ _ _ (fun st f => validateField_dupStep r filename f st)).
  destruct (dupLoop_reports field_Name (fieldNameCheck filename)
              (fieldTypeCheck r filename) (fieldDuplicate filename)
              (duplicateFieldReport filename) DuplicateFieldError)
    with (items := fields) (seen := (∅ : gmap string FieldNode))
    as (errs & Hfold & Herrs).
  - intros a. apply (LogsOnly_Silent [NamingConventionError]);
      [simpl; intuition discriminate | apply namingCheck_kinds].
  - intros a. apply (LogsOnly_Silent typeKinds);
      [simpl; intuition discriminate | apply validateType_kinds].
  - intros a existing res'. reflexivity.
  - reflexivity.
  - rewrite Hfold. simpl. rewrite errorsOfType_app, Herrs.
    f_equal. destruct (negb (IsValidPascalCase name)); [|reflexivity].
    simpl. rewrite errorsOfType_app. simpl. by rewrite app_nil_r.
Qed.

Lemma validateEnum_duplicates r b name variants filename res :
  errorsOfType DuplicateVariantError
    (Errors (validateEnum r b name variants filename res)) =
  (errorsOfType DuplicateVariantError (Errors res)
     ++ duplicateReports variant_Name (duplicateVariantReport filename) variants ∅)%list.
Proof.
  unfold validateEnum.
  rewrite (fold_left_ext _ _ _ _
             (fun st v => validateEnumVariant_dupStep r filename v st)).
  destruct (dupLoop_reports variant_Name (variantNameCheck filename)
              (variantPayloadCheck r filename) (variantDuplicate filename)
              (duplicateVariantReport filename) DuplicateVariantError)
    with (items := variants) (seen := (∅ : gmap string EnumVariantNode))
    as (errs & Hfold & Herrs).
  - intros a. apply (LogsOnly_Silent [NamingConventionError]);
      [simpl; intuition discriminate | apply namingCheck_kinds].
  - intros a. apply (LogsOnly_Silent typeKinds);
      [simpl; intuition discriminate | apply variantPayloadCheck_kinds].
  - intros a existing res'. reflexivity.
  - reflexivity.
  - rewrite Hfold. simpl. rewrite errorsOfType_app, Herrs.
    f_equal. destruct (negb (IsValidPascalCase name)); [|reflexivity].
    simpl. rewrite errorsOfType_app. simpl. by rewrite app_nil_r.
Qed.

Lemma LogsOnly_after kinds (g : ValidationResult -> ValidationResult)
    (bad : bool) m f l c sg :
  LogsOnly kinds g ->
  In NamingConventionError kinds ->
  LogsOnly kinds
    (fun res => g (if bad then AddError res NamingConventionError m f l c sg else res)).
Proof.
  intros Hg Hin.
  apply (LogsOnly_comp kinds
           (fun res => if bad then AddError res NamingConventionError m f l c sg else res)
           g); [|exact Hg].
  eapply LogsOnly_incl; [|apply namingCheck_kinds].
  intros ty [<- | []]. exact Hin.
Qed.

Lemma validateStruct_kinds r b name fields filename :
  LogsOnly declKinds (validateStruct r b name fields filename).
Proof.
  unfold validateStruct.
  apply (LogsOnly_after declKinds
           (fun res => snd (fold_left _ fields (∅, res)))); [|kind_in].
  eapply LogsOnly_ext.
  { intros res. symmetry.
    apply (f_equal snd
             (fold_left_ext _ _ _ _
                (fun st f => validateField_dupStep r filename f st))). }
  apply dupLoop_kinds.
  - intros a. eapply LogsOnly_incl; [|apply namingCheck_kinds]. kind_incl.
  - intros a. eapply LogsOnly_incl; [|apply validateType_kinds]. kind_incl.
  - intros a existing. apply LogsOnly_AddError. kind_in.
Qed.

Lemma validateEnum_kinds r b name variants filename :
  LogsOnly declKinds (validateEnum r b name variants filename).
Proof.
  unfold validateEnum.
  apply (LogsOnly_after declKinds
           (fun res => snd (fold_left _ variants (∅, res)))); [|kind_in].
  eapply LogsOnly_ext.
  { intros res. symmetry.
    apply (f_equal snd
             (fold_left_ext _ _ _ _
                (fun st v => validateEnumVariant_dupStep r filename v st))). }
  apply dupLoop_kinds.
  - intros a. eapply LogsOnly_incl; [|apply namingCheck_kinds]. kind_incl.
  - intros a. eapply LogsOnly_incl; [|apply variantPayloadCheck_kinds]. kind_incl.
  - intros a existing. apply LogsOnly_AddError. kind_in.
Qed.

Lemma validateTypeAlias_kinds r b name t filename :
  LogsOnly declKinds (validateTypeAlias r b name t filename).
Proof.
  unfold validateTypeAlias.
  apply (LogsOnly_after declKinds (validateType r t filename _ _)); [|kind_in].
  eapply LogsOnly_incl; [|apply validateType_kinds]. kind_incl.
Qed.

Lemma validateConstant_kinds b name value filename :
  LogsOnly declKinds (validateConstant b name value filename).
Proof.
  unfold validateConstant. destruct value.
  - apply (LogsOnly_after declKinds (fun res => res)); [apply LogsOnly_id | kind_in].
  - apply (LogsOnly_after declKinds
             (fun res => AddError res InvalidConstantError _ _ _ _ _)); [|kind_in].
    apply LogsOnly_AddError. kind_in.
Qed.

Lemma declCheck_kinds r filename decl : LogsOnly declKinds (declCheck r filename decl).
Proof.
  destruct decl; simpl;
    [apply validateStruct_kinds | apply validateEnum_kinds
     | apply validateTypeAlias_kinds | apply validateConstant_kinds].
Qed.

Lemma validateDeclaration_dupStep r filename decl st :
  validateDeclaration r decl filename st =
  dupStep decl_Name (declCheck r filename) (fun _ res => res)
    (declDuplicate filename) decl st.
Proof.
  destruct st as [seen res]. unfold validateDeclaration, dupStep.
  destruct (seen !! decl_Name decl); destruct decl; reflexivity.
Qed.

Lemma validateImport_kinds imp filename :
  LogsOnly [InvalidImportError] (validateImport imp filename).
Proof.
  unfold validateImport. destruct (negb (IsValidModuleName (import_Path imp)));
    [apply LogsOnly_AddError; kind_in | apply LogsOnly_id].
Qed.

(** The duplicate-type errors of a file are the reports of its loop. *)
Lemma validateProgram_duplicates r program filename :
  exists errs,
    Logs (validateProgram r program filename) errs
    /\ errorsOfType DuplicateTypeError errs = fileDuplicates (filename, program).
Proof.
  unfold validateProgram, fileDuplicates. simpl.
  destruct (LogsOnly_fold [InvalidImportError]
              (fun imp => validateImport imp filename) (Imports program)
              (fun imp => validateImport_kinds imp filename))
    as (e1 & Hl1 & Hk1).
  destruct (dupLoop_reports decl_Name (declCheck r filename) (fun _ res => res)
              (declDuplicate filename) (duplicateTypeReport filename)
              DuplicateTypeError)
    with (items := Declarations program) (seen := (∅ : gmap string Declaration))
    as (errs & Hfold & Herrs).
  - intros a. apply (LogsOnly_Silent declKinds);
      [simpl; intuition discriminate | apply declCheck_kinds].
  - intros a. exists []. split; [apply Logs_id | reflexivity].
  - intros a existing res'. reflexivity.
  - reflexivity.
  - exists (e1 ++ errs)%list. split.
    + intros res.
      rewrite (fold_left_ext _ _ _ _
                 (fun st d => validateDeclaration_dupStep r filename d st)).
      rewrite Hl1, Hfold. simpl. by rewrite appendErrors_app.
    + rewrite errorsOfType_app, Herrs.
      destruct (LogsOnly_Silent [InvalidImportError] DuplicateTypeError _
                  ltac:(simpl; intuition discriminate)
                  (ex_intro _ e1 (conj Hl1 Hk1))) as (e1' & Hl1' & He1').
      rewrite (Logs_unique _ _ _ Hl1 Hl1'), He1'. reflexivity.
Qed.

Lemma Reports_comp ty f g d1 d2 :
  Reports ty f d1 -> Reports ty g d2 ->
  Reports ty (fun res => g (f res)) (d1 ++ d2).
Proof.
  intros (e1 & H1 & <-) (e2 & H2 & <-). exists (e1 ++ e2)%list.
  split; [by apply Logs_comp | apply errorsOfType_app].
Qed.

Lemma Reports_Silent ty f : Silent ty f -> Reports ty f [].
Proof. intros Hs. exact Hs. Qed.

Lemma Reports_errors ty f dups res :
  Reports ty f dups ->
  errorsOfType ty (Errors (f res)) = (errorsOfType ty (Errors res) ++ dups)%list.
Proof. intros (e & Hl & <-). rewrite Hl. simpl. apply errorsOfType_app. Qed.

Lemma validateFiles_duplicates r basePath files :
  Reports DuplicateTypeError
    (fun res =>
       fold_left
         (fun res entry =>
            validateProgram r (snd entry) (joinPath basePath (fst entry)) res)
         files res)
    (flat_map fileDuplicates
       (map (fun entry => (joinPath basePath (fst entry), snd entry)) files)).
Proof.
  induction files as [| [n prog] files IH]; simpl.
  - apply Reports_Silent. exists []. split; [apply Logs_id | reflexivity].
  - apply (Reports_comp DuplicateTypeError
             (validateProgram r prog (joinPath basePath n))
             (fun res =>
                fold_left
                  (fun res entry =>
                     validateProgram r (snd entry) (joinPath basePath (fst entry)) res)
                  files res)).
    + apply validateProgram_duplicates.
    + exact IH.
Qed.

Lemma checkSubModuleName_kinds subModuleName basePath :
  LogsOnly [NamingConventionError] (checkSubModuleName subModuleName basePath).
Proof. unfold checkSubModuleName. apply namingCheck_kinds. Qed.

Lemma validateModule_unfold r path name files subs basePath res :
  validateModule r (mkModule path name files subs) basePath res =
  fold_left
    (fun res sub =>
       validateModule r (snd sub) (joinPath basePath (fst sub))
         (checkSubModuleName (fst sub) basePath res))
    subs
    (fold_left
       (fun res entry =>
          validateProgram r (snd entry) (joinPath basePath (fst entry)) res)
       files res).
Proof.
  simpl. generalize (fold_left
       (fun res entry =>
          validateProgram r (snd entry) (joinPath basePath (fst entry)) res)
       files res) as res'.
  induction subs as [| [n sub] subs IH]; intros res'; simpl; [reflexivity | apply IH].
Qed.

Lemma moduleFiles_unfold path name files subs basePath :
  moduleFiles (mkModule path name files subs) basePath =
  (map (fun entry => (joinPath basePath (fst entry), snd entry)) files
   ++ flat_map (fun sub => moduleFiles (snd sub) (joinPath basePath (fst sub))) subs)%list.
Proof.
  simpl. f_equal. induction subs as [| [n sub] subs IH]; simpl;
    [reflexivity | by rewrite IH].
Qed.

(** The duplicate-type errors of a walk are those of its files, file by
    file: the names seen are forgotten from one file to the next. *)
Lemma validateModule_duplicates r module :
  forall basePath,
    Reports DuplicateTypeError (validateModule r module basePath)
      (flat_map fileDuplicates (moduleFiles module basePath)).
Proof.
  induction module as [path name files subs IH] using Module_induction.
  intros basePath. rewrite moduleFiles_unfold, flat_map_app.
  destruct (validateFiles_duplicates r basePath files) as (e1 & Hl1 & He1).
  assert (Hsubs : Reports DuplicateTypeError
            (fun res =>
               fold_left
                 (fun res sub =>
                    validateModule r (snd sub) (joinPath basePath (fst sub))
                      (checkSubModuleName (fst sub) basePath res))
                 subs res)
            (flat_map fileDuplicates
               (flat_map
                  (fun sub => moduleFiles (snd sub) (joinPath basePath (fst sub)))
                  subs))).
  { induction IH as [| [n sub] subs Hsub _ IHsubs]; simpl.
    - exists []. split; [apply Logs_id | reflexivity].
    - rewrite flat_map_app.
      apply (Reports_comp DuplicateTypeError
               (fun res => validateModule r sub (joinPath basePath n)
                             (checkSubModuleName n basePath res))
               (fun res =>
                  fold_left
                    (fun res sub =>
                       validateModule r (snd sub) (joinPath basePath (fst sub))
                         (checkSubModuleName (fst sub) basePath res))
                    subs res));
        [|exact IHsubs].
      apply (Reports_comp DuplicateTypeError (checkSubModuleName n basePath)
               (validateModule r sub (joinPath basePath n)) []); [|apply Hsub].
      apply (LogsOnly_Silent [NamingConventionError]);
        [simpl; intuition discriminate | apply checkSubModuleName_kinds]. }
  destruct Hsubs as (e2 & Hl2 & He2).
  exists (e1 ++ e2)%list. split.
  - intros res. rewrite validateModule_unfold, Hl1, Hl2. apply appendErrors_app.
  - by rewrite errorsOfType_app, He1, He2.
Qed.

Lemma reportCycle_kinds cycle :
  LogsOnly [CircularDependencyError] (fun res => reportCycle res cycle).
Proof.
  unfold reportCycle. destruct (Split cycle " -> ") as [| firstType rest];
    [apply LogsOnly_id|].
  destruct (Split firstType "::") as [| file [| x [| y l]]]; try apply LogsOnly_id.
  apply LogsOnly_AddError. kind_in.
Qed.

Lemma validateCircularDependencies_kinds r :
  LogsOnly [CircularDependencyError] (validateCircularDependencies r).
Proof.
  unfold validateCircularDependencies.
  apply (LogsOnly_fold [CircularDependencyError] (fun cycle res => reportCycle res cycle)).
  apply reportCycle_kinds.
Qed.

Lemma Validate_duplicates v module :
  errorsOfType DuplicateTypeError (Errors (snd (Validate v module))) =
  flat_map fileDuplicates (moduleFiles module "").
Proof.
  unfold Validate. simpl.
  rewrite Silent_errors
    by (apply (LogsOnly_Silent [CircularDependencyError]);
        [simpl; intuition discriminate | apply validateCircularDependencies_kinds]).
  rewrite (Reports_errors _ _ _ _ (validateModule_duplicates _ module "")).
  reflexivity.
Qed.

Lemma fileDuplicates_fresh path program :
  List.NoDup (map decl_Name (Declarations program)) ->
  fileDuplicates (path, program) = [].
Proof.
  intros Hnd. unfold fileDuplicates. simpl.
  apply duplicateReports_fresh; [exact Hnd | intros; apply lookup_empty].
Qed.

End DuplicateNames.

(** C7: a field name declared twice in a struct, the other names being
    distinct, yields exactly one [DuplicateFieldError]: it is placed at the
    second field and its message cites the line of the first; likewise a
    variant name declared twice in an enum yields exactly one
    [DuplicateVariantError] at the second variant citing the line of the
    first. *)
Theorem duplicate_member_reported_once `{CaseConversion}
    (r : TypeRegistry) (filename : string) (res : ValidationResult)
    (b : BaseNode) (name : string)
    (fields1 fields2 fields3 : list FieldNode) (f1 f2 : FieldNode)
    (b' : BaseNode) (name' : string)
    (variants1 variants2 variants3 : list EnumVariantNode)
    (v1 v2 : EnumVariantNode) :
  field_Name f1 = field_Name f2 ->
  List.NoDup (map field_Name (fields1 ++ f1 :: fields2 ++ fields3)) ->
  variant_Name v1 = variant_Name v2 ->
  List.NoDup (map variant_Name (variants1 ++ v1 :: variants2 ++ variants3)) ->
  errorsOfType DuplicateFieldError
    (Errors (validateStruct r b name (fields1 ++ f1 :: fields2 ++ f2 :: fields3)
               filename res))
  = (errorsOfType DuplicateFieldError (Errors res)
       ++ [mkValidationError DuplicateFieldError
             ("duplicate field '" +:+ field_Name f2
                +:+ "' (first declared at line "
                +:+ itoa (Line (Pos (field_base f1))) +:+ ")")
             filename (Line (Pos (field_base f2))) (Column (Pos (field_base f2)))
             "rename one of the fields"])%list
  /\
  errorsOfType DuplicateVariantError
    (Errors (validateEnum r b' name'
               (variants1 ++ v1 :: variants2 ++ v2 :: variants3) filename res))
  = (errorsOfType DuplicateVariantError (Errors res)
       ++ [mkValidationError DuplicateVariantError
             ("duplicate variant '" +:+ variant_Name v2
                +:+ "' (first declared at line "
                +:+ itoa (Line (Pos (variant_base v1))) +:+ ")")
             filename (Line (Pos (variant_base v2)))
             (Column (Pos (variant_base v2)))
             "rename one of the variants"])%list.
Proof.
  intros Hf Hfnd Hv Hvnd. split.
  - rewrite validateStruct_duplicates.
    by rewrite (duplicateReports_pair field_Name (duplicateFieldReport filename)
                  _ _ _ _ _ Hf Hfnd).
  - rewrite validateEnum_duplicates.
    by rewrite (duplicateReports_pair variant_Name (duplicateVariantReport filename)
                  _ _ _ _ _ Hv Hvnd).
Qed.

(** The struct of the duplicate-field test, [struct User { id: int64, name:
    string, id: string }], and an enum with a repeated variant. *)
Lemma duplicate_member_reported_once_witness :
  let at_ l c := mkBaseNode (mkPosition "test.tg" l c) in
  let id1 := mkFieldNode (at_ 3 2) "id" (PrimitiveType (at_ 3 6) "int64") false in
  let name := mkFieldNode (at_ 4 2) "name" (PrimitiveType (at_ 4 8) "string") false in
  let id2 := mkFieldNode (at_ 5 2) "id" (PrimitiveType (at_ 5 6) "string") false in
  let active1 := mkEnumVariantNode (at_ 9 2) "active" None in
  let pending :=
    mkEnumVariantNode (at_ 10 2) "pending" (Some (PrimitiveType (at_ 10 11) "string")) in
  let active2 := mkEnumVariantNode (at_ 11 2) "active" None in
  errorsOfType DuplicateFieldError
    (Errors (validateStruct (H := asciiCase) NewTypeRegistry (at_ 2 1) "User"
               [id1; name; id2] "test.tg" NewValidationResult))
  = [mkValidationError DuplicateFieldError
       "duplicate field 'id' (first declared at line 3)" "test.tg" 5 2
       "rename one of the fields"]
  /\
  errorsOfType DuplicateVariantError
    (Errors (validateEnum (H := asciiCase) NewTypeRegistry (at_ 8 1) "Status"
               [active1; pending; active2] "test.tg" NewValidationResult))
  = [mkValidationError DuplicateVariantError
       "duplicate variant 'active' (first declared at line 9)" "test.tg" 11 2
       "rename one of the variants"].
Proof.
  intros at_ id1 name id2 active1 pending active2.
  apply (duplicate_member_reported_once (H := asciiCase)
           NewTypeRegistry "test.tg" NewValidationResult
           (at_ 2 1) "User" [] [name] [] id1 id2
           (at_ 8 1) "Status" [] [pending] [] active1 active2).
  - reflexivity.
  - repeat constructor; simpl; intuition discriminate.
  - reflexivity.
  - repeat constructor; simpl; intuition discriminate.
Defined.

(** C6: a name declared twice at the top level of one file, the other
    names of the file being distinct, yields exactly one
    [DuplicateTypeError]: it is placed at the second declaration and its
    message cites the line of the first.  Across a module tree the
    duplicate errors of [Validate] are those of its files taken one by one,
    so a tree whose files each declare distinct names yields none, however
    many files declare the same name. *)
Theorem duplicate_type_scoped_per_file `{CaseConversion}
    (r : TypeRegistry) (filename : string) (res : ValidationResult)
    (base : BaseNode) (imports : list ImportNode)
    (decls1 decls2 decls3 : list Declaration) (d1 d2 : Declaration)
    (v : Validator) (module : Module_) :
  decl_Name d1 = decl_Name d2 ->
  List.NoDup (map decl_Name (decls1 ++ d1 :: decls2 ++ decls3)) ->
  (forall path program,
     In (path, program) (moduleFiles module "") ->
     List.NoDup (map decl_Name (Declarations program))) ->
  errorsOfType DuplicateTypeError
    (Errors (validateProgram r
               (mkProgramNode base imports (decls1 ++ d1 :: decls2 ++ d2 :: decls3))
               filename res))
  = (errorsOfType DuplicateTypeError (Errors res)
       ++ [mkValidationError DuplicateTypeError
             ("duplicate " +:+ declType d2 +:+ " '" +:+ decl_Name d2
                +:+ "' (first declared at line " +:+ itoa (Line (decl_Pos d1)) +:+ ")")
             filename (Line (decl_Pos d2)) (Column (decl_Pos d2))
             "rename one of the declarations"])%list
  /\
  errorsOfType DuplicateTypeError (Errors (snd (Validate v module)))
  = flat_map fileDuplicates (moduleFiles module "")
  /\
  errorsOfType DuplicateTypeError (Errors (snd (Validate v module))) = [].
Proof.
  intros Hname Hnd Hfiles. split; [|split].
  - rewrite (Reports_errors _ _ _ _ (validateProgram_duplicates r _ filename)).
    unfold fileDuplicates. simpl.
    by rewrite (duplicateReports_pair decl_Name (duplicateTypeReport filename)
                  _ _ _ _ _ Hname Hnd).
  - apply Validate_duplicates.
  - rewrite Validate_duplicates. revert Hfiles.
    generalize (moduleFiles module "") as files.
    induction files as [| [path program] files IH]; intros Hfiles; simpl;
      [reflexivity|].
    rewrite (fileDuplicates_fresh path program); [|apply (Hfiles path program); by left].
    apply IH. intros p prog Hin. apply (Hfiles p prog). by right.
Qed.

(** Two structs named [User] in one file, and a module whose two files
    each declare one struct named [User]. *)
Lemma duplicate_type_scoped_per_file_witness :
  let at_ f l c := mkBaseNode (mkPosition f l c) in
  let user f l :=
    StructNode (at_ f l 1) "User"
      [mkFieldNode (at_ f (l + 1) 2) "id" (PrimitiveType (at_ f (l + 1) 6) "int64") false] in
  let module :=
    mkModule "test" "test"
      [("a.tg", mkProgramNode (at_ "a.tg" 1 1) [] [user "a.tg" 2]);
       ("b.tg", mkProgramNode (at_ "b.tg" 1 1) [] [user "b.tg" 2])] [] in
  errorsOfType DuplicateTypeError
    (Errors (validateProgram (H := asciiCase) NewTypeRegistry
               (mkProgramNode (at_ "a.tg" 1 1) [] [user "a.tg" 2; user "a.tg" 6])
               "a.tg" NewValidationResult))
  = [mkValidationError DuplicateTypeError
       "duplicate struct 'User' (first declared at line 2)" "a.tg" 6 1
       "rename one of the declarations"]
  /\
  errorsOfType DuplicateTypeError
    (Errors (snd (Validate (H := asciiCase) NewValidator module)))
  = flat_map fileDuplicates (moduleFiles module "")
  /\
  errorsOfType DuplicateTypeError
    (Errors (snd (Validate (H := asciiCase) NewValidator module))) = [].
Proof.
  intros at_ user module.
  apply (duplicate_type_scoped_per_file (H := asciiCase)
           NewTypeRegistry "a.tg" NewValidationResult (at_ "a.tg" 1 1) []
           [] [] [] (user "a.tg" 2) (user "a.tg" 6) NewValidator module).
  - reflexivity.
  - repeat constructor; simpl; intuition discriminate.
  - intros path program [[= <- <-] | [[= <- <-] | []]];
      repeat constructor; simpl; intuition discriminate.
Defined.

(** ** Cycles *)

(** C1 on the code: the schema of [TestValidator_SelfReference_Allowed],
    [struct TreeNode { value: string, children: []TreeNode, parent:
    ?TreeNode }] in tree.tg, comes out of [Validate] with one
    [CircularDependencyError] and nothing else, wherever its nodes are
    placed, while the test expects no error; so do two structs of one file
    that refer to one another.  The two files of
    [TestValidator_CircularDependencies_Allowed], which refer to one
    another across files, come out clean in either order of enumeration. *)
Theorem self_reference_rejected `{CaseConversion} (v : Validator)
    (p0 p1 p2 p3 p4 p5 p6 p7 p8 p9 : BaseNode) :
  let treeNode :=
    StructNode p1 "TreeNode"
      [mkFieldNode p2 "value" (PrimitiveType p3 "string") false;
       mkFieldNode p4 "children" (ArrayType p5 (NamedType p6 "TreeNode")) false;
       mkFieldNode p7 "parent" (OptionalType p8 (NamedType p9 "TreeNode")) false] in
  let tree := mkModule "test" "test" [("tree.tg", mkProgramNode p0 [] [treeNode])] [] in
  let nodeA :=
    StructNode p1 "NodeA"
      [mkFieldNode p2 "id" (PrimitiveType p3 "string") false;
       mkFieldNode p4 "b_node" (NamedType p5 "NodeB") false] in
  let nodeB :=
    StructNode p6 "NodeB"
      [mkFieldNode p7 "id" (PrimitiveType p8 "string") false;
       mkFieldNode p9 "a_node" (NamedType p5 "NodeA") false] in
  let a := ("a.tg", mkProgramNode p0 [] [nodeA]) in
  let b := ("b.tg", mkProgramNode p0 [] [nodeB]) in
  snd (Validate v tree) =
    {| Errors :=
         [mkValidationError CircularDependencyError
            "circular dependency detected: tree.tg::TreeNode -> tree.tg::TreeNode"
            "tree.tg" 0 0 "restructure types to eliminate circular references"];
       Valid := false |}
  /\ HasErrors (snd (Validate v tree)) = true
  /\ map Type'
       (Errors (snd (Validate v
          (mkModule "test" "test"
             [("nodes.tg", mkProgramNode p0 [] [nodeA; nodeB])] []))))
     = [CircularDependencyError]
  /\ snd (Validate v (mkModule "test" "test" [a; b] [])) = NewValidationResult
  /\ snd (Validate v (mkModule "test" "test" [b; a] [])) = NewValidationResult.
Proof. repeat split; vm_compute; reflexivity. Qed.

(** ** Termination of the cycle search

    Every call of [detectCycle] flags one more of the reachable names in
    [visited], so the search needs no more fuel than there are names. *)

Lemma flag_insert_eq visited k b : flag (<[k := b]> visited) k = b.
Proof. unfold flag. by rewrite lookup_insert_eq. Qed.

Lemma flag_insert_ne visited k k' b :
  k <> k' -> flag (<[k := b]> visited) k' = flag visited k'.
Proof. intros Hne. unfold flag. by rewrite lookup_insert_ne. Qed.

Lemma grows_refl visited : grows visited visited.
Proof. intros k Hk. exact Hk. Qed.

Lemma grows_trans v1 v2 v3 : grows v1 v2 -> grows v2 v3 -> grows v1 v3.
Proof. intros H12 H23 k Hk. apply H23, H12, Hk. Qed.

Lemma grows_insert visited k : grows visited (<[k := true]> visited).
Proof.
  intros k' Hk'. destruct (decide (k = k')) as [->|Hne];
    [apply flag_insert_eq | by rewrite flag_insert_ne].
Qed.

Lemma unflagged_mono (names : list string) v v' :
  grows v v' ->
  (length (List.filter (fun k => negb (flag v' k)) names)
   <= length (List.filter (fun k => negb (flag v k)) names))%nat.
Proof.
  intros Hg. induction names as [| x names IH]; simpl; [lia|].
  destruct (flag v x) eqn:Ex.
  - rewrite (Hg x Ex). simpl. exact IH.
  - simpl. destruct (flag v' x); simpl; lia.
Qed.

Lemma unflagged_insert (names : list string) v k :
  NoDup names -> k ∈ names -> flag v k = false ->
  (length (List.filter (fun x => negb (flag (<[k := true]> v) x)) names)
   < length (List.filter (fun x => negb (flag v x)) names))%nat.
Proof.
  intros Hnd Hin Hk. induction Hnd as [| x names Hx Hnd IH]; [by inversion Hin|].
  simpl. destruct (decide (x = k)) as [-> | Hne].
  - rewrite flag_insert_eq, Hk. simpl.
    pose proof (unflagged_mono names v (<[k := true]> v) (grows_insert v k)). lia.
  - rewrite flag_insert_ne by congruence.
    apply elem_of_cons in Hin as [-> | Hin]; [done|].
    specialize (IH Hin). destruct (flag v x); simpl; lia.
Qed.

Lemma remaining_mono names v v' : grows v v' -> (remaining names v' <= remaining names v)%nat.
Proof. apply unflagged_mono. Qed.

Lemma remaining_insert names v k :
  In k names -> flag v k = false ->
  (remaining names (<[k := true]> v) < remaining names v)%nat.
Proof.
  intros Hin Hk. apply unflagged_insert; [apply NoDup_remove_dups | | exact Hk].
  apply elem_of_remove_dups, list_elem_of_In, Hin.
Qed.

Lemma remaining_le_length names v : (remaining names v <= length names)%nat.
Proof.
  unfold remaining. etransitivity; [apply List.filter_length_le|].
  induction names as [| x names IH]; simpl; [lia|].
  destruct (decide_rel elem_of x names); simpl; lia.
Qed.

Lemma dependencies_reachable r typeName typeInfo dep :
  gomap_lookup typeName (types r) = Some typeInfo ->
  In dep (Dependencies typeInfo) ->
  In (qualifyName dep (ti_File typeInfo)) (reachableNames r).
Proof.
  intros Hl Hdep. unfold reachableNames. apply in_or_app. right.
  apply in_flat_map. exists (typeName, typeInfo). split; [by apply gomap_lookup_In|].
  simpl. apply (in_map (fun d => qualifyName d (ti_File typeInfo))), Hdep.
Qed.

(** The loop returns as soon as every descent it makes returns. *)
Lemma dependenciesLoop_enough descend typeName file path names bound :
  (forall q visited recStack,
     In q names -> flag visited q = false -> (remaining names visited < bound)%nat ->
     exists out visited' recStack',
       descend q visited recStack = Some (out, visited', recStack')
       /\ grows (<[q := true]> visited) visited') ->
  forall ds visited recStack,
    (forall dep, In dep ds -> In (qualifyName dep file) names) ->
    (remaining names visited < bound)%nat ->
    exists out visited' recStack',
      dependenciesLoop descend typeName file path ds visited recStack
      = Some (out, visited', recStack')
      /\ grows visited visited'.
Proof.
  intros Hdescend. induction ds as [| dep rest IH]; intros visited recStack Hin Hrem.
  - simpl. eexists _, _, _. split; [reflexivity | apply grows_refl].
  - cbn [dependenciesLoop].
    assert (Hrest : forall d, In d rest -> In (qualifyName d file) names)
      by (intros d Hd; apply Hin; by right).
    destruct (flag visited (qualifyName dep file)) eqn:Ev; simpl.
    + destruct (flag recStack (qualifyName dep file));
        [destruct (cycleStart path (qualifyName dep file))|]; try by apply IH.
      eexists _, _, _. split; [reflexivity | apply grows_refl].
    + destruct (Hdescend (qualifyName dep file) visited recStack)
        as (out & visited' & recStack' & -> & Hg);
        [apply Hin; by left | exact Ev | exact Hrem |].
      assert (Hg' : grows visited visited')
        by (eapply grows_trans; [apply grows_insert | exact Hg]).
      destruct out as [cycle|].
      * eexists _, _, _. split; [reflexivity | exact Hg'].
      * destruct (IH visited' recStack' Hrest) as (out & v'' & r'' & -> & Hg'').
        { pose proof (remaining_mono names _ _ Hg'). lia. }
        eexists _, _, _. split; [reflexivity | by eapply grows_trans].
Qed.

Lemma detectCycle_enough r fuel :
  forall typeName visited recStack path,
    In typeName (reachableNames r) ->
    flag visited typeName = false ->
    (remaining (reachableNames r) visited < S fuel)%nat ->
    exists out visited' recStack',
      detectCycle (S fuel) r typeName visited recStack path
      = Some (out, visited', recStack')
      /\ grows (<[typeName := true]> visited) visited'.
Proof.
  induction fuel as [| fuel IH]; intros typeName visited recStack path Hin Hv Hrem.
  - pose proof (remaining_insert _ _ _ Hin Hv). lia.
  - cbn [detectCycle].
    destruct (gomap_lookup typeName (types r)) as [typeInfo|] eqn:El.
    + apply (dependenciesLoop_enough _ _ _ _ (reachableNames r) (S fuel)).
      * intros q vis rs Hq Hvq Hr. apply IH; assumption.
      * intros dep Hdep. by eapply dependencies_reachable.
      * pose proof (remaining_insert _ _ _ Hin Hv). lia.
    + eexists _, _, _. split; [reflexivity | apply grows_refl].
Qed.

Lemma cyclesFrom_enough r fuel :
  (length (reachableNames r) < fuel)%nat ->
  forall names visited recStack cycles,
    (forall n, In n names -> In n (reachableNames r)) ->
    exists found, cyclesFrom fuel r names visited recStack cycles = Some found.
Proof.
  intros Hfuel. destruct fuel as [| fuel]; [lia|].
  induction names as [| n names IH]; intros visited recStack cycles Hin;
    cbn [cyclesFrom].
  - by eexists.
  - assert (Hrest : forall k, In k names -> In k (reachableNames r))
      by (intros k Hk; apply Hin; by right).
    destruct (flag visited n) eqn:Ev; cbn [negb]; [by apply IH|].
    destruct (detectCycle_enough r fuel n visited recStack [])
      as (out & visited' & recStack' & Hd & _);
      [apply Hin; by left | exact Ev | |].
    { pose proof (remaining_le_length (reachableNames r) visited). lia. }
    rewrite Hd. destruct out; by apply IH.
Qed.

Lemma dependenciesLoop_mono descend descend' typeName file path :
  (forall q visited recStack x,
     descend q visited recStack = Some x -> descend' q visited recStack = Some x) ->
  forall ds visited recStack x,
    dependenciesLoop descend typeName file path ds visited recStack = Some x ->
    dependenciesLoop descend' typeName file path ds visited recStack = Some x.
Proof.
  intros Hd. induction ds as [| dep rest IH]; intros visited recStack x;
    cbn [dependenciesLoop]; [done|].
  destruct (negb (flag visited (qualifyName dep file))).
  - destruct (descend (qualifyName dep file) visited recStack)
      as [[[out v'] r']|] eqn:E; [|discriminate].
    rewrite (Hd _ _ _ _ E). destruct out; [done | apply IH].
  - destruct (flag recStack (qualifyName dep file));
      [destruct (cycleStart path (qualifyName dep file))|]; try apply IH. done.
Qed.

Lemma detectCycle_mono r fuel :
  forall typeName visited recStack path x,
    detectCycle fuel r typeName visited recStack path = Some x ->
    detectCycle (S fuel) r typeName visited recStack path = Some x.
Proof.
  induction fuel as [| fuel IH]; intros typeName visited recStack path x;
    [discriminate|].
  cbn [detectCycle].
  destruct (gomap_lookup typeName (types r)) as [typeInfo|]; [|done].
  apply dependenciesLoop_mono. intros q v rs y. apply IH.
Qed.

Lemma detectCycle_mono_le r fuel fuel' typeName visited recStack path x :
  (fuel <= fuel')%nat ->
  detectCycle fuel r typeName visited recStack path = Some x ->
  detectCycle fuel' r typeName visited recStack path = Some x.
Proof.
  induction 1 as [| fuel' _ IH]; [done|]. intros Hx. by apply detectCycle_mono, IH.
Qed.

Lemma cyclesFrom_mono r fuel fuel' :
  (fuel <= fuel')%nat ->
  forall names visited recStack cycles found,
    cyclesFrom fuel r names visited recStack cycles = Some found ->
    cyclesFrom fuel' r names visited recStack cycles = Some found.
Proof.
  intros Hle. induction names as [| n names IH];
    intros visited recStack cycles found; cbn [cyclesFrom]; [done|].
  destruct (negb (flag visited n)); [|apply IH].
  destruct (detectCycle fuel r n visited recStack [])
    as [[[out v'] r']|] eqn:E; [|discriminate].
  rewrite (detectCycle_mono_le _ _ _ _ _ _ _ _ Hle E).
  destruct out; apply IH.
Qed.

(** The search returns, and with any fuel above the number of reachable
    names it returns what [ValidateCircularDependencies] returns. *)
Theorem ValidateCircularDependencies_fuel_enough r fuel :
  (length (reachableNames r) < fuel)%nat ->
  ValidateCircularDependencies_fuel fuel r = Some (ValidateCircularDependencies r).
Proof.
  intros Hfuel. unfold ValidateCircularDependencies, ValidateCircularDependencies_fuel.
  destruct (cyclesFrom_enough r (S (length (reachableNames r))) ltac:(lia)
              (gomap_keys (types r)) ∅ ∅ []) as [found Hfound].
  { intros n Hn. unfold reachableNames. apply in_or_app. by left. }
  rewrite Hfound. simpl.
  apply (cyclesFrom_mono r (S (length (reachableNames r))) fuel); [lia | exact Hfound].
Qed.

(** ** What [Validate] returns *)

Lemma Validate_appends `{CaseConversion} v module :
  exists errs, snd (Validate v module) = appendErrors NewValidationResult errs.
Proof.
  unfold Validate. simpl.
  destruct (validateModule_duplicates (buildTypeRegistry module) module "")
    as (e1 & Hl1 & _).
  destruct (validateCircularDependencies_kinds (buildTypeRegistry module))
    as (e2 & Hl2 & _).
  exists (e1 ++ e2)%list. by rewrite Hl1, Hl2, appendErrors_app.
Qed.

Lemma Validate_built `{CaseConversion} v module : built (snd (Validate v module)).
Proof.
  destruct (Validate_appends v module) as [errs ->].
  apply built_appendErrors. constructor.
Qed.

(** C10: [NewValidationResult] has no error and is valid; [AddError]
    appends one error and clears [Valid], which establishes
    [Valid == (len(Errors) == 0)] whatever the result was; so every result
    built from these two, and in particular every result [Validate] returns,
    satisfies the invariant, is valid exactly when its error list is empty,
    and has [HasErrors()] equal to not-[Valid]. *)
Theorem result_invariant `{CaseConversion}
    (res : ValidationResult) (errorType : ValidationErrorType)
    (message file : string) (line column : Z) (suggestion : string)
    (v : Validator) (module : Module_) :
  built res ->
  (Errors NewValidationResult = [] /\ Valid NewValidationResult = true)
  /\ AddError res errorType message file line column suggestion
     = {| Errors := (Errors res
                       ++ [mkValidationError errorType message file line column
                             suggestion])%list;
          Valid := false |}
  /\ result_ok (AddError res errorType message file line column suggestion)
  /\ result_ok res
  /\ (length (Errors res) = 0%nat <-> Valid res = true)
  /\ HasErrors res = negb (Valid res)
  /\ built (snd (Validate v module))
  /\ (length (Errors (snd (Validate v module))) = 0%nat
      <-> Valid (snd (Validate v module)) = true)
  /\ HasErrors (snd (Validate v module)) = negb (Valid (snd (Validate v module))).
Proof.
  intros Hb.
  assert (Hiff : forall x, result_ok x -> length (Errors x) = 0%nat <-> Valid x = true).
  { intros x Hx. rewrite Hx. symmetry. apply Nat.eqb_eq. }
  pose proof (Validate_built v module) as Hv.
  repeat split; try reflexivity.
  - apply built_ok. by constructor.
  - by apply built_ok.
  - by apply Hiff, built_ok.
  - by apply Hiff, built_ok.
  - by apply result_ok_HasErrors, built_ok.
  - exact Hv.
  - by apply Hiff, built_ok.
  - by apply Hiff, built_ok.
  - by apply result_ok_HasErrors, built_ok.
Qed.

(** The result of the string test, two errors added to a fresh result, and
    the module of the self-reference test. *)
Lemma result_invariant_witness :
  let res :=
    AddError
      (AddError NewValidationResult UndefinedTypeError "undefined type 'Foo'"
         "test.tg" 5 10 "define the type")
      NamingConventionError "should use PascalCase" "test.tg" 8 1 "use 'MyType'" in
  let module :=
    mkModule "test" "test"
      [("tree.tg",
        mkProgramNode (mkBaseNode (mkPosition "tree.tg" 1 1)) []
          [StructNode (mkBaseNode (mkPosition "tree.tg" 2 1)) "TreeNode"
             [mkFieldNode (mkBaseNode (mkPosition "tree.tg" 3 2)) "parent"
                (OptionalType (mkBaseNode (mkPosition "tree.tg" 3 10))
                   (NamedType (mkBaseNode (mkPosition "tree.tg" 3 11)) "TreeNode"))
                false]])] [] in
  result_ok res /\ HasErrors res = negb (Valid res)
  /\ HasErrors (snd (Validate (H := asciiCase) NewValidator module))
     = negb (Valid (snd (Validate (H := asciiCase) NewValidator module))).
Proof.
  intros res module.
  pose proof (result_invariant (H := asciiCase) res InvalidOptionalError
                "double-wrapped optional types are not allowed" "test.tg" 9 3
                "use single optional marker ?Type" NewValidator module
                ltac:(repeat constructor)) as Hinv.
  split; [apply Hinv|]. split; apply Hinv.
Defined.

(** ** The walk of the validator, event by event *)

Lemma moduleWalk_unfold path name files subs basePath :
  moduleWalk (mkModule path name files subs) basePath =
  (map (fun entry => VisitFile (joinPath basePath (fst entry)) (snd entry)) files
   ++ flat_map
        (fun sub => EnterSubModule (fst sub) basePath
                    :: moduleWalk (snd sub) (joinPath basePath (fst sub)))
        subs)%list.
Proof.
  simpl. f_equal. induction subs as [| [n sub] subs IH]; simpl;
    [reflexivity | by rewrite IH].
Qed.

Lemma walkFiles_app e1 e2 : walkFiles (e1 ++ e2) = (walkFiles e1 ++ walkFiles e2)%list.
Proof. apply flat_map_app. Qed.

Lemma walkFiles_moduleWalk module :
  forall basePath, walkFiles (moduleWalk module basePath) = moduleFiles module basePath.
Proof.
  induction module as [path name files subs IH] using Module_induction.
  intros basePath. rewrite moduleWalk_unfold, moduleFiles_unfold, walkFiles_app.
  f_equal.
  - induction files as [| e files IHf]; simpl; [reflexivity | by rewrite <- IHf].
  - induction IH as [| [n sub] subs Hsub _ IHsubs]; simpl; [reflexivity|].
    change (walkFiles (moduleWalk sub (joinPath basePath n) ++ _))
      with (walkFiles (moduleWalk sub (joinPath basePath n)
                       ++ flat_map
                            (fun sub => EnterSubModule (fst sub) basePath
                               :: moduleWalk (snd sub) (joinPath basePath (fst sub)))
                            subs)).
    by rewrite walkFiles_app, Hsub, IHsubs.
Qed.

Lemma walkFiles_In events path program :
  In (path, program) (walkFiles events) <-> In (VisitFile path program) events.
Proof.
  unfold walkFiles. rewrite in_flat_map. split.
  - intros ([p prog | n b] & Hin & Hx); simpl in Hx; [|done].
    destruct Hx as [[= <- <-] | []]. exact Hin.
  - intros Hin. exists (VisitFile path program). split; [exact Hin | by left].
Qed.

Section Walk.
Context `{CaseConversion}.

Lemma validateModule_walk r module :
  forall basePath res,
    validateModule r module basePath res =
    fold_left (walkStep r) (moduleWalk module basePath) res.
Proof.
  induction module as [path name files subs IH] using Module_induction.
  intros basePath res.
  rewrite validateModule_unfold, moduleWalk_unfold, fold_left_app.
  replace (fold_left (walkStep r)
             (map (fun entry => VisitFile (joinPath basePath (fst entry)) (snd entry))
                files) res)
    with (fold_left
            (fun res entry =>
               validateProgram r (snd entry) (joinPath basePath (fst entry)) res)
            files res)
    by (revert res; induction files as [| e files IHf]; intros res; simpl;
        [reflexivity | apply IHf]).
  generalize (fold_left
                (fun res entry =>
                   validateProgram r (snd entry) (joinPath basePath (fst entry)) res)
                files res) as res'.
  induction IH as [| [n sub] subs Hsub _ IHsubs]; intros res'; simpl; [reflexivity|].
  rewrite fold_left_app, <- Hsub. apply IHsubs.
Qed.

End Walk.

(** ** Enumeration order *)

Lemma sameKeys_sameAnswers r r' :
  (forall k, In k (gomap_keys (types r)) <-> In k (gomap_keys (types r'))) ->
  sameAnswers r r'.
Proof.
  intros Hkeys name currentFile.
  apply eq_true_iff_eq. rewrite !TypeExists_true_iff.
  rewrite (Hkeys (qualifyName name currentFile)).
  split; (intros [Hp | [Hq | (k & Hk & Hs)]];
          [by left | right; by left | right; right; exists k; split; [by apply Hkeys | done]]).
Qed.

Lemma validateType_sameAnswers r r' typeNode filename line column res :
  sameAnswers r r' ->
  validateType r typeNode filename line column res
  = validateType r' typeNode filename line column res.
Proof.
  intros Hsame. revert res.
  induction typeNode as [b n | b n | b e IHe | b k IHk v IHv | b e IHe];
    intros res; cbn [validateType].
  - reflexivity.
  - unfold validateNamedType. by rewrite Hsame.
  - apply IHe.
  - by rewrite IHk, IHv.
  - apply IHe.
Qed.

Section Enumeration.
Context `{CaseConversion}.

Lemma validateDeclaration_sameAnswers r r' decl filename st :
  sameAnswers r r' ->
  validateDeclaration r decl filename st = validateDeclaration r' decl filename st.
Proof.
  intros Hsame. destruct st as [seen res]. unfold validateDeclaration.
  replace (match decl with
           | StructNode b name fields => validateStruct r b name fields filename res
           | EnumNode b name variants => validateEnum r b name variants filename res
           | TypeAliasNode b name t => validateTypeAlias r b name t filename res
           | ConstantNode b name value => validateConstant b name value filename res
           end)
    with (match decl with
          | StructNode b name fields => validateStruct r' b name fields filename res
          | EnumNode b name variants => validateEnum r' b name variants filename res
          | TypeAliasNode b name t => validateTypeAlias r' b name t filename res
          | ConstantNode b name value => validateConstant b name value filename res
          end); [reflexivity|].
  destruct decl as [b name fields | b name variants | b name t | b name value].
  - unfold validateStruct. f_equal. apply fold_left_ext.
    intros [seen' res'] f. unfold validateField.
    destruct (seen' !! field_Name f); by rewrite (validateType_sameAnswers r r').
  - unfold validateEnum. f_equal. apply fold_left_ext.
    intros [seen' res'] x. unfold validateEnumVariant.
    destruct (seen' !! variant_Name x); destruct (variant_Payload x);
      by rewrite ?(validateType_sameAnswers r r').
  - unfold validateTypeAlias. by rewrite (validateType_sameAnswers r r').
  - reflexivity.
Qed.

Lemma walkStep_sameAnswers r r' res ev :
  sameAnswers r r' -> walkStep r res ev = walkStep r' res ev.
Proof.
  intros Hsame. destruct ev as [p prog | n b]; [|reflexivity].
  unfold walkStep, validateProgram. f_equal. apply fold_left_ext.
  intros st d. by apply validateDeclaration_sameAnswers.
Qed.

Lemma Logs_canonical f :
  (exists errs, Logs f errs) -> Logs f (Errors (f NewValidationResult)).
Proof. intros [errs Hl]. rewrite (Hl NewValidationResult). exact Hl. Qed.

Lemma validateProgram_kinds r program filename :
  LogsOnly walkKinds (validateProgram r program filename).
Proof.
  unfold validateProgram.
  apply (LogsOnly_comp walkKinds
           (fun res => fold_left (fun res imp => validateImport imp filename res)
                         (Imports program) res)
           (fun res => snd (fold_left
                              (fun st decl => validateDeclaration r decl filename st)
                              (Declarations program) (∅, res)))).
  - apply (LogsOnly_fold walkKinds (fun imp res => validateImport imp filename res)).
    intros imp. eapply LogsOnly_incl; [|apply validateImport_kinds]. kind_incl.
  - eapply LogsOnly_ext.
    { intros res. symmetry.
      apply (f_equal snd
               (fold_left_ext _ _ _ _
                  (fun st d => validateDeclaration_dupStep r filename d st))). }
    apply dupLoop_kinds.
    + intros a. eapply LogsOnly_incl; [|apply declCheck_kinds]. kind_incl.
    + intros a. apply LogsOnly_id.
    + intros a existing. apply LogsOnly_AddError. kind_in.
Qed.

Lemma walkStep_kinds r ev : LogsOnly walkKinds (fun res => walkStep r res ev).
Proof.
  destruct ev as [p prog | n b]; simpl.
  - apply validateProgram_kinds.
  - eapply LogsOnly_incl; [|apply checkSubModuleName_kinds]. kind_incl.
Qed.

Lemma walkStep_Logs r ev : Logs (fun res => walkStep r res ev) (eventErrors r ev).
Proof.
  apply (Logs_canonical (fun res => walkStep r res ev)).
  destruct (walkStep_kinds r ev) as (errs & Hl & _). by exists errs.
Qed.

Lemma walk_Logs r events :
  Logs (fun res => fold_left (walkStep r) events res) (flat_map (eventErrors r) events).
Proof.
  induction events as [| ev events IH]; simpl; [apply Logs_id|].
  apply (Logs_comp (fun res => walkStep r res ev)
           (fun res => fold_left (walkStep r) events res));
    [apply walkStep_Logs | exact IH].
Qed.

Lemma errorsNotOfType_app ty e1 e2 :
  errorsNotOfType ty (e1 ++ e2) = (errorsNotOfType ty e1 ++ errorsNotOfType ty e2)%list.
Proof. apply List.filter_app. Qed.

Lemma errorsNotOfType_all ty kinds errs :
  ~ In ty kinds -> Forall (fun e => In (Type' e) kinds) errs ->
  errorsNotOfType ty errs = errs.
Proof.
  intros Hn Hf. induction Hf as [| e errs He _ IH]; simpl; [reflexivity|].
  rewrite IH. rewrite bool_decide_eq_false_2; [reflexivity|].
  intros Heq. apply Hn. by rewrite <- Heq.
Qed.

Lemma errorsNotOfType_none ty errs :
  Forall (fun e => In (Type' e) [ty]) errs -> errorsNotOfType ty errs = [].
Proof.
  intros Hf. induction Hf as [| e errs He _ IH]; simpl; [reflexivity|].
  destruct He as [He | []]. by rewrite bool_decide_eq_true_2.
Qed.

Lemma walk_kinds r events :
  Forall (fun e => In (Type' e) walkKinds) (flat_map (eventErrors r) events).
Proof.
  induction events as [| ev events IH]; simpl; [constructor|].
  apply Forall_app. split; [|exact IH].
  destruct (walkStep_kinds r ev) as (errs & Hl & Hk).
  unfold eventErrors. rewrite Hl. exact Hk.
Qed.

(** What [Validate] returns: the errors of the walk, then the reports of
    cycles. *)
Lemma Validate_errors v module :
  exists cycleErrors,
    Errors (snd (Validate v module))
    = (flat_map (eventErrors (buildTypeRegistry module)) (moduleWalk module "")
       ++ cycleErrors)%list
    /\ Forall (fun e => Type' e = CircularDependencyError) cycleErrors
    /\ errorsNotOfType CircularDependencyError (Errors (snd (Validate v module)))
       = flat_map (eventErrors (buildTypeRegistry module)) (moduleWalk module "").
Proof.
  unfold Validate. cbn [snd].
  destruct (validateCircularDependencies_kinds (buildTypeRegistry module))
    as (e2 & Hl2 & Hk2).
  exists e2. rewrite Hl2, validateModule_walk, walk_Logs. cbn [Errors appendErrors app].
  split; [reflexivity|]. split.
  - eapply Forall_impl; [exact Hk2|]. intros e [He | []]. by symmetry.
  - rewrite errorsNotOfType_app, (errorsNotOfType_none _ e2 Hk2), app_nil_r.
    apply (errorsNotOfType_all _ walkKinds); [simpl; intuition discriminate|].
    apply walk_kinds.
Qed.

End Enumeration.

Lemma SameModule_walk :
  forall module module',
    SameModule module module' ->
    forall basePath,
      Permutation (moduleWalk module basePath) (moduleWalk module' basePath).
Proof.
  fix IH 3.
  intros module module' [path name files files' subs subs' reordered Hf Hs Hall]
    basePath.
  rewrite !moduleWalk_unfold. apply Permutation_app.
  - by apply Permutation_map.
  - etransitivity; [apply Permutation_flat_map; exact Hs|]. clear Hs.
    induction Hall as [| [n sub] [n' sub'] reordered subs' [Hn Hsame] _ IHall];
      simpl; [reflexivity|].
    simpl in Hn. subst n'. constructor.
    apply Permutation_app; [apply IH; exact Hsame | exact IHall].
Qed.

Section Purity.
Context `{CaseConversion}.

Lemma walk_sameAnswers module module' :
  Permutation (moduleWalk module "") (moduleWalk module' "") ->
  sameAnswers (buildTypeRegistry module) (buildTypeRegistry module').
Proof.
  intros Hperm. apply sameKeys_sameAnswers. intros k.
  rewrite !buildTypeRegistry_keys.
  split; intros (path & program & decl & Hin & Hd & ->);
    exists path, program, decl; (split; [|done]);
    rewrite <- walkFiles_moduleWalk, walkFiles_In in *;
    [by apply (Permutation_in _ Hperm)
    | by apply (Permutation_in _ (Permutation_sym Hperm))].
Qed.

(** C9, as the code has it: [Validate] overwrites the registry and the
    result of the validator before it reads them, so what it returns and
    what it leaves in the validator do not depend on the validator it is
    called on, and a second call on the same module, enumerated in the same
    order, returns an equal result.  The module is only read.  When the
    maps of the module are enumerated in another order, the results still
    hold the same errors, up to their order, apart from the reports of
    cycles. *)
Theorem Validate_rebuilds_from_scratch
    (v v' : Validator) (module module' : Module_) :
  SameModule module module' ->
  Validate v module = Validate v' module
  /\ fst (Validate v module)
     = {| registry := Some (buildTypeRegistry module);
          result := snd (Validate v module) |}
  /\ snd (Validate (fst (Validate v module)) module) = snd (Validate v module)
  /\ Permutation
       (errorsNotOfType CircularDependencyError (Errors (snd (Validate v module))))
       (errorsNotOfType CircularDependencyError (Errors (snd (Validate v' module')))).
Proof.
  intros Hsame. repeat split.
  pose proof (SameModule_walk _ _ Hsame "") as Hperm.
  destruct (Validate_errors v module) as (c & _ & _ & ->).
  destruct (Validate_errors v' module') as (c' & _ & _ & ->).
  pose proof (walk_sameAnswers module module' Hperm) as Hanswers.
  rewrite (flat_map_ext (eventErrors (buildTypeRegistry module))
             (eventErrors (buildTypeRegistry module'))).
  - by apply Permutation_flat_map.
  - intros ev. unfold eventErrors. by rewrite (walkStep_sameAnswers _ _ _ _ Hanswers).
Qed.

End Purity.

(** C9, as stated, fails: two enumerations of the same module of two
    files, each with a misnamed struct, give results whose errors come in
    different orders; and two enumerations of the registry of [struct X {
    x: X } struct Q { x: X, p: P } struct P { q: Q }] give different numbers
    of cycle reports. *)
Lemma Validate_enumeration_refuted :
  let at_ f l c := mkBaseNode (mkPosition f l c) in
  let file f name :=
    mkProgramNode (at_ f 1 1) []
      [StructNode (at_ f 2 1) name
         [mkFieldNode (at_ f 3 2) "id" (PrimitiveType (at_ f 3 6) "int64") false]] in
  let a := ("a.tg", file "a.tg" "user_info") in
  let b := ("b.tg", file "b.tg" "order_line") in
  let info name deps := mkTypeInfo name "struct" "a.tg" 1 1 deps in
  let x := ("a.tg::X", info "X" ["X"]) in
  let q := ("a.tg::Q", info "Q" ["X"; "P"]) in
  let p := ("a.tg::P", info "P" ["Q"]) in
  SameModule (mkModule "test" "test" [a; b] []) (mkModule "test" "test" [b; a] [])
  /\ snd (Validate (H := asciiCase) NewValidator (mkModule "test" "test" [a; b] []))
     <> snd (Validate (H := asciiCase) NewValidator (mkModule "test" "test" [b; a] []))
  /\ Permutation [x; q; p] [q; x; p]
  /\ length (ValidateCircularDependencies (mkTypeRegistry [x; q; p] "")) = 2%nat
  /\ length (ValidateCircularDependencies (mkTypeRegistry [q; x; p] "")) = 1%nat.
Proof.
  intros at_ file a b info x q p.
  split; [by apply (SameModule_intro _ _ _ _ [] [] []); [apply perm_swap | |]|].
  split; [vm_compute; discriminate|].
  split; [apply perm_swap|]. split; vm_compute; reflexivity.
Qed.

(** The two files of the naming test in their two orders. *)
Lemma Validate_rebuilds_from_scratch_witness :
  let at_ f l c := mkBaseNode (mkPosition f l c) in
  let file f name :=
    mkProgramNode (at_ f 1 1) []
      [StructNode (at_ f 2 1) name
         [mkFieldNode (at_ f 3 2) "id" (PrimitiveType (at_ f 3 6) "int64") false]] in
  let module :=
    mkModule "test" "test"
      [("a.tg", file "a.tg" "user_info"); ("b.tg", file "b.tg" "order_line")] [] in
  let module' :=
    mkModule "test" "test"
      [("b.tg", file "b.tg" "order_line"); ("a.tg", file "a.tg" "user_info")] [] in
  let used := fst (Validate (H := asciiCase) NewValidator module') in
  snd (Validate (H := asciiCase) used module)
  = snd (Validate (H := asciiCase) NewValidator module)
  /\ Permutation
       (errorsNotOfType CircularDependencyError
          (Errors (snd (Validate (H := asciiCase) NewValidator module))))
       (errorsNotOfType CircularDependencyError
          (Errors (snd (Validate (H := asciiCase) used module')))).
Proof.
  intros at_ file module module' used.
  assert (Hsame : SameModule module module')
    by (apply (SameModule_intro _ _ _ _ [] [] []);
        [apply perm_swap | constructor | constructor]).
  pose proof (Validate_rebuilds_from_scratch (H := asciiCase)
                NewValidator used module module' Hsame) as Hpure.
  split; [|apply Hpure].
  destruct Hpure as [Heq _]. by rewrite Heq.
Defined.

(** ** The registry: stores and lookups *)

Lemma gomap_lookup_store_eq {V} (k : string) (v : V) (m : GoMap V) :
  gomap_lookup k (gomap_store k v m) = Some v.
Proof.
  induction m as [| [k' v'] m IH]; simpl.
  - by rewrite String.eqb_refl.
  - destruct (String.eqb k' k) eqn:E; simpl.
    + by rewrite String.eqb_refl.
    + by rewrite E.
Qed.

Lemma gomap_lookup_store_ne {V} (k k' : string) (v : V) (m : GoMap V) :
  k <> k' -> gomap_lookup k' (gomap_store k v m) = gomap_lookup k' m.
Proof.
  intros Hne. induction m as [| [k0 v0] m IH]; simpl.
  - by apply String.eqb_neq in Hne as ->.
  - destruct (String.eqb k0 k) eqn:E; simpl.
    + apply String.eqb_eq in E. subst k0.
      by apply String.eqb_neq in Hne as ->.
    + destruct (String.eqb k0 k'); [reflexivity | exact IH].
Qed.

Lemma gomap_store_store {V} (k : string) (v1 v2 : V) (m : GoMap V) :
  gomap_store k v2 (gomap_store k v1 m) = gomap_store k v2 m.
Proof.
  induction m as [| [k' v'] m IH]; simpl.
  - by rewrite String.eqb_refl.
  - destruct (String.eqb k' k) eqn:E; simpl.
    + by rewrite String.eqb_refl.
    + by rewrite E, IH.
Qed.

Lemma gomap_store_same {V} (k : string) (v : V) (m : GoMap V) :
  gomap_lookup k m = Some v -> gomap_store k v m = m.
Proof.
  induction m as [| [k' v'] m IH]; simpl; [discriminate|].
  destruct (String.eqb k' k) eqn:E.
  - apply String.eqb_eq in E. by intros [= ->]; subst.
  - intros Hl. by rewrite IH.
Qed.

Lemma gomap_store_In {V} (k k' : string) (v v' : V) (m : GoMap V) :
  In (k', v') (gomap_store k v m) -> (k' = k /\ v' = v) \/ In (k', v') m.
Proof.
  induction m as [| [k0 v0] m IH]; simpl.
  - intros [[= <- <-] | []]. by left.
  - destruct (String.eqb k0 k) eqn:E; simpl.
    + intros [[= <- <-] | Hin]; [by left | right; by right].
    + intros [Heq | Hin]; [right; by left|].
      destruct (IH Hin) as [? | ?]; [by left | right; by right].
Qed.

Lemma gomap_store_NoDup {V} (k : string) (v : V) (m : GoMap V) :
  List.NoDup (gomap_keys m) -> List.NoDup (gomap_keys (gomap_store k v m)).
Proof.
  induction m as [| [k' v'] m IH]; simpl; intros Hnd.
  - constructor; [intros [] | constructor].
  - inversion Hnd as [| ? ? Hnotin Hnd']; subst.
    destruct (String.eqb k' k) eqn:E; simpl.
    + apply String.eqb_eq in E. subst k'. by constructor.
    + apply String.eqb_neq in E. constructor; [|by apply IH].
      fold (gomap_keys (gomap_store k v m)). rewrite gomap_store_keys.
      intros [-> | Hin]; [done | by apply Hnotin].
Qed.

Lemma gomap_store_length {V} (k : string) (v : V) (m : GoMap V) :
  (length (gomap_store k v m) <= S (length m))%nat.
Proof.
  induction m as [| [k' v'] m IH]; simpl; [lia|].
  destruct (String.eqb k' k); simpl; lia.
Qed.

Lemma withDependencies_same info : withDependencies info (Dependencies info) = info.
Proof. by destruct info. Qed.

Lemma AddDependency_types r fromType toType file :
  types (AddDependency r fromType toType file) =
  match gomap_lookup (qualifyName fromType file) (types r) with
  | Some info =>
      gomap_store (qualifyName fromType file)
        (withDependencies info (Dependencies info ++ [toType])%list) (types r)
  | None => types r
  end.
Proof.
  unfold AddDependency.
  by destruct (gomap_lookup (qualifyName fromType file) (types r)).
Qed.

Lemma addTypeDependencies_currentFile typeNode :
  forall r fromType file,
    currentFile (addTypeDependencies r fromType typeNode file) = currentFile r.
Proof.
  induction typeNode as [b n | b n | b e IHe | b kt IHk v IHv | b e IHe];
    intros r fromType file; cbn [addTypeDependencies]; auto.
  - unfold AddDependency.
    by destruct (gomap_lookup (qualifyName fromType file) (types r)).
  - by rewrite IHv, IHk.
Qed.

Lemma addTypeDependencies_types typeNode :
  forall r fromType file,
    types (addTypeDependencies r fromType typeNode file) =
    match gomap_lookup (qualifyName fromType file) (types r) with
    | Some info =>
        gomap_store (qualifyName fromType file)
          (withDependencies info (Dependencies info ++ namedLeaves typeNode)%list)
          (types r)
    | None => types r
    end.
Proof.
  induction typeNode as [b n | b n | b e IHe | b kt IHk v IHv | b e IHe];
    intros r fromType file; cbn [addTypeDependencies namedLeaves]; auto.
  - destruct (gomap_lookup _ (types r)) as [info|] eqn:E; [|reflexivity].
    rewrite app_nil_r, withDependencies_same. symmetry. by apply gomap_store_same.
  - apply AddDependency_types.
  - rewrite IHv, IHk.
    destruct (gomap_lookup (qualifyName fromType file) (types r)) as [info|] eqn:E.
    + rewrite gomap_lookup_store_eq, gomap_store_store. cbn [withDependencies Dependencies
        ti_Name DeclType ti_File ti_Line ti_Column]. by rewrite app_assoc.
    + by rewrite E.
Qed.

Lemma gomap_store_keys_present {V} (k : string) (v : V) (m : GoMap V) :
  In k (gomap_keys m) -> gomap_keys (gomap_store k v m) = gomap_keys m.
Proof.
  induction m as [| [k' v'] m IH]; simpl; [intros []|].
  destruct (String.eqb k' k) eqn:E; simpl.
  - apply String.eqb_eq in E. by subst.
  - apply String.eqb_neq in E. intros [? | Hin]; [done|].
    f_equal. by apply IH.
Qed.

Lemma fold_fields_types fields name fullPath :
  forall reg,
    types (fold_left
             (fun reg field => addTypeDependencies reg name (field_Type field) fullPath)
             fields reg) =
    match gomap_lookup (qualifyName name fullPath) (types reg) with
    | Some info =>
        gomap_store (qualifyName name fullPath)
          (withDependencies info
             (Dependencies info
              ++ flat_map (fun field => namedLeaves (field_Type field)) fields)%list)
          (types reg)
    | None => types reg
    end.
Proof.
  induction fields as [| f fields IH]; intros reg; cbn [fold_left flat_map].
  - destruct (gomap_lookup _ (types reg)) as [info|] eqn:E; [|reflexivity].
    rewrite app_nil_r, withDependencies_same. symmetry. by apply gomap_store_same.
  - rewrite IH, addTypeDependencies_types.
    destruct (gomap_lookup (qualifyName name fullPath) (types reg)) as [info|] eqn:E.
    + rewrite gomap_lookup_store_eq, gomap_store_store.
      cbn [withDependencies Dependencies ti_Name DeclType ti_File ti_Line ti_Column].
      by rewrite app_assoc.
    + by rewrite E.
Qed.

Lemma fold_variants_types variants name fullPath :
  forall reg,
    types (fold_left
             (fun reg variant =>
                match variant_Payload variant with
                | Some payload => addTypeDependencies reg name payload fullPath
                | None => reg
                end)
             variants reg) =
    match gomap_lookup (qualifyName name fullPath) (types reg) with
    | Some info =>
        gomap_store (qualifyName name fullPath)
          (withDependencies info
             (Dependencies info
              ++ flat_map (fun variant =>
                             match variant_Payload variant with
                             | Some payload => namedLeaves payload
                             | None => []
                             end) variants)%list)
          (types reg)
    | None => types reg
    end.
Proof.
  induction variants as [| v variants IH]; intros reg; cbn [fold_left flat_map].
  - destruct (gomap_lookup _ (types reg)) as [info|] eqn:E; [|reflexivity].
    rewrite app_nil_r, withDependencies_same. symmetry. by apply gomap_store_same.
  - rewrite IH. destruct (variant_Payload v) as [payload|].
    + rewrite addTypeDependencies_types.
      destruct (gomap_lookup (qualifyName name fullPath) (types reg)) as [info|] eqn:E.
      * rewrite gomap_lookup_store_eq, gomap_store_store.
        cbn [withDependencies Dependencies ti_Name DeclType ti_File ti_Line ti_Column].
        by rewrite app_assoc.
      * by rewrite E.
    + reflexivity.
Qed.

Lemma registerDeclaration_types r fullPath decl :
  types (registerDeclaration r fullPath decl) =
  gomap_store (qualifyName (decl_Name decl) fullPath) (declRecord fullPath decl)
    (types r).
Proof.
  destruct decl as [b name fields | b name variants | b name t | b name value];
    unfold registerDeclaration, declRecord, decl_Name, decl_Pos, registryKind, declLeaves.
  - rewrite fold_fields_types. unfold RegisterType. cbn [types].
    by rewrite gomap_lookup_store_eq, gomap_store_store.
  - rewrite fold_variants_types. unfold RegisterType. cbn [types].
    by rewrite gomap_lookup_store_eq, gomap_store_store.
  - rewrite addTypeDependencies_types. unfold RegisterType. cbn [types].
    by rewrite gomap_lookup_store_eq, gomap_store_store.
  - reflexivity.
Qed.

(** The registry of a tree is the table obtained by storing the record of
    each declaration in turn. *)
Lemma buildTypeRegistry_types module :
  types (buildTypeRegistry module) =
  fold_left
    (fun table entry =>
       gomap_store (qualifyName (decl_Name (snd entry)) (fst entry))
         (declRecord (fst entry) (snd entry)) table)
    (moduleDeclarations module) [].
Proof.
  unfold buildTypeRegistry, moduleDeclarations.
  rewrite processModuleForRegistry_files.
  enough (Hgen : forall files reg,
    types (fold_left (registerFile "") files reg) =
    fold_left
      (fun table entry =>
         gomap_store (qualifyName (decl_Name (snd entry)) (fst entry))
           (declRecord (fst entry) (snd entry)) table)
      (flat_map (fun entry => map (fun decl => (fst entry, decl))
                                (Declarations (snd entry))) files)
      (types reg)) by apply Hgen.
  induction files as [| [p prog] files IH]; intros reg;
    cbn [fold_left flat_map]; [reflexivity|].
  rewrite IH, fold_left_app. f_equal.
  unfold registerFile, joinPath. cbn [fst snd String.eqb].
  enough (Hd : forall decls reg',
    types (fold_left (fun reg decl => registerDeclaration reg p decl) decls reg') =
    fold_left
      (fun table entry =>
         gomap_store (qualifyName (decl_Name (snd entry)) (fst entry))
           (declRecord (fst entry) (snd entry)) table)
      (map (fun decl => (p, decl)) decls) (types reg'))
    by (rewrite Hd; reflexivity).
  induction decls as [| d decls IHd]; intros reg';
    cbn [fold_left map]; [reflexivity|].
  by rewrite IHd, registerDeclaration_types.
Qed.

Lemma store_table_invariant (P : string * TypeInfo -> Prop)
    (decls : list (string * Declaration)) :
  (forall entry, In entry decls ->
     P (qualifyName (decl_Name (snd entry)) (fst entry),
        declRecord (fst entry) (snd entry))) ->
  forall table,
    List.NoDup (gomap_keys table) -> Forall P table ->
    let table' :=
      fold_left
        (fun table entry =>
           gomap_store (qualifyName (decl_Name (snd entry)) (fst entry))
             (declRecord (fst entry) (snd entry)) table)
        decls table in
    List.NoDup (gomap_keys table') /\ Forall P table'
    /\ (length table' <= length table + length decls)%nat.
Proof.
  induction decls as [| d decls IH]; intros HP table Hnd Hall; cbn [fold_left].
  - cbn zeta. repeat split; [done | done | simpl; lia].
  - cbn zeta.
    destruct (IH (fun e He => HP e (or_intror He))
                (gomap_store (qualifyName (decl_Name (snd d)) (fst d))
                   (declRecord (fst d) (snd d)) table)) as (H1 & H2 & H3).
    + by apply gomap_store_NoDup.
    + apply List.Forall_forall. intros [k v] Hin.
      apply gomap_store_In in Hin as [[-> ->] | Hin].
      * apply HP. by left.
      * rewrite List.Forall_forall in Hall. by apply Hall.
    + repeat split; [done | done |].
      pose proof (gomap_store_length (qualifyName (decl_Name (snd d)) (fst d))
                    (declRecord (fst d) (snd d)) table).
      simpl. lia.
Qed.

(** X1.  [RegisterType] followed by [FindType] is a round trip: the record
    found under the name and file just registered is the new one, with no
    dependencies, whatever was registered under that key before; the name
    then exists from every file; and no other key of the registry is
    touched. *)
Theorem RegisterType_round_trip r name declType file line column :
  let r' := RegisterType r name declType file line column in
  FindType r' name file = Some (mkTypeInfo name declType file line column [])
  /\ (forall cur, TypeExists r' name cur = true)
  /\ (forall k, k <> qualifyName name file ->
        gomap_lookup k (types r') = gomap_lookup k (types r)).
Proof.
  cbn zeta. split; [|split].
  - unfold FindType, RegisterType. cbn [types].
    by rewrite gomap_lookup_store_eq.
  - intros cur. apply TypeExists_true_iff. right. right.
    exists (qualifyName name file). split.
    + apply RegisterType_keys. by left.
    + apply HasSuffix_qualifyName.
  - intros k Hne. unfold RegisterType. cbn [types].
    by apply gomap_lookup_store_ne.
Qed.

(** X2.  [addTypeDependencies] appends the names the type expression refers
    to, from left to right, to the dependencies of the record of
    [fromType] in [file], and changes nothing else; when that record does
    not exist, the registry is left as it is. *)
Theorem addTypeDependencies_appends_leaves r fromType typeNode file :
  let q := qualifyName fromType file in
  let r' := addTypeDependencies r fromType typeNode file in
  (gomap_lookup q (types r) = None -> r' = r)
  /\ (forall info, gomap_lookup q (types r) = Some info ->
        gomap_lookup q (types r')
        = Some (withDependencies info
                  (Dependencies info ++ namedLeaves typeNode)%list))
  /\ (forall k, k <> q -> gomap_lookup k (types r') = gomap_lookup k (types r))
  /\ gomap_keys (types r') = gomap_keys (types r).
Proof.
  cbn zeta.
  pose proof (addTypeDependencies_types typeNode r fromType file) as Ht.
  pose proof (addTypeDependencies_currentFile typeNode r fromType file) as Hc.
  destruct (gomap_lookup (qualifyName fromType file) (types r)) as [info|] eqn:E.
  - split; [discriminate|]. split; [|split].
    + intros info' [= <-]. by rewrite Ht, gomap_lookup_store_eq.
    + intros k Hne. rewrite Ht. by apply gomap_lookup_store_ne.
    + rewrite Ht. apply gomap_store_keys_present.
      apply gomap_lookup_Some_In. eauto.
  - split; [|split; [discriminate | split]].
    + intros _. destruct (addTypeDependencies r fromType typeNode file), r.
      simpl in *. congruence.
    + intros k _. by rewrite Ht.
    + by rewrite Ht.
Qed.

(** X3.  Registering a declaration leaves, under the key of its name and
    file, the record of that declaration alone: its kind, its position and
    exactly the names it refers to.  A declaration that repeats a name of
    its file therefore replaces the earlier record, dependencies included;
    the other keys keep their records. *)
Theorem registerDeclaration_overwrites r fullPath decl :
  let r' := registerDeclaration r fullPath decl in
  FindType r' (decl_Name decl) fullPath = Some (declRecord fullPath decl)
  /\ (forall k, k <> qualifyName (decl_Name decl) fullPath ->
        gomap_lookup k (types r') = gomap_lookup k (types r))
  /\ (forall decl', decl_Name decl' = decl_Name decl ->
        types (registerDeclaration (registerDeclaration r fullPath decl') fullPath decl)
        = types r').
Proof.
  cbn zeta. split; [|split].
  - unfold FindType. by rewrite registerDeclaration_types, gomap_lookup_store_eq.
  - intros k Hne. rewrite registerDeclaration_types.
    by apply gomap_lookup_store_ne.
  - intros decl' Hname. rewrite !registerDeclaration_types, Hname.
    apply gomap_store_store.
Qed.

(** X4.  The registry built from a module tree is well formed: no key
    occurs twice, every record sits under the key formed from its own name
    and file and is of one of the four kinds, every record is the record
    of some declaration of the tree, and there are at most as many records
    as declarations. *)
Theorem buildTypeRegistry_records module :
  let r := buildTypeRegistry module in
  registry_wf r
  /\ Forall (fun entry =>
               exists path decl,
                 In (path, decl) (moduleDeclarations module)
                 /\ fst entry = qualifyName (decl_Name decl) path
                 /\ snd entry = declRecord path decl) (types r)
  /\ (length (types r) <= length (moduleDeclarations module))%nat.
Proof.
  cbn zeta. unfold registry_wf. rewrite buildTypeRegistry_types.
  destruct (store_table_invariant
              (fun entry =>
                 (fst entry = qualifyName (ti_Name (snd entry)) (ti_File (snd entry))
                  /\ In (DeclType (snd entry)) ["struct"; "enum"; "alias"; "constant"])
                 /\ exists path decl,
                      In (path, decl) (moduleDeclarations module)
                      /\ fst entry = qualifyName (decl_Name decl) path
                      /\ snd entry = declRecord path decl)
              (moduleDeclarations module)) with (table := @nil (string * TypeInfo))
    as (Hnd & Hall & Hlen).
  - intros [path decl] Hin. cbn [fst snd]. split; [split|].
    + reflexivity.
    + unfold declRecord. cbn [DeclType].
      destruct decl; cbn [registryKind]; simpl; auto.
    + by exists path, decl.
  - constructor.
  - constructor.
  - split; [split|split]; [done | | | simpl in Hlen; lia].
    + eapply List.Forall_impl; [|exact Hall]. by intros e [? _].
    + eapply List.Forall_impl; [|exact Hall]. by intros e [_ ?].
Qed.

(** ** The cycles that the search reports *)

Lemma chain_tail r a rest : chain r (a :: rest) -> chain r rest.
Proof. destruct rest as [| b rest]; [done | by intros [_ ?]]. Qed.

Lemma chain_skipn r i : forall path, chain r path -> chain r (List.skipn i path).
Proof.
  induction i as [| i IH]; intros [| a path] Hc; simpl; try done.
  apply IH. by eapply chain_tail.
Qed.

Lemma chain_snoc r a b : forall path,
  chain r (path ++ [a]) -> dependsOn r a b -> chain r ((path ++ [a]) ++ [b]).
Proof.
  induction path as [| x path IH]; intros Hc Hd.
  - simpl. by split.
  - destruct path as [| y path].
    + simpl in *. destruct Hc as [Hxa _]. by repeat split.
    + destruct Hc as [Hxy Hrest]. split; [exact Hxy|]. by apply IH.
Qed.

Lemma cycleStart_Some path q i :
  cycleStart path q = Some i ->
  exists post, List.skipn i path = q :: post /\ (i < length path)%nat.
Proof.
  revert i. induction path as [| p path IH]; intros i; simpl; [discriminate|].
  destruct (String.eqb p q) eqn:E.
  - apply String.eqb_eq in E. intros [= <-]. exists path. subst. split; [done | lia].
  - destruct (cycleStart path q) as [j|]; [|discriminate].
    intros [= <-]. destruct (IH j eq_refl) as (post & Hs & Hlt).
    exists post. split; [exact Hs | lia].
Qed.

Lemma dependenciesLoop_sound r descend typeName file prefix :
  (forall q visited recStack cycle visited' recStack',
     descend q visited recStack = Some (Some cycle, visited', recStack') ->
     chain r ((prefix ++ [typeName]) ++ [q]) -> closedChain r cycle) ->
  chain r (prefix ++ [typeName]) ->
  forall ds visited recStack cycle visited' recStack',
    (forall dep, In dep ds -> dependsOn r typeName (qualifyName dep file)) ->
    dependenciesLoop descend typeName file (prefix ++ [typeName]) ds visited recStack
    = Some (Some cycle, visited', recStack') ->
    closedChain r cycle.
Proof.
  intros Hdescend Hchain.
  induction ds as [| dep rest IH]; intros visited recStack cycle visited' recStack' Hdeps;
    cbn [dependenciesLoop]; [discriminate|].
  assert (Hrest : forall d, In d rest -> dependsOn r typeName (qualifyName d file))
    by (intros d Hd; apply Hdeps; by right).
  assert (Hedge : dependsOn r typeName (qualifyName dep file))
    by (apply Hdeps; by left).
  destruct (negb (flag visited (qualifyName dep file))).
  - destruct (descend (qualifyName dep file) visited recStack)
      as [[[[c|] v'] rs']|] eqn:E; [| |discriminate].
    + intros [= <- <- <-]. eapply Hdescend; [exact E|]. by apply chain_snoc.
    + by apply IH.
  - destruct (flag recStack (qualifyName dep file)); [|by apply IH].
    destruct (cycleStart (prefix ++ [typeName]) (qualifyName dep file)) as [i|] eqn:Ei;
      [|by apply IH].
    intros [= <- <- <-].
    destruct (cycleStart_Some _ _ _ Ei) as (post & Hskip & Hlt). split.
    + replace (List.skipn i (prefix ++ [typeName]) ++ [qualifyName dep file])%list
        with (List.skipn i ((prefix ++ [typeName]) ++ [qualifyName dep file])).
      * apply chain_skipn. by apply chain_snoc.
      * rewrite List.skipn_app.
        replace (i - length (prefix ++ [typeName]))%nat with O by lia. reflexivity.
    + exists (qualifyName dep file), post. by rewrite Hskip.
Qed.

Lemma detectCycle_sound r fuel :
  forall typeName visited recStack path cycle visited' recStack',
    detectCycle fuel r typeName visited recStack path
    = Some (Some cycle, visited', recStack') ->
    chain r (path ++ [typeName]) -> closedChain r cycle.
Proof.
  induction fuel as [| fuel IH];
    intros typeName visited recStack path cycle visited' recStack';
    [discriminate|].
  cbn [detectCycle].
  destruct (gomap_lookup typeName (types r)) as [typeInfo|] eqn:El; [|discriminate].
  intros Hd Hchain.
  eapply (dependenciesLoop_sound r _ typeName (ti_File typeInfo) path);
    [| exact Hchain | | exact Hd].
  - intros q v rs c v' rs' Hq Hc. eapply IH; [exact Hq | exact Hc].
  - intros dep Hdep. by exists typeInfo, dep.
Qed.

Lemma cyclesFrom_sound r fuel :
  forall names visited recStack cycles found,
    cyclesFrom fuel r names visited recStack cycles = Some found ->
    Forall (cycleReport r) cycles -> Forall (cycleReport r) found.
Proof.
  induction names as [| n names IH]; intros visited recStack cycles found;
    cbn [cyclesFrom].
  - by intros [= <-].
  - destruct (negb (flag visited n)); [|apply IH].
    destruct (detectCycle fuel r n visited recStack [])
      as [[[[c|] v'] rs']|] eqn:E; [| apply IH | discriminate].
    intros Hf Hall. eapply IH; [exact Hf|].
    apply Forall_app. split; [exact Hall|]. constructor; [|constructor].
    exists c. split; [reflexivity|]. eapply detectCycle_sound; [exact E | done].
Qed.

Lemma closedChain_edge r cycle :
  closedChain r cycle -> exists a b, dependsOn r a b.
Proof.
  intros [Hc (q & mid & ->)]. destruct mid as [| x mid]; simpl in Hc.
  - exists q, q. by destruct Hc.
  - exists q, x. by destruct Hc.
Qed.

Lemma ValidateCircularDependencies_reports r :
  Forall (cycleReport r) (ValidateCircularDependencies r).
Proof.
  unfold ValidateCircularDependencies, ValidateCircularDependencies_fuel.
  destruct (cyclesFrom (S (length (reachableNames r))) r (gomap_keys (types r)) ∅ ∅ [])
    as [found|] eqn:E; [|constructor].
  eapply cyclesFrom_sound; [exact E | constructor].
Qed.

(** X5.  What [ValidateCircularDependencies] reports is a cycle of the
    registry: each reported text is the [" -> "]-joined path of a chain of
    recorded dependencies that ends in the name it starts with.  A registry
    without dependencies therefore yields no report. *)
Theorem reported_cycles_are_cycles r :
  Forall (cycleReport r) (ValidateCircularDependencies r)
  /\ ((forall a b, ~ dependsOn r a b) -> ValidateCircularDependencies r = []).
Proof.
  pose proof (ValidateCircularDependencies_reports r) as Hall.
  split; [exact Hall|]. intros Hnone.
  destruct (ValidateCircularDependencies r) as [| s rest]; [reflexivity|].
  inversion Hall as [| ? ? (cycle & _ & Hc) _]; subst.
  destruct (closedChain_edge r cycle Hc) as (a & b & Hab). by destruct (Hnone a b).
Qed.

(** ** A type that depends on itself *)

Lemma dependenciesLoop_grows descend typeName file path :
  (forall q visited recStack out visited' recStack',
     descend q visited recStack = Some (out, visited', recStack') ->
     grows (<[q := true]> visited) visited') ->
  forall ds visited recStack out visited' recStack',
    dependenciesLoop descend typeName file path ds visited recStack
    = Some (out, visited', recStack') ->
    grows visited visited'.
Proof.
  intros Hdescend. induction ds as [| dep rest IH];
    intros visited recStack out visited' recStack'; cbn [dependenciesLoop].
  - intros [= <- <- <-]. apply grows_refl.
  - destruct (negb (flag visited (qualifyName dep file))).
    + destruct (descend (qualifyName dep file) visited recStack)
        as [[[[c|] v'] rs']|] eqn:E; [| |discriminate].
      * intros [= <- <- <-].
        eapply grows_trans; [apply grows_insert | by eapply Hdescend].
      * intros Hrest. eapply grows_trans; [apply grows_insert|].
        eapply grows_trans; [by eapply Hdescend | by eapply IH].
    + destruct (flag recStack (qualifyName dep file)); [|apply IH].
      destruct (cycleStart path (qualifyName dep file)); [|apply IH].
      intros [= <- <- <-]. apply grows_refl.
Qed.

Lemma detectCycle_grows r fuel :
  forall typeName visited recStack path out visited' recStack',
    detectCycle fuel r typeName visited recStack path = Some (out, visited', recStack') ->
    grows (<[typeName := true]> visited) visited'.
Proof.
  induction fuel as [| fuel IH];
    intros typeName visited recStack path out visited' recStack'; [discriminate|].
  cbn [detectCycle].
  destruct (gomap_lookup typeName (types r)) as [typeInfo|].
  - apply dependenciesLoop_grows. intros q v rs o v' rs'. apply IH.
  - intros [= <- <- <-]. apply grows_refl.
Qed.

(** A call that finds no cycle leaves the [recStack] flag of every name
    visited before it as it was. *)
Lemma dependenciesLoop_recStack descend typeName file path k :
  (forall q visited recStack out visited' recStack',
     descend q visited recStack = Some (out, visited', recStack') ->
     grows (<[q := true]> visited) visited') ->
  (forall q visited recStack visited' recStack',
     descend q visited recStack = Some (None, visited', recStack') ->
     q <> k -> flag visited k = true -> flag recStack' k = flag recStack k) ->
  typeName <> k ->
  forall ds visited recStack visited' recStack',
    dependenciesLoop descend typeName file path ds visited recStack
    = Some (None, visited', recStack') ->
    flag visited k = true -> flag recStack' k = flag recStack k.
Proof.
  intros Hgrows Hdescend Hne. induction ds as [| dep rest IH];
    intros visited recStack visited' recStack'; cbn [dependenciesLoop].
  - intros [= <- <-] _. by apply flag_insert_ne.
  - destruct (flag visited (qualifyName dep file)) eqn:Ev; cbn [negb].
    + destruct (flag recStack (qualifyName dep file)); [|apply IH].
      destruct (cycleStart path (qualifyName dep file)); [discriminate | apply IH].
    + destruct (descend (qualifyName dep file) visited recStack)
        as [[[[c|] v'] rs']|] eqn:E; [discriminate | | discriminate].
      intros Hrest Hk.
      assert (Hq : qualifyName dep file <> k) by (intros <-; congruence).
      rewrite (IH _ _ _ _ Hrest).
      * by eapply Hdescend.
      * eapply Hgrows; [exact E|]. by rewrite flag_insert_ne.
Qed.

Lemma detectCycle_recStack r fuel k :
  forall typeName visited recStack path visited' recStack',
    detectCycle fuel r typeName visited recStack path = Some (None, visited', recStack') ->
    typeName <> k -> flag visited k = true -> flag recStack' k = flag recStack k.
Proof.
  induction fuel as [| fuel IH];
    intros typeName visited recStack path visited' recStack'; [discriminate|].
  cbn [detectCycle]. intros Hd Hne Hk.
  destruct (gomap_lookup typeName (types r)) as [typeInfo|].
  - rewrite (dependenciesLoop_recStack _ _ _ _ k
               (fun q v rs o v' rs' => detectCycle_grows r fuel q v rs _ o v' rs')
               (fun q v rs v' rs' => IH q v rs _ v' rs') Hne _ _ _ _ _ Hd).
    + by apply flag_insert_ne.
    + by rewrite flag_insert_ne.
  - injection Hd as <- <-. by rewrite !flag_insert_ne.
Qed.

Lemma cycleStart_In path q : In q path -> cycleStart path q <> None.
Proof.
  induction path as [| p path IH]; simpl; [intros []|].
  destruct (String.eqb p q) eqn:E; [done|].
  apply String.eqb_neq in E. intros [? | Hin]; [done|].
  destruct (cycleStart path q); [done | by apply IH in Hin].
Qed.

Lemma cyclesFrom_extends r fuel :
  forall names visited recStack cycles found,
    cyclesFrom fuel r names visited recStack cycles = Some found ->
    cycles <> [] -> found <> [].
Proof.
  induction names as [| n names IH]; intros visited recStack cycles found;
    cbn [cyclesFrom].
  - by intros [= <-].
  - destruct (negb (flag visited n)); [|apply IH].
    destruct (detectCycle fuel r n visited recStack [])
      as [[[[c|] v'] rs']|]; [| apply IH | discriminate].
    intros Hf _. eapply IH; [exact Hf|]. by destruct cycles.
Qed.

Section SelfDependency.

Variable r : TypeRegistry.
Variables (k dep : string) (info : TypeInfo).
Hypothesis registered : gomap_lookup k (types r) = Some info.
Hypothesis depends : In dep (Dependencies info).
Hypothesis on_itself : qualifyName dep (ti_File info) = k.

(** Inside the call for [k], the loop over its dependencies cannot run to
    its end: at [dep] at the latest it finds [k] visited and on the stack. *)
Lemma dependenciesLoop_self fuel prefix :
  forall ds visited recStack out visited' recStack',
    In dep ds ->
    flag visited k = true -> flag recStack k = true ->
    dependenciesLoop
      (fun q visited recStack => detectCycle fuel r q visited recStack (prefix ++ [k]))
      k (ti_File info) (prefix ++ [k]) ds visited recStack
    = Some (out, visited', recStack') ->
    out <> None.
Proof.
  induction ds as [| dep0 rest IH]; intros visited recStack out visited' recStack';
    [intros []|].
  intros Hin Hv Hrs. cbn [dependenciesLoop].
  destruct (decide (qualifyName dep0 (ti_File info) = k)) as [-> | Hne].
  - rewrite Hv, Hrs. cbn [negb].
    destruct (cycleStart (prefix ++ [k]) k) as [i|] eqn:Ei.
    + by intros [= <- _ _].
    + exfalso. apply (cycleStart_In (prefix ++ [k]) k); [|exact Ei].
      apply in_or_app. right. by left.
  - assert (Hrest : In dep rest).
    { destruct Hin as [-> | ?]; [by rewrite on_itself in Hne | done]. }
    destruct (flag visited (qualifyName dep0 (ti_File info))) eqn:Ev; cbn [negb].
    + destruct (flag recStack (qualifyName dep0 (ti_File info))); [|by apply IH].
      destruct (cycleStart (prefix ++ [k]) (qualifyName dep0 (ti_File info)));
        [by intros [= <- _ _] | by apply IH].
    + destruct (detectCycle fuel r (qualifyName dep0 (ti_File info)) visited recStack
                  (prefix ++ [k])) as [[[[c|] v'] rs']|] eqn:E;
        [by intros [= <- _ _] | | discriminate].
      apply IH; [exact Hrest | |].
      * eapply detectCycle_grows; [exact E|]. by rewrite flag_insert_ne.
      * by rewrite (detectCycle_recStack r fuel k _ _ _ _ _ _ E Hne Hv).
Qed.

Lemma detectCycle_self fuel visited recStack path out visited' recStack' :
  detectCycle fuel r k visited recStack path = Some (out, visited', recStack') ->
  out <> None.
Proof.
  destruct fuel as [| fuel]; [discriminate|]. cbn [detectCycle].
  rewrite registered. apply dependenciesLoop_self; [exact depends | |];
    apply flag_insert_eq.
Qed.

(** A call for another name that finds no cycle has not visited [k]. *)
Lemma dependenciesLoop_unvisited descend typeName file path :
  (forall q visited recStack visited' recStack',
     descend q visited recStack = Some (None, visited', recStack') ->
     flag visited k = false -> flag visited' k = false) ->
  forall ds visited recStack visited' recStack',
    dependenciesLoop descend typeName file path ds visited recStack
    = Some (None, visited', recStack') ->
    flag visited k = false -> flag visited' k = false.
Proof.
  intros Hdescend. induction ds as [| dep0 rest IH];
    intros visited recStack visited' recStack'; cbn [dependenciesLoop].
  - by intros [= <- _].
  - destruct (negb (flag visited (qualifyName dep0 file))).
    + destruct (descend (qualifyName dep0 file) visited recStack)
        as [[[[c|] v'] rs']|] eqn:E; [discriminate | | discriminate].
      intros Hrest Hk. eapply IH; [exact Hrest|]. by eapply Hdescend.
    + destruct (flag recStack (qualifyName dep0 file)); [|apply IH].
      destruct (cycleStart path (qualifyName dep0 file)); [discriminate | apply IH].
Qed.

Lemma detectCycle_unvisited fuel :
  forall typeName visited recStack path visited' recStack',
    detectCycle fuel r typeName visited recStack path = Some (None, visited', recStack') ->
    flag visited k = false -> flag visited' k = false.
Proof.
  induction fuel as [| fuel IH];
    intros typeName visited recStack path visited' recStack'; [discriminate|].
  intros Hd Hk.
  destruct (decide (typeName = k)) as [-> | Hne].
  { by destruct (detectCycle_self _ _ _ _ _ _ _ Hd). }
  cbn [detectCycle] in Hd.
  destruct (gomap_lookup typeName (types r)) as [typeInfo|].
  - eapply dependenciesLoop_unvisited; [| exact Hd | by rewrite flag_insert_ne].
    intros q v rs v' rs'. apply IH.
  - injection Hd as <- _. by rewrite flag_insert_ne.
Qed.

Lemma cyclesFrom_self fuel :
  forall names visited recStack cycles found,
    cyclesFrom fuel r names visited recStack cycles = Some found ->
    flag visited k = false -> In k names -> found <> [].
Proof.
  induction names as [| n names IH]; intros visited recStack cycles found;
    cbn [cyclesFrom]; [intros _ _ []|].
  intros Hf Hk Hin.
  destruct (flag visited n) eqn:Ev; cbn [negb] in Hf.
  - eapply IH; [exact Hf | exact Hk|]. destruct Hin as [-> | ?]; [congruence | done].
  - destruct (detectCycle fuel r n visited recStack [])
      as [[[[c|] v'] rs']|] eqn:E; [| | discriminate].
    + eapply cyclesFrom_extends; [exact Hf|]. by destruct cycles.
    + destruct Hin as [-> | Hin]; [by destruct (detectCycle_self _ _ _ _ _ _ _ E)|].
      eapply IH; [exact Hf | | exact Hin]. by eapply detectCycle_unvisited.
Qed.

(** X6.  A registered type one of whose recorded dependencies, qualified
    with the file of its record, is its own key is always reported:
    [ValidateCircularDependencies] returns at least one cycle, in whatever
    order the registry is enumerated. *)
Theorem self_dependency_reported : ValidateCircularDependencies r <> [].
Proof.
  unfold ValidateCircularDependencies, ValidateCircularDependencies_fuel.
  destruct (cyclesFrom_enough r (S (length (reachableNames r))) ltac:(lia)
              (gomap_keys (types r)) ∅ ∅ []) as [found Hfound].
  { intros n Hn. unfold reachableNames. apply in_or_app. by left. }
  rewrite Hfound. cbn [default from_option]. eapply cyclesFrom_self; [exact Hfound | done |].
  apply gomap_lookup_Some_In. eauto.
Qed.

End SelfDependency.

Lemma self_dependency_reported_witness :
  let at_ := mkBaseNode (mkPosition "tree.tg" 1 1) in
  let treeNode :=
    StructNode at_ "TreeNode"
      [mkFieldNode at_ "value" (PrimitiveType at_ "string") false;
       mkFieldNode at_ "children" (ArrayType at_ (NamedType at_ "TreeNode")) false] in
  let tree := mkModule "test" "test" [("tree.tg", mkProgramNode at_ [] [treeNode])] [] in
  ValidateCircularDependencies (buildTypeRegistry tree) <> [].
Proof.
  cbn zeta.
  apply (self_dependency_reported _ "tree.tg::TreeNode" "TreeNode"
           (mkTypeInfo "TreeNode" "struct" "tree.tg" 1 1 ["TreeNode"]));
    [reflexivity | left; reflexivity | reflexivity].
Defined.

Lemma reachableNames_length r :
  length (reachableNames r)
  = (length (types r)
     + length (concat (map (fun entry => Dependencies (snd entry)) (types r))))%nat.
Proof.
  unfold reachableNames, gomap_keys. rewrite length_app, length_map. f_equal.
  induction (types r) as [| e entries IH]; simpl; [reflexivity|].
  by rewrite !length_app, length_map, IH.
Qed.

(** X7.  The cycle search terminates: its recursion is never deeper than
    the number of records plus the number of recorded dependencies, and
    with any allowance above that it returns the list that
    [ValidateCircularDependencies] stands for. *)
Theorem cycle_search_terminates r fuel :
  (length (types r)
   + length (concat (map (fun entry => Dependencies (snd entry)) (types r)))
   < fuel)%nat ->
  ValidateCircularDependencies_fuel fuel r = Some (ValidateCircularDependencies r).
Proof.
  intros Hfuel. apply ValidateCircularDependencies_fuel_enough.
  by rewrite reachableNames_length.
Qed.

Lemma cycle_search_terminates_witness :
  let r :=
    {| types :=
         [("a.tg::A", mkTypeInfo "A" "struct" "a.tg" 1 1 ["B"]);
          ("a.tg::B", mkTypeInfo "B" "struct" "a.tg" 5 1 ["A"; "C"])];
       currentFile := "a.tg" |} in
  ValidateCircularDependencies_fuel 6 r = Some (ValidateCircularDependencies r)
  /\ ValidateCircularDependencies r = ["a.tg::A -> a.tg::B -> a.tg::A"].
Proof.
  cbn zeta. split; [|vm_compute; reflexivity].
  apply cycle_search_terminates. simpl. lia.
Defined.

(** ** The naming rules *)

Ltac ascii_cases c :=
  destruct c as [[] [] [] [] [] [] [] []]; vm_compute; try reflexivity; try discriminate.

Lemma is_lower_not_upper c : is_lower c = true -> is_upper c = false.
Proof. ascii_cases c. Qed.

Lemma all_chars_app p a b : all_chars p (a +:+ b) = all_chars p a && all_chars p b.
Proof.
  induction a as [| c a IH]; simpl; [reflexivity|]. by rewrite IH, andb_assoc.
Qed.

Lemma all_chars_and p q s :
  all_chars p s && all_chars q s = all_chars (fun c => p c && q c) s.
Proof.
  induction s as [| c s IH]; simpl; [reflexivity|]. rewrite <- IH.
  destruct (p c), (q c), (all_chars p s), (all_chars q s); reflexivity.
Qed.

Lemma all_chars_ext p q s : (forall c, p c = q c) -> all_chars p s = all_chars q s.
Proof. intros Hpq. induction s as [| c s IH]; simpl; [reflexivity|]. by rewrite Hpq, IH. Qed.

Lemma all_chars_impl (p q : ascii -> bool) s :
  (forall c, p c = true -> q c = true) -> all_chars p s = true -> all_chars q s = true.
Proof.
  intros Hpq. induction s as [| c s IH]; simpl; [done|].
  intros [Hc Hs]%andb_true_iff. by rewrite (Hpq c Hc), IH.
Qed.

(** X8.  The naming conventions for members and for types exclude one
    another: no name is snake_case and PascalCase, or snake_case and
    CONSTANT_CASE; a name is both PascalCase and CONSTANT_CASE exactly when
    it is an upper-case letter followed by upper-case letters and digits. *)
Theorem naming_conventions_exclusive (s : string) :
  IsValidSnakeCase s && IsValidPascalCase s = false
  /\ IsValidSnakeCase s && IsValidConstantCase s = false
  /\ IsValidPascalCase s && IsValidConstantCase s =
     match s with
     | EmptyString => false
     | String c s' => is_upper c && all_chars (fun d => is_upper d || is_digit d) s'
     end.
Proof.
  destruct s as [| c s]; [done|]. unfold IsValidSnakeCase, IsValidPascalCase,
    IsValidConstantCase.
  split; [|split].
  - destruct (is_lower c) eqn:E; [|reflexivity].
    by rewrite (is_lower_not_upper c E), andb_false_r.
  - destruct (is_lower c) eqn:E; [|reflexivity].
    by rewrite (is_lower_not_upper c E), andb_false_r.
  - destruct (is_upper c); [|reflexivity]. cbn [andb].
    rewrite all_chars_and. apply all_chars_ext. intros d. ascii_cases d.
Qed.

(** ** Module names, segment by segment *)

Lemma append_cons c a b : String c a +:+ b = String c (a +:+ b).
Proof. reflexivity. Qed.
Lemma append_nil_l b : "" +:+ b = b.
Proof. reflexivity. Qed.

Lemma HasPrefix_char (d c : ascii) s : HasPrefix (String c s) (String d "") = Ascii.eqb d c.
Proof. cbn [HasPrefix]. destruct (Ascii.eqb d c); [by destruct s | reflexivity]. Qed.

Lemma split_dot_app a : forall cur b,
  split_go "." (a +:+ "." +:+ b) 0 cur
  = (split_go "." a 0 cur ++ split_go "." b 0 "")%list.
Proof.
  induction a as [| c a IH]; intros cur b.
  - rewrite append_nil_l, append_cons, append_nil_l.
    cbn [split_go]. by rewrite HasPrefix_char.
  - rewrite append_cons. cbn [split_go]. rewrite !HasPrefix_char.
    destruct (Ascii.eqb "." c); cbn [String.length Nat.sub]; by rewrite IH.
Qed.

Lemma append_nil_r s : s +:+ "" = s.
Proof. induction s as [| c s IH]; [done | by rewrite append_cons, IH]. Qed.

Lemma append_assoc a b c : (a +:+ b) +:+ c = a +:+ b +:+ c.
Proof. induction a as [| d a IH]; [done | by rewrite !append_cons, IH]. Qed.

Lemma split_dot_free s : forall cur,
  all_chars notDot s = true -> split_go "." s 0 cur = [cur +:+ s].
Proof.
  induction s as [| c s IH]; intros cur; cbn [all_chars split_go].
  - intros _. by rewrite append_nil_r.
  - intros [Hc Hs]%andb_true_iff. unfold notDot in Hc.
    rewrite HasPrefix_char, Ascii.eqb_sym. destruct (Ascii.eqb c "."); [discriminate|].
    rewrite IH by exact Hs. by rewrite append_assoc.
Qed.

Lemma IsValidModuleName_Split name :
  IsValidModuleName name = forallb IsValidSnakeCase (Split name ".").
Proof. unfold IsValidModuleName. by destruct name. Qed.

Lemma snake_case_notDot s : IsValidSnakeCase s = true -> all_chars notDot s = true.
Proof.
  destruct s as [| c s]; [discriminate|]. unfold IsValidSnakeCase. cbn [all_chars].
  intros [Hc Hs]%andb_true_iff. apply andb_true_iff. split.
  - revert Hc. ascii_cases c.
  - revert Hs. apply all_chars_impl. intros d. ascii_cases d.
Qed.

(** X9.  A module name is checked segment by segment: a name made of two
    names joined by a dot is valid exactly when both are, a name without a
    dot is valid exactly when it is snake_case, and so the path that the
    grammar builds for an import from its identifiers is valid exactly
    when each of them is. *)
Theorem module_name_by_segments :
  (forall a b,
     IsValidModuleName (a +:+ "." +:+ b) = IsValidModuleName a && IsValidModuleName b)
  /\ (forall s, all_chars notDot s = true -> IsValidModuleName s = IsValidSnakeCase s)
  /\ (forall s, IsValidSnakeCase s = true -> IsValidModuleName s = true)
  /\ (forall first rest,
        IsValidModuleName (dottedName first rest)
        = forallb IsValidModuleName (first :: rest)).
Proof.
  assert (Hdot : forall a b,
    IsValidModuleName (a +:+ "." +:+ b) = IsValidModuleName a && IsValidModuleName b).
  { intros a b. rewrite !IsValidModuleName_Split. unfold Split.
    by rewrite split_dot_app, forallb_app. }
  assert (Hfree : forall s,
    all_chars notDot s = true -> IsValidModuleName s = IsValidSnakeCase s).
  { intros s Hs. rewrite IsValidModuleName_Split. unfold Split.
    rewrite split_dot_free by exact Hs. simpl. apply andb_true_r. }
  split; [exact Hdot | split; [exact Hfree | split]].
  - intros s Hs. rewrite Hfree; [exact Hs | by apply snake_case_notDot].
  - intros first rest. revert first.
    induction rest as [| ident rest IH]; intros first; cbn [dottedName fold_left forallb].
    + by rewrite andb_true_r.
    + fold (dottedName (first +:+ "." +:+ ident) rest).
      rewrite IH. cbn [forallb]. by rewrite Hdot, andb_assoc.
Qed.

(** ** Keywords, identifiers and primitive names *)

Lemma Keywords_primitive name :
  IsValidPrimitiveType name = true ->
  exists token, Keywords !! name = Some token /\ primitive_type token = Some name.
Proof.
  intros Hin%IsValidPrimitiveType_spec. unfold primitiveNames in Hin. simpl in Hin.
  repeat (destruct Hin as [<- | Hin]; [eexists; split; vm_compute; reflexivity|]).
  destruct Hin.
Qed.

Lemma primitive_notDot name :
  IsValidPrimitiveType name = true -> all_chars notDot name = true.
Proof.
  intros Hin%IsValidPrimitiveType_spec. unfold primitiveNames in Hin. simpl in Hin.
  repeat (destruct Hin as [<- | Hin]; [reflexivity|]). destruct Hin.
Qed.

Lemma dottedName_dot rest : forall first,
  all_chars notDot first = false \/ rest <> [] ->
  all_chars notDot (dottedName first rest) = false.
Proof.
  induction rest as [| ident rest IH]; intros first Hor; cbn [dottedName fold_left].
  - by destruct Hor.
  - apply IH. left. rewrite !all_chars_app.
    replace (all_chars notDot ".") with false by reflexivity.
    by rewrite andb_false_r.
Qed.

(** X10.  The keyword table of the lexer and the primitive types of the
    grammar agree: the name the grammar gives the node of a primitive
    token is the keyword that lexes to that token.  Of the names the
    parser produces in this way the validator rejects exactly [int],
    [bigint], [nat], [bignat], [decimal], [timetz], [datetz] and
    [datetimetz].  Every name the validator accepts is a keyword with a
    primitive token, so it is never lexed as an identifier. *)
Theorem primitive_keywords :
  (forall token name,
     primitive_type token = Some name ->
     lexIdent name = (token, None)
     /\ (IsValidPrimitiveType name = false <-> In name unsupportedPrimitives))
  /\ (forall name,
        IsValidPrimitiveType name = true ->
        exists token, lexIdent name = (token, None) /\ primitive_type token = Some name).
Proof.
  split.
  - intros token name Hp.
    destruct token; try discriminate Hp; injection Hp as <-;
      (split; [vm_compute; reflexivity|]);
      (split; [intros Hv; first [discriminate Hv | vm_compute; tauto]
              | intros Hin; first [vm_compute; reflexivity
                                  | exfalso; simpl in Hin;
                                    repeat (destruct Hin as [Hin | Hin];
                                            [discriminate Hin|]); exact Hin]]).
  - intros name Hv. destruct (Keywords_primitive name Hv) as (token & Hk & Hp).
    exists token. unfold lexIdent. by rewrite Hk.
Qed.

(** X11.  A name that the parser can put in a named type, an identifier
    or identifiers joined by dots, is never a recognized primitive: the
    lexer turns every such word into a keyword token.  For these names
    [TypeExists] never takes its primitive branch and answers exactly
    whether [FindType] finds a record. *)
Theorem parsed_name_resolves_in_registry first rest :
  Forall (fun ident => lexIdent ident = (IDENTIFIER, Some ident)) (first :: rest) ->
  IsValidPrimitiveType (dottedName first rest) = false
  /\ forall r cur,
       TypeExists r (dottedName first rest) cur
       = bool_decide (is_Some (FindType r (dottedName first rest) cur)).
Proof.
  intros Hids.
  assert (Hp : IsValidPrimitiveType (dottedName first rest) = false).
  { destruct (IsValidPrimitiveType (dottedName first rest)) eqn:E; [|reflexivity].
    destruct rest as [| ident rest].
    - inversion Hids as [| ? ? Hfirst _]; subst.
      destruct (Keywords_primitive first E) as (token & Hk & _).
      unfold lexIdent in Hfirst. rewrite Hk in Hfirst. discriminate.
    - apply primitive_notDot in E.
      rewrite dottedName_dot in E; [discriminate | by right]. }
  split; [exact Hp|]. intros r cur. by rewrite FindType_registry, Hp.
Qed.

Lemma parsed_name_resolves_in_registry_witness :
  let r := RegisterType NewTypeRegistry "User" "struct" "models/user.tg" 3 1 in
  IsValidPrimitiveType (dottedName "models" ["User"]) = false
  /\ TypeExists r (dottedName "models" ["User"]) "api.tg" = false
  /\ TypeExists r (dottedName "User" []) "api.tg" = true.
Proof.
  cbn zeta.
  destruct (parsed_name_resolves_in_registry "models" ["User"]) as [Hp Hr].
  { repeat constructor. }
  destruct (parsed_name_resolves_in_registry "User" []) as [_ Hr'].
  { repeat constructor. }
  split; [exact Hp|]. rewrite Hr, Hr'. split; vm_compute; reflexivity.
Defined.

(** ** Constants *)

Lemma constantCaseTail_valid s : forall afterUnderscore,
  constantCaseTail afterUnderscore s = true ->
  all_chars (fun d => is_upper d || is_digit d || is_underscore d) s = true.
Proof.
  induction s as [| c s IH]; intros afterUnderscore; cbn [constantCaseTail all_chars];
    [done|].
  destruct (is_upper c || is_digit c) eqn:E.
  - intros Hs. rewrite (IH _ Hs). cbn [orb andb]. reflexivity.
  - destruct (is_underscore c); [|discriminate].
    intros [_ Hs]%andb_true_iff. rewrite (IH _ Hs). by rewrite orb_true_r.
Qed.

(** X12.  The parser's rule for constant names is stricter than the
    validator's: a name that [IsConstantCase] accepts, the only kind that
    [const_decl] lets through, is also valid for [IsValidConstantCase], so
    validating a constant that the parser produced adds no error. *)
Theorem parsed_constant_adds_no_error `{CaseConversion} base name value decl :
  const_decl base name value = Some decl ->
  IsValidConstantCase name = true
  /\ decl = ConstantNode base name (Some value)
  /\ forall filename res, validateConstant base name (Some value) filename res = res.
Proof.
  unfold const_decl. destruct (IsConstantCase name) eqn:E; [|discriminate].
  cbn [negb]. intros [= <-].
  assert (Hv : IsValidConstantCase name = true).
  { destruct name as [| c s]; [discriminate|]. unfold IsConstantCase in E.
    apply andb_true_iff in E as [Hc Hs]. unfold IsValidConstantCase.
    by rewrite Hc, (constantCaseTail_valid _ _ Hs). }
  split; [exact Hv | split; [reflexivity|]].
  intros filename res. unfold validateConstant. by rewrite Hv.
Qed.

Lemma parsed_constant_adds_no_error_witness :
  let base := mkBaseNode (mkPosition "limits.tg" 4 1) in
  (IsValidConstantCase "MAX_RETRIES" = true
   /\ const_decl base "MAX_RETRIES" (IntConstant base 3)
      = Some (ConstantNode base "MAX_RETRIES" (Some (IntConstant base 3))))
  /\ const_decl base "MAX__RETRIES" (IntConstant base 3) = None
  /\ IsValidConstantCase "MAX__RETRIES" = true.
Proof.
  cbn zeta. split; [|split; reflexivity].
  destruct (parsed_constant_adds_no_error (H := asciiCase)
              (mkBaseNode (mkPosition "limits.tg" 4 1)) "MAX_RETRIES"
              (IntConstant (mkBaseNode (mkPosition "limits.tg" 4 1)) 3)
              (ConstantNode (mkBaseNode (mkPosition "limits.tg" 4 1)) "MAX_RETRIES"
                 (Some (IntConstant (mkBaseNode (mkPosition "limits.tg" 4 1)) 3))))
    as (Hv & _ & _); [reflexivity|].
  split; [exact Hv | reflexivity].
Defined.

(** ** The suggested names *)

Lemma all_chars_map_chars p f s : all_chars p (map_chars f s) = all_chars (fun c => p (f c)) s.
Proof. induction s as [| c s IH]; simpl; [reflexivity | by rewrite IH]. Qed.

Lemma camelToSnake_chars s : forall i,
  all_chars (fun d => is_lower d || is_upper d || is_digit d || is_underscore d) s = true ->
  all_chars (fun d => is_lower d || is_digit d || is_underscore d)
    (ascii_camelToSnake_from i s) = true.
Proof.
  induction s as [| c s IH]; intros i; cbn [all_chars ascii_camelToSnake_from]; [done|].
  intros [Hc Hs]%andb_true_iff.
  assert (Hlow : (fun d => is_lower d || is_digit d || is_underscore d) (ascii_toLower c) = true)
    by (revert Hc; ascii_cases c).
  destruct ((0 <? i)%nat && is_upper c); cbn [all_chars];
    rewrite ?Hlow, (IH _ Hs); reflexivity.
Qed.

Lemma split_underscore_parts s : forall cur,
  all_chars (fun d => is_lower d || is_upper d || is_digit d || is_underscore d) s = true ->
  all_chars (fun d => is_lower d || is_upper d || is_digit d) cur = true ->
  Forall (fun part => all_chars (fun d => is_lower d || is_upper d || is_digit d) part = true)
    (split_go "_" s 0 cur).
Proof.
  induction s as [| c s IH]; intros cur; cbn [all_chars split_go].
  - intros _ Hcur. by constructor.
  - intros [Hc Hs]%andb_true_iff Hcur. rewrite HasPrefix_char.
    destruct (Ascii.eqb "_" c) eqn:E; cbn [String.length Nat.sub].
    + constructor; [exact Hcur | by apply IH].
    + apply IH; [exact Hs|]. rewrite all_chars_app, Hcur. cbn [all_chars andb].
      rewrite andb_true_r. revert Hc E. ascii_cases c.
Qed.

Lemma split_underscore_head s : forall cur,
  exists part rest, split_go "_" s 0 cur = (cur +:+ part) :: rest.
Proof.
  induction s as [| c s IH]; intros cur; cbn [split_go].
  - exists "", []. by rewrite append_nil_r.
  - rewrite HasPrefix_char. destruct (Ascii.eqb "_" c); cbn [String.length Nat.sub].
    + exists "". eexists. by rewrite append_nil_r.
    + destruct (IH (cur +:+ String c "")) as (part & rest & ->).
      exists (String c part), rest. by rewrite append_assoc.
Qed.

Lemma snakeToPascal_parts parts :
  Forall (fun part => all_chars (fun d => is_lower d || is_upper d || is_digit d) part = true)
    parts ->
  all_chars (fun d => is_lower d || is_upper d || is_digit d)
    (fold_right
       (fun part acc =>
          match part with
          | EmptyString => acc
          | String c rest => String (ascii_toUpper c) (map_chars ascii_toLower rest) +:+ acc
          end)
       EmptyString parts) = true.
Proof.
  induction 1 as [| part parts Hpart _ IH]; cbn [fold_right]; [reflexivity|].
  destruct part as [| c rest]; [exact IH|].
  rewrite append_cons. cbn [all_chars] in *.
  apply andb_true_iff in Hpart as [Hc Hrest].
  rewrite all_chars_app, IH, all_chars_map_chars, andb_true_r.
  apply andb_true_iff. split.
  - revert Hc. ascii_cases c.
  - revert Hrest. apply all_chars_impl. intros d. ascii_cases d.
Qed.

(** X13.  On an identifier written in ASCII, where the case tables are
    those of the letters [A-Z] and [a-z], every suggested name satisfies
    the convention it is suggested for: [SuggestSnakeCase] returns a
    snake_case name, [SuggestPascalCase] a PascalCase name and
    [SuggestConstantCase] a CONSTANT_CASE name. *)
Theorem ascii_suggestions_are_valid (s : string) :
  asciiIdentifier s = true ->
  IsValidSnakeCase (SuggestSnakeCase (H := asciiCase) s) = true
  /\ IsValidPascalCase (SuggestPascalCase (H := asciiCase) s) = true
  /\ IsValidConstantCase (SuggestConstantCase (H := asciiCase) s) = true.
Proof.
  destruct s as [| c s]; [discriminate|]. unfold asciiIdentifier.
  intros [Hc Hs]%andb_true_iff.
  assert (Hsnake : IsValidSnakeCase (SuggestSnakeCase (H := asciiCase) (String c s)) = true).
  { unfold SuggestSnakeCase.
    destruct (IsValidSnakeCase (String c s)) eqn:E; [exact E|].
    cbn [camelToSnake asciiCase ascii_camelToSnake_from Nat.ltb Nat.leb andb IsValidSnakeCase].
    rewrite (camelToSnake_chars s 1 Hs), andb_true_r. revert Hc. ascii_cases c. }
  split; [exact Hsnake | split].
  - unfold SuggestPascalCase.
    destruct (IsValidPascalCase (String c s)) eqn:E; [exact E|].
    cbn [snakeToPascal asciiCase]. unfold ascii_snakeToPascal, Split.
    pose proof (split_underscore_parts (String c s) ""
                  ltac:(cbn [all_chars]; rewrite Hs, andb_true_r;
                        revert Hc; ascii_cases c) eq_refl) as Hparts.
    assert (Hnot : Ascii.eqb "_" c = false) by (revert Hc; ascii_cases c).
    cbn [split_go] in *. rewrite HasPrefix_char, Hnot in *.
    destruct (split_underscore_head s ("" +:+ String c "")) as (part & rest & Heq).
    rewrite Heq in *. rewrite append_nil_l, append_cons, append_nil_l in *.
    inversion Hparts as [| ? ? Hfirst Hrest]; subst.
    cbn [fold_right]. rewrite append_cons. unfold IsValidPascalCase.
    cbn [all_chars] in Hfirst. apply andb_true_iff in Hfirst as [_ Hpart].
    rewrite all_chars_app, (snakeToPascal_parts rest Hrest), all_chars_map_chars,
      andb_true_r.
    apply andb_true_iff. split.
    + revert Hc. ascii_cases c.
    + revert Hpart. apply all_chars_impl. intros d. ascii_cases d.
  - unfold SuggestConstantCase.
    destruct (IsValidConstantCase (String c s)) eqn:E; [exact E|].
    cbn [toUpper asciiCase].
    destruct (SuggestSnakeCase (H := asciiCase) (String c s)) as [| d t];
      [discriminate Hsnake|].
    unfold IsValidSnakeCase in Hsnake. apply andb_true_iff in Hsnake as [Hd Ht].
    cbn [map_chars]. unfold IsValidConstantCase. rewrite all_chars_map_chars.
    apply andb_true_iff. split.
    + revert Hd. ascii_cases d.
    + revert Ht. apply all_chars_impl. intros e. ascii_cases e.
Qed.

Lemma ascii_suggestions_are_valid_witness :
  (SuggestSnakeCase (H := asciiCase) "userName" = "user_name"
   /\ SuggestPascalCase (H := asciiCase) "user_profile" = "UserProfile"
   /\ SuggestConstantCase (H := asciiCase) "maxRetries" = "MAX_RETRIES")
  /\ IsValidSnakeCase (SuggestSnakeCase (H := asciiCase) "HTTPServer_v2") = true.
Proof.
  split; [repeat split; vm_compute; reflexivity|].
  by destruct (ascii_suggestions_are_valid "HTTPServer_v2" eq_refl) as [Hs _].
Defined.

(** ** Where the errors point *)

Lemma LogsAll_id P : LogsAll P (fun res => res).
Proof. exists []. split; [apply Logs_id | constructor]. Qed.

Lemma LogsAll_AddError (P : ValidationError -> Prop) ty m f l c sg :
  P (mkValidationError ty m f l c sg) -> LogsAll P (fun res => AddError res ty m f l c sg).
Proof. intros HP. eexists. split; [apply Logs_AddError | by repeat constructor]. Qed.

Lemma LogsAll_comp P f g : LogsAll P f -> LogsAll P g -> LogsAll P (fun res => g (f res)).
Proof.
  intros (e1 & H1 & F1) (e2 & H2 & F2). exists (e1 ++ e2)%list.
  split; [by apply Logs_comp | by apply Forall_app].
Qed.

Lemma LogsAll_impl (P Q : ValidationError -> Prop) f :
  (forall e, P e -> Q e) -> LogsAll P f -> LogsAll Q f.
Proof.
  intros HPQ (e & Hl & Hf). exists e. split; [done|].
  eapply List.Forall_impl; [exact HPQ | exact Hf].
Qed.

Lemma LogsAll_ext P f g : (forall res, f res = g res) -> LogsAll P f -> LogsAll P g.
Proof. intros Heq (e & Hl & Hf). exists e. split; [|done]. intros res. by rewrite <- Heq. Qed.

Lemma LogsAll_fold {A} P (f : A -> ValidationResult -> ValidationResult) (items : list A) :
  (forall a, In a items -> LogsAll P (f a)) ->
  LogsAll P (fun res => fold_left (fun res a => f a res) items res).
Proof.
  induction items as [| a items IH]; intros Hf; simpl; [apply LogsAll_id|].
  apply (LogsAll_comp P (f a) (fun res => fold_left (fun res a => f a res) items res)).
  - apply Hf. by left.
  - apply IH. intros b Hb. apply Hf. by right.
Qed.

Lemma dupLoop_all {A} P (name : A -> string)
    (pre post : A -> ValidationResult -> ValidationResult)
    (dup : A -> A -> ValidationResult -> ValidationResult) (items : list A) :
  (forall a, In a items -> LogsAll P (pre a)) ->
  (forall a, In a items -> LogsAll P (post a)) ->
  (forall a existing, In a items -> LogsAll P (dup a existing)) ->
  forall seen,
    LogsAll P
      (fun res => snd (fold_left (fun st a => dupStep name pre post dup a st) items (seen, res))).
Proof.
  induction items as [| a items IH]; intros Hpre Hpost Hdup seen; simpl;
    [apply LogsAll_id|].
  assert (Ha : In a (a :: items)) by (by left).
  assert (IH' : forall seen',
    LogsAll P (fun res => snd (fold_left (fun st a => dupStep name pre post dup a st)
                                 items (seen', res)))).
  { apply IH; intros; [apply Hpre | apply Hpost | apply Hdup]; by right. }
  destruct (seen !! name a) as [existing|] eqn:Ea.
  - apply (LogsAll_comp P
             (fun res => post a (dup a existing (pre a res)))
             (fun res => snd (fold_left (fun st a => dupStep name pre post dup a st) items (seen, res))));
      [|apply IH'].
    apply (LogsAll_comp P (fun res => dup a existing (pre a res)) (post a));
      [|by apply Hpost].
    apply (LogsAll_comp P (pre a) (dup a existing)); [by apply Hpre | by apply Hdup].
  - apply (LogsAll_comp P (fun res => post a (pre a res))
             (fun res => snd (fold_left (fun st a => dupStep name pre post dup a st) items
                                (<[name a := a]> seen, res))));
      [|apply IH'].
    apply (LogsAll_comp P (pre a) (post a)); [by apply Hpre | by apply Hpost].
Qed.

Lemma validateType_located r typeNode filename line column positions :
  In (line, column) positions ->
  LogsAll (locatedIn filename positions) (validateType r typeNode filename line column).
Proof.
  intros Hin.
  assert (Hadd : forall ty m sg,
    LogsAll (locatedIn filename positions)
      (fun res => AddError res ty m filename line column sg)).
  { intros ty m sg. apply LogsAll_AddError. by split. }
  induction typeNode as [b n | b n | b e IHe | b k IHk v IHv | b e IHe];
    cbn [validateType].
  - unfold validatePrimitiveType.
    destruct (negb (IsValidPrimitiveType n)); [apply Hadd | apply LogsAll_id].
  - unfold validateNamedType.
    destruct (negb (TypeExists r n filename)); [apply Hadd | apply LogsAll_id].
  - exact IHe.
  - apply (LogsAll_comp _
             (fun res => validateType r k filename line column
                           (checkMapKey k filename line column res))
             (validateType r v filename line column)); [|exact IHv].
    apply (LogsAll_comp _ (checkMapKey k filename line column)
             (validateType r k filename line column)); [|exact IHk].
    unfold checkMapKey. destruct k as [kb kn | | | |]; try apply Hadd.
    destruct (negb (IsValidMapKeyType kn)); [apply Hadd | apply LogsAll_id].
  - apply (LogsAll_comp _ (checkDoubleOptional e filename line column)
             (validateType r e filename line column)); [|exact IHe].
    unfold checkDoubleOptional. destruct e; try apply LogsAll_id. apply Hadd.
Qed.

Section ErrorPositions.
Context `{CaseConversion}.

Lemma namingCheck_located (P : ValidationError -> Prop) (bad : bool) m f l c sg :
  P (mkValidationError NamingConventionError m f l c sg) ->
  LogsAll P (fun res => if bad then AddError res NamingConventionError m f l c sg else res).
Proof. intros HP. destruct bad; [by apply LogsAll_AddError | apply LogsAll_id]. Qed.

Lemma LogsAll_after P (g : ValidationResult -> ValidationResult)
    (bad : bool) m f l c sg :
  LogsAll P g ->
  P (mkValidationError NamingConventionError m f l c sg) ->
  LogsAll P (fun res => g (if bad then AddError res NamingConventionError m f l c sg else res)).
Proof.
  intros Hg HP.
  apply (LogsAll_comp P
           (fun res => if bad then AddError res NamingConventionError m f l c sg else res)
           g); [by apply namingCheck_located | exact Hg].
Qed.

Lemma validateStruct_located r b name fields filename :
  LogsAll (locatedIn filename (declPositions (StructNode b name fields)))
    (validateStruct r b name fields filename).
Proof.
  unfold validateStruct.
  apply (LogsAll_after _ (fun res => snd (fold_left _ fields (∅, res))));
    [|split; [reflexivity | by left]].
  eapply LogsAll_ext.
  { intros res. symmetry.
    apply (f_equal snd
             (fold_left_ext _ _ _ _
                (fun st f => validateField_dupStep r filename f st))). }
  assert (Hpos : forall a, In a fields ->
    In (nodeAt (Pos (field_base a))) (declPositions (StructNode b name fields))).
  { intros a Ha. right. by apply (in_map (fun f => nodeAt (Pos (field_base f)))). }
  apply dupLoop_all.
  - intros a Ha. apply namingCheck_located. split; [reflexivity | by apply Hpos].
  - intros a Ha. apply validateType_located. by apply Hpos.
  - intros a existing Ha. apply LogsAll_AddError. split; [reflexivity | by apply Hpos].
Qed.

Lemma validateEnum_located r b name variants filename :
  LogsAll (locatedIn filename (declPositions (EnumNode b name variants)))
    (validateEnum r b name variants filename).
Proof.
  unfold validateEnum.
  apply (LogsAll_after _ (fun res => snd (fold_left _ variants (∅, res))));
    [|split; [reflexivity | by left]].
  eapply LogsAll_ext.
  { intros res. symmetry.
    apply (f_equal snd
             (fold_left_ext _ _ _ _
                (fun st v => validateEnumVariant_dupStep r filename v st))). }
  assert (Hpos : forall a, In a variants ->
    In (nodeAt (Pos (variant_base a))) (declPositions (EnumNode b name variants))).
  { intros a Ha. right. by apply (in_map (fun v => nodeAt (Pos (variant_base v)))). }
  apply dupLoop_all.
  - intros a Ha. apply namingCheck_located. split; [reflexivity | by apply Hpos].
  - intros a Ha. unfold variantPayloadCheck.
    destruct (variant_Payload a); [|apply LogsAll_id].
    apply validateType_located. by apply Hpos.
  - intros a existing Ha. apply LogsAll_AddError. split; [reflexivity | by apply Hpos].
Qed.

Lemma declCheck_located r filename decl :
  LogsAll (locatedIn filename (declPositions decl)) (declCheck r filename decl).
Proof.
  destruct decl as [b name fields | b name variants | b name t | b name value];
    cbn [declCheck].
  - apply validateStruct_located.
  - apply validateEnum_located.
  - unfold validateTypeAlias.
    apply (LogsAll_after _ (validateType r t filename _ _));
      [|split; [reflexivity | by left]].
    apply validateType_located. by left.
  - unfold validateConstant. destruct value.
    + apply (LogsAll_after _ (fun res => res));
        [apply LogsAll_id | split; [reflexivity | by left]].
    + apply (LogsAll_after _ (fun res => AddError res InvalidConstantError _ _ _ _ _));
        [|split; [reflexivity | by left]].
      apply LogsAll_AddError. split; [reflexivity | by left].
Qed.

Lemma locatedIn_incl filename positions positions' e :
  incl positions positions' ->
  locatedIn filename positions e -> locatedIn filename positions' e.
Proof. intros Hi [Hf Hp]. split; [exact Hf | by apply Hi]. Qed.

Lemma validateProgram_located r program filename :
  LogsAll (locatedIn filename (programPositions program))
    (validateProgram r program filename).
Proof.
  unfold validateProgram.
  apply (LogsAll_comp _
           (fun res => fold_left (fun res imp => validateImport imp filename res)
                         (Imports program) res)
           (fun res => snd (fold_left
                              (fun st decl => validateDeclaration r decl filename st)
                              (Declarations program) (∅, res)))).
  - apply (LogsAll_fold _ (fun imp res => validateImport imp filename res)).
    intros imp Himp. unfold validateImport.
    destruct (negb (IsValidModuleName (import_Path imp))); [|apply LogsAll_id].
    apply LogsAll_AddError. split; [reflexivity|].
    apply in_or_app. left.
    by apply (in_map (fun imp => nodeAt (Pos (import_base imp)))).
  - eapply LogsAll_ext.
    { intros res. symmetry.
      apply (f_equal snd
               (fold_left_ext _ _ _ _
                  (fun st d => validateDeclaration_dupStep r filename d st))). }
    assert (Hpos : forall decl, In decl (Declarations program) ->
      incl (declPositions decl) (programPositions program)).
    { intros decl Hd p Hp. apply in_or_app. right. apply in_flat_map. by exists decl. }
    apply dupLoop_all.
    + intros decl Hd. eapply LogsAll_impl; [|apply declCheck_located].
      intros e. apply locatedIn_incl. by apply Hpos.
    + intros decl Hd. apply LogsAll_id.
    + intros decl existing Hd. apply LogsAll_AddError.
      split; [reflexivity|]. apply (Hpos decl Hd). by left.
Qed.

(** X14.  Every error that validating a file adds carries the path of
    that file and the line and column of one of its nodes: an import, a
    declaration, a field or a variant.  An error about a type expression
    carries the position of the field, variant or alias it belongs to. *)
Theorem errors_point_into_the_file r program filename :
  exists errs,
    (forall res, validateProgram r program filename res = appendErrors res errs)
    /\ Forall (locatedIn filename (programPositions program)) errs
    /\ forall typeNode line column,
         Forall (fun e => File e = filename /\ err_Line e = line /\ err_Column e = column)
           (typeErrors r typeNode filename line column).
Proof.
  destruct (validateProgram_located r program filename) as (errs & Hl & Hall).
  exists errs. split; [exact Hl | split; [exact Hall|]].
  intros typeNode line column.
  destruct (validateType_located r typeNode filename line column [(line, column)])
    as (errs' & Hl' & Hall'); [by left|].
  rewrite (Logs_unique _ _ _ (validateType_Logs r typeNode filename line column) Hl').
  eapply List.Forall_impl; [|exact Hall'].
  intros e [Hf [[= <- <-] | []]]. by repeat split.
Qed.

End ErrorPositions.

Section ValidatePositions.
Context `{CaseConversion}.

Lemma reportCycle_unlocated cycle :
  LogsAll (unlocated [NamingConventionError; CircularDependencyError])
    (fun res => reportCycle res cycle).
Proof.
  unfold reportCycle.
  destruct (Split cycle " -> ") as [| firstType rest]; [apply LogsAll_id|].
  destruct (Split firstType "::") as [| file [| name [| ? ?]]]; try apply LogsAll_id.
  apply LogsAll_AddError. repeat split. right. by left.
Qed.

(** X15.  Every error that [Validate] returns either carries the path of a
    file of the module tree and the position of a node of that file, or
    carries line 0 and column 0 and is the naming error of a submodule
    directory or the report of a cycle. *)
Theorem Validate_error_positions v module :
  Forall
    (fun e =>
       (exists path program,
          In (path, program) (moduleFiles module "")
          /\ locatedIn path (programPositions program) e)
       \/ unlocated [NamingConventionError; CircularDependencyError] e)
    (Errors (snd (Validate v module))).
Proof.
  unfold Validate. cbn [snd]. rewrite validateModule_walk.
  unfold validateCircularDependencies.
  destruct (LogsAll_fold
              (fun e =>
                 (exists path program,
                    In (path, program) (moduleFiles module "")
                    /\ locatedIn path (programPositions program) e)
                 \/ unlocated [NamingConventionError; CircularDependencyError] e)
              (fun ev res => walkStep (buildTypeRegistry module) res ev)
              (moduleWalk module "")) as (e1 & Hl1 & F1).
  { intros [path program | subModuleName basePath] Hev; cbn [walkStep].
    - eapply LogsAll_impl; [|apply validateProgram_located].
      intros e He. left. exists path, program. split; [|exact He].
      rewrite <- walkFiles_moduleWalk. by apply walkFiles_In.
    - unfold checkSubModuleName.
      destruct (negb (IsValidSnakeCase subModuleName)); [|apply LogsAll_id].
      apply LogsAll_AddError. right. repeat split. by left. }
  destruct (LogsAll_fold
              (unlocated [NamingConventionError; CircularDependencyError])
              (fun cycle res => reportCycle res cycle)
              (ValidateCircularDependencies (buildTypeRegistry module))
              (fun cycle _ => reportCycle_unlocated cycle)) as (e2 & Hl2 & F2).
  rewrite Hl2, Hl1. cbn [Errors appendErrors NewValidationResult app].
  apply Forall_app. split; [exact F1|].
  eapply List.Forall_impl; [|exact F2]. intros e He. by right.
Qed.

End ValidatePositions.

Section Imports.
Context `{CaseConversion}.

Lemma validateImports_Logs filename imports :
  Logs (fun res => fold_left (fun res imp => validateImport imp filename res) imports res)
    (importErrors filename imports).
Proof.
  induction imports as [| imp imports IH]; cbn [fold_left importErrors flat_map];
    [apply Logs_id|].
  apply (Logs_comp (validateImport imp filename)
           (fun res => fold_left (fun res imp => validateImport imp filename res)
                         imports res)); [|exact IH].
  intros res. unfold validateImport.
  destruct (IsValidModuleName (import_Path imp)); cbn [negb];
    [by rewrite appendErrors_nil | reflexivity].
Qed.

Lemma declarations_kinds r filename decls seen :
  LogsOnly (DuplicateTypeError :: declKinds)
    (fun res => snd (fold_left (fun st decl => validateDeclaration r decl filename st)
                       decls (seen, res))).
Proof.
  eapply LogsOnly_ext.
  { intros res. symmetry.
    apply (f_equal snd
             (fold_left_ext _ _ _ _
                (fun st d => validateDeclaration_dupStep r filename d st))). }
  apply dupLoop_kinds.
  - intros a. eapply LogsOnly_incl; [|apply declCheck_kinds]. intros ty Hty. by right.
  - intros a. apply LogsOnly_id.
  - intros a existing. apply LogsOnly_AddError. by left.
Qed.

(** X16.  The imports of a file are checked first and on their own: the
    errors of a file are one [InvalidImportError] for each import path that
    is not a valid module name, in the order of the imports, followed by
    the errors of the same file without its imports.  The registry and the
    declarations have no part in the former, the imports none in the
    latter, which holds no [InvalidImportError]. *)
Theorem imports_checked_on_their_own r program filename res :
  Errors (validateProgram r program filename res)
  = (Errors res ++ importErrors filename (Imports program)
     ++ Errors (validateProgram r (withoutImports program) filename NewValidationResult))%list
  /\ errorsOfType InvalidImportError
       (Errors (validateProgram r (withoutImports program) filename NewValidationResult))
     = [].
Proof.
  destruct (declarations_kinds r filename (Declarations program) ∅)
    as (errs & Hl & Hk).
  assert (Hdecl : Errors (validateProgram r (withoutImports program) filename
                            NewValidationResult) = errs).
  { unfold validateProgram, withoutImports. cbn [Imports Declarations fold_left].
    by rewrite Hl. }
  rewrite Hdecl. split.
  - unfold validateProgram. rewrite Hl, validateImports_Logs.
    cbn [Errors appendErrors]. by rewrite app_assoc.
  - destruct (LogsOnly_Silent (DuplicateTypeError :: declKinds) InvalidImportError
                (fun res => snd (fold_left
                                   (fun st decl => validateDeclaration r decl filename st)
                                   (Declarations program) (∅, res))))
      as (errs' & Hl' & Hs).
    + unfold declKinds. simpl. intuition discriminate.
    + by exists errs.
    + by rewrite (Logs_unique _ _ _ Hl Hl').
Qed.

End Imports.

(** ** Which names resolve *)

Lemma sliceFrom_prefix n : forall s,
  (n <= String.length s)%nat -> exists p, s = p +:+ sliceFrom n s.
Proof.
  induction n as [| n IH]; intros s Hn.
  - exists "". by destruct s.
  - destruct s as [| c s]; [simpl in Hn; lia|].
    destruct (IH s) as [p Hp]; [simpl in Hn; lia|].
    exists (String c p). rewrite append_cons. cbn [sliceFrom]. by rewrite <- Hp.
Qed.

Lemma HasSuffix_split s suffix :
  HasSuffix s suffix = true -> exists p, s = p +:+ suffix.
Proof.
  unfold HasSuffix. intros [Hlen Heq]%andb_true_iff.
  apply Nat.leb_le in Hlen. apply String.eqb_eq in Heq.
  destruct (sliceFrom_prefix (String.length s - String.length suffix) s) as [p Hp];
    [lia|].
  exists p. by rewrite Heq in Hp.
Qed.

Lemma last_colon a : forall c b d,
  a +:+ String ":" b = c +:+ String ":" d ->
  all_chars notColon b = true -> all_chars notColon d = true -> b = d.
Proof.
  induction a as [| x a IH]; intros [| y c] b d.
  - rewrite !append_nil_l. by intros [= ->].
  - rewrite append_nil_l, append_cons. intros [= <- ->] Hb _.
    rewrite all_chars_app in Hb. cbn [all_chars] in Hb.
    replace (notColon ":") with false in Hb by reflexivity.
    rewrite andb_false_r in Hb. discriminate.
  - rewrite append_nil_l, append_cons. intros [= -> <-] _ Hd.
    rewrite all_chars_app in Hd. cbn [all_chars] in Hd.
    replace (notColon ":") with false in Hd by reflexivity.
    rewrite andb_false_r in Hd. discriminate.
  - rewrite !append_cons. intros [= _ Heq]. exact (IH c b d Heq).
Qed.

Lemma qualified_suffix_name p file declName name :
  qualifyName declName file = p +:+ "::" +:+ name ->
  all_chars notColon declName = true -> all_chars notColon name = true ->
  declName = name.
Proof.
  unfold qualifyName. intros Heq Hd Hn.
  apply (last_colon (file +:+ ":") (p +:+ ":")); [|exact Hd | exact Hn].
  rewrite (append_assoc file ":" (String ":" declName)),
    (append_assoc p ":" (String ":" name)).
  exact Heq.
Qed.

Lemma moduleDeclarations_In module path decl :
  In (path, decl) (moduleDeclarations module)
  <-> exists program, In (path, program) (moduleFiles module "")
                      /\ In decl (Declarations program).
Proof.
  unfold moduleDeclarations. rewrite in_flat_map. split.
  - intros ([p program] & Hin & Hd). apply in_map_iff in Hd as (d & [= <- <-] & Hd).
    by exists program.
  - intros (program & Hin & Hd). exists (path, program). split; [exact Hin|].
    apply in_map_iff. by exists decl.
Qed.

Lemma TypeExists_declared module name cur :
  all_chars notColon name = true ->
  Forall (fun entry => all_chars notColon (decl_Name (snd entry)) = true)
    (moduleDeclarations module) ->
  TypeExists (buildTypeRegistry module) name cur = true
  <-> IsValidPrimitiveType name = true
      \/ exists path decl,
           In (path, decl) (moduleDeclarations module) /\ decl_Name decl = name.
Proof.
  intros Hname Hdecls. rewrite List.Forall_forall in Hdecls.
  rewrite TypeExists_true_iff. split.
  - intros [Hp | [Hk | (k & Hk & Hs)]]; [by left | |].
    + right. apply buildTypeRegistry_keys in Hk as (path & program & decl & Hf & Hd & Hq).
      assert (Hin : In (path, decl) (moduleDeclarations module))
        by (apply moduleDeclarations_In; by exists program).
      exists path, decl. split; [exact Hin|].
      symmetry in Hq. unfold qualifyName in Hq at 2.
      apply (qualified_suffix_name cur path); [exact Hq | | exact Hname].
      apply (Hdecls _ Hin).
    + right. apply buildTypeRegistry_keys in Hk as (path & program & decl & Hf & Hd & ->).
      assert (Hin : In (path, decl) (moduleDeclarations module))
        by (apply moduleDeclarations_In; by exists program).
      exists path, decl. split; [exact Hin|].
      apply HasSuffix_split in Hs as [p Hp].
      apply (qualified_suffix_name p path); [exact Hp | | exact Hname].
      apply (Hdecls _ Hin).
  - intros [Hp | (path & decl & Hin & <-)]; [by left|]. right. right.
    exists (qualifyName (decl_Name decl) path). split.
    + apply moduleDeclarations_In in Hin as (program & Hf & Hd).
      apply buildTypeRegistry_keys. by exists path, program, decl.
    + apply HasSuffix_qualifyName.
Qed.

(** X17.  Names resolve across the whole tree.  When the names involved
    hold no colon, as the identifiers of the lexer do, a named type is
    accepted exactly when its name is a recognized primitive or the name
    of a declaration in some file of the tree, whatever the file that
    refers to it and whatever that file imports; otherwise it gets exactly
    one [UndefinedTypeError]. *)
Theorem named_type_resolves_tree_wide module base name filename line column :
  all_chars notColon name = true ->
  Forall (fun entry => all_chars notColon (decl_Name (snd entry)) = true)
    (moduleDeclarations module) ->
  let declared :=
    IsValidPrimitiveType name = true
    \/ exists path decl,
         In (path, decl) (moduleDeclarations module) /\ decl_Name decl = name in
  (declared ->
   typeErrors (buildTypeRegistry module) (NamedType base name) filename line column = [])
  /\ (~ declared ->
      typeErrors (buildTypeRegistry module) (NamedType base name) filename line column
      = [mkValidationError UndefinedTypeError ("undefined type '" +:+ name +:+ "'")
           filename line column "define the type or check the spelling"]).
Proof.
  intros Hname Hdecls declared.
  pose proof (TypeExists_declared module name filename Hname Hdecls) as Hiff.
  fold declared in Hiff.
  assert (Herrs : typeErrors (buildTypeRegistry module) (NamedType base name)
                    filename line column
                  = if TypeExists (buildTypeRegistry module) name filename then []
                    else [mkValidationError UndefinedTypeError
                            ("undefined type '" +:+ name +:+ "'")
                            filename line column "define the type or check the spelling"]).
  { apply (Logs_unique (validateType (buildTypeRegistry module) (NamedType base name)
                          filename line column));
      [apply validateType_Logs | apply validateNamedType_Logs]. }
  rewrite Herrs. split.
  - intros Hd. apply Hiff in Hd. by rewrite Hd.
  - intros Hn. destruct (TypeExists (buildTypeRegistry module) name filename) eqn:E;
      [|reflexivity].
    destruct Hn. by apply Hiff.
Qed.

Lemma named_type_resolves_tree_wide_witness :
  let at_ := mkBaseNode (mkPosition "" 2 3) in
  let user := StructNode at_ "User" [mkFieldNode at_ "name" (PrimitiveType at_ "string") false] in
  let post := StructNode at_ "Post" [mkFieldNode at_ "author" (NamedType at_ "User") false] in
  let tree :=
    mkModule "blog" "blog"
      [("post.tg", mkProgramNode at_ [] [post])]
      [("models", mkModule "blog/models" "models"
                    [("user.tg", mkProgramNode at_ [] [user])] [])] in
  typeErrors (buildTypeRegistry tree) (NamedType at_ "User") "post.tg" 2 3 = []
  /\ typeErrors (buildTypeRegistry tree) (NamedType at_ "Comment") "post.tg" 2 3
     = [mkValidationError UndefinedTypeError "undefined type 'Comment'"
          "post.tg" 2 3 "define the type or check the spelling"].
Proof.
  cbn zeta. split.
  - eapply (named_type_resolves_tree_wide _ _ "User");
      [reflexivity | vm_compute; repeat constructor |].
    right. eexists "models/user.tg", _. split; [vm_compute; right; left; reflexivity|].
    reflexivity.
  - eapply (named_type_resolves_tree_wide _ _ "Comment");
      [reflexivity | vm_compute; repeat constructor |].
    intros [Hp | (path & decl & Hin & Hn)]; [vm_compute in Hp; discriminate Hp|].
    vm_compute in Hin. destruct Hin as [Hin | [Hin | []]];
      injection Hin as <- <-; discriminate Hn.
Defined.

Lemma dottedName_chars (p : ascii -> bool) rest : forall first,
  p "."%char = true ->
  Forall (fun ident => all_chars p ident = true) (first :: rest) ->
  all_chars p (dottedName first rest) = true.
Proof.
  induction rest as [| ident rest IH]; intros first Hdot Hall;
    inversion Hall as [| ? ? Hfirst Hrest]; subst; cbn [dottedName fold_left];
    [exact Hfirst|].
  inversion Hrest as [| ? ? Hident Hrest']; subst.
  apply IH; [exact Hdot|]. constructor; [|exact Hrest'].
  rewrite !all_chars_app, Hfirst, Hident. cbn [all_chars]. by rewrite Hdot.
Qed.

(** X18.  A qualified reference is never resolved: the grammar accepts
    [a.B] as the name of a type, but no primitive and no declared name
    holds a dot, so the validator reports every such reference as an
    undefined type, whatever the tree declares. *)
Theorem qualified_reference_undefined module base first rest filename line column :
  rest <> [] ->
  Forall (fun ident => all_chars notColon ident = true) (first :: rest) ->
  Forall (fun entry => all_chars notColon (decl_Name (snd entry)) = true
                       /\ all_chars notDot (decl_Name (snd entry)) = true)
    (moduleDeclarations module) ->
  typeErrors (buildTypeRegistry module) (NamedType base (dottedName first rest))
    filename line column
  = [mkValidationError UndefinedTypeError
       ("undefined type '" +:+ dottedName first rest +:+ "'")
       filename line column "define the type or check the spelling"].
Proof.
  intros Hrest Hidents Hdecls.
  assert (Hdot : all_chars notDot (dottedName first rest) = false)
    by (apply dottedName_dot; by right).
  assert (Hex : TypeExists (buildTypeRegistry module) (dottedName first rest) filename
                = false).
  { destruct (TypeExists _ _ _) eqn:E; [|reflexivity].
    apply TypeExists_declared in E.
    - destruct E as [Hp | (path & decl & Hin & Hn)].
      + apply primitive_notDot in Hp. congruence.
      + rewrite List.Forall_forall in Hdecls.
        destruct (Hdecls _ Hin) as [_ Hd]. cbn [snd] in Hd. congruence.
    - by apply dottedName_chars.
    - eapply List.Forall_impl; [|exact Hdecls]. by intros e [? _]. }
  rewrite (Logs_unique _ _ _
             (validateType_Logs (buildTypeRegistry module)
                (NamedType base (dottedName first rest)) filename line column)
             (validateNamedType_Logs (buildTypeRegistry module)
                (dottedName first rest) filename line column)).
  by rewrite Hex.
Qed.

Lemma qualified_reference_undefined_witness :
  let at_ := mkBaseNode (mkPosition "" 2 3) in
  let user := StructNode at_ "User" [mkFieldNode at_ "name" (PrimitiveType at_ "string") false] in
  let tree :=
    mkModule "blog" "blog" []
      [("models", mkModule "blog/models" "models"
                    [("user.tg", mkProgramNode at_ [] [user])] [])] in
  typeErrors (buildTypeRegistry tree) (NamedType at_ "models.User") "post.tg" 2 3
  = [mkValidationError UndefinedTypeError "undefined type 'models.User'"
       "post.tg" 2 3 "define the type or check the spelling"].
Proof.
  cbn zeta.
  apply (qualified_reference_undefined _ _ "models" ["User"]);
    [discriminate | repeat constructor | vm_compute; repeat constructor].
Defined.

(** ** Grouping the errors by file *)

Lemma gomap_lookup_store {V} (k k' : string) (v : V) (m : GoMap V) :
  gomap_lookup k' (gomap_store k v m)
  = if String.eqb k k' then Some v else gomap_lookup k' m.
Proof.
  destruct (String.eqb k k') eqn:E.
  - apply String.eqb_eq in E. subst. apply gomap_lookup_store_eq.
  - apply String.eqb_neq in E. by apply gomap_lookup_store_ne.
Qed.

Lemma gomap_In_lookup {V} (k : string) (v : V) (m : GoMap V) :
  List.NoDup (gomap_keys m) -> In (k, v) m -> gomap_lookup k m = Some v.
Proof.
  induction m as [| [k' v'] m IH]; simpl; [intros _ []|].
  intros Hnd. inversion Hnd as [| ? ? Hnotin Hnd']; subst.
  intros [[= -> ->] | Hin]; [by rewrite String.eqb_refl|].
  destruct (String.eqb k' k) eqn:E; [|by apply IH].
  apply String.eqb_eq in E. subst k'. destruct Hnotin.
  by apply (in_map fst) in Hin.
Qed.

Lemma groups_fold errs : forall groups file,
  let groups' :=
    fold_left
      (fun groups err =>
         gomap_store (File err)
           (default [] (gomap_lookup (File err) groups) ++ [err])%list groups)
      errs groups in
  default [] (gomap_lookup file groups')
  = (default [] (gomap_lookup file groups)
     ++ List.filter (fun e => String.eqb (File e) file) errs)%list
  /\ (is_Some (gomap_lookup file groups')
      <-> is_Some (gomap_lookup file groups)
          \/ List.filter (fun e => String.eqb (File e) file) errs <> [])
  /\ (List.NoDup (gomap_keys groups) -> List.NoDup (gomap_keys groups')).
Proof.
  induction errs as [| e errs IH]; intros groups file; cbn zeta;
    cbn [fold_left List.filter].
  - rewrite app_nil_r. repeat split; [by left | by intros [? | ?] | done].
  - destruct (IH (gomap_store (File e)
                    (default [] (gomap_lookup (File e) groups) ++ [e])%list groups)
                file) as (Hl & Hs & Hn).
    cbn zeta in Hl, Hs, Hn. rewrite Hl, Hs. clear Hl Hs.
    rewrite gomap_lookup_store.
    destruct (String.eqb (File e) file) eqn:E.
    + apply String.eqb_eq in E. subst file. cbn [default from_option id].
      split; [by rewrite <- app_assoc | split].
      * split; [intros _; by right | intros _; left; by eexists].
      * intros Hnd. by apply Hn, gomap_store_NoDup.
    + split; [reflexivity | split; [reflexivity|]].
      intros Hnd. by apply Hn, gomap_store_NoDup.
Qed.

(** X19.  [GroupedErrors] splits the errors by file without losing or
    reordering any: the group of a file holds exactly the errors of that
    file, in the order they have in [Errors]; a file has a group exactly
    when it has an error; and no file has two groups. *)
Theorem GroupedErrors_by_file (res : ValidationResult) :
  (forall file,
     gomap_lookup file (GroupedErrors res)
     = match List.filter (fun e => String.eqb (File e) file) (Errors res) with
       | [] => None
       | group => Some group
       end)
  /\ List.NoDup (gomap_keys (GroupedErrors res))
  /\ Forall (fun entry =>
               snd entry
               = List.filter (fun e => String.eqb (File e) (fst entry)) (Errors res)
               /\ snd entry <> []) (GroupedErrors res).
Proof.
  assert (Hlookup : forall file,
    gomap_lookup file (GroupedErrors res)
    = match List.filter (fun e => String.eqb (File e) file) (Errors res) with
      | [] => None
      | group => Some group
      end).
  { intros file. destruct (groups_fold (Errors res) [] file) as (Hl & Hs & _).
    cbn zeta in Hl, Hs. fold (GroupedErrors res) in Hl, Hs. cbn [gomap_lookup] in Hl, Hs.
    destruct (gomap_lookup file (GroupedErrors res)) as [group|] eqn:E.
    - cbn [default from_option app] in Hl. rewrite <- Hl.
      destruct group; [|reflexivity].
      destruct Hs as [Hs _]. destruct (Hs ltac:(by eexists)) as [[? [=]] | Hne].
      by rewrite <- Hl in Hne.
    - destruct (List.filter _ (Errors res)) as [| e group]; [reflexivity|].
      destruct Hs as [_ Hs]. destruct Hs as [? [=]]. by right. }
  assert (Hnd : List.NoDup (gomap_keys (GroupedErrors res))).
  { destruct (groups_fold (Errors res) [] "") as (_ & _ & Hn). apply Hn. constructor. }
  split; [exact Hlookup | split; [exact Hnd|]].
  apply List.Forall_forall. intros [file group] Hin. cbn [fst snd].
  apply (gomap_In_lookup _ _ _ Hnd) in Hin. rewrite Hlookup in Hin.
  destruct (List.filter _ (Errors res)) as [| e rest]; [discriminate|].
  injection Hin as <-. by split.
Qed.

(** ** The order that [SortErrors] sorts by *)

Lemma string_lt_iff a b : string_lt a b = true <-> String_as_OT.lt a b.
Proof.
  unfold string_lt, String_as_OT.lt.
  destruct (String_as_OT.compare a b); split; congruence.
Qed.

Lemma SortErrors_less_iff a b :
  SortErrors_less a b = true <->
  String_as_OT.lt (File a) (File b)
  \/ (File a = File b
      /\ (err_Line a < err_Line b
          \/ (err_Line a = err_Line b /\ err_Column a < err_Column b))).
Proof.
  unfold SortErrors_less.
  destruct (String.eqb (File a) (File b)) eqn:Ef; cbn [negb].
  - apply String.eqb_eq in Ef. rewrite Ef.
    assert (Hirr : ~ String_as_OT.lt (File b) (File b))
      by apply (StrictOrder_Irreflexive (R := String_as_OT.lt)).
    destruct (err_Line a =? err_Line b) eqn:El; cbn [negb].
    + apply Z.eqb_eq in El. rewrite Z.ltb_lt. split; [intros ?; right; split; [reflexivity | lia]|].
      intros [? | [_ ?]]; [done | lia].
    + apply Z.eqb_neq in El. rewrite Z.ltb_lt. split; [intros ?; right; split; [reflexivity | lia]|].
      intros [? | [_ ?]]; [done | lia].
  - apply String.eqb_neq in Ef. rewrite string_lt_iff.
    split; [by left | intros [? | [? _]]; done].
Qed.

(** X20.  The comparison that [SortErrors] sorts by is a strict weak
    order on the errors: it is irreflexive and transitive, and two errors
    neither of which comes before the other have the same file, line and
    column.  So a sorted list is determined up to the order of the errors
    that share a position. *)
Theorem SortErrors_less_order :
  (forall a, SortErrors_less a a = false)
  /\ (forall a b c,
        SortErrors_less a b = true -> SortErrors_less b c = true ->
        SortErrors_less a c = true)
  /\ (forall a b,
        SortErrors_less a b = false -> SortErrors_less b a = false ->
        File a = File b /\ err_Line a = err_Line b /\ err_Column a = err_Column b).
Proof.
  assert (Hirr : forall s, ~ String_as_OT.lt s s)
    by apply (StrictOrder_Irreflexive (R := String_as_OT.lt)).
  assert (Htrans : forall s1 s2 s3,
    String_as_OT.lt s1 s2 -> String_as_OT.lt s2 s3 -> String_as_OT.lt s1 s3)
    by apply (StrictOrder_Transitive (R := String_as_OT.lt)).
  split; [|split].
  - intros a. destruct (SortErrors_less a a) eqn:E; [|reflexivity].
    apply SortErrors_less_iff in E as [E | [_ E]]; [by destruct (Hirr (File a)) | lia].
  - intros a b c Hab Hbc. apply SortErrors_less_iff in Hab, Hbc.
    apply SortErrors_less_iff.
    destruct Hab as [Hab | [Hab Hab']], Hbc as [Hbc | [Hbc Hbc']].
    + left. by eapply Htrans.
    + left. by rewrite <- Hbc.
    + left. by rewrite Hab.
    + right. split; [congruence | lia].
  - intros a b Hab Hba.
    assert (Hnab : ~ SortErrors_less a b = true) by congruence.
    assert (Hnba : ~ SortErrors_less b a = true) by congruence.
    rewrite SortErrors_less_iff in Hnab, Hnba.
    assert (Hf : File a = File b).
    { destruct (String_as_OT.compare_spec (File a) (File b)) as [Heq | Hlt | Hgt];
        [exact Heq | destruct Hnab; by left | destruct Hnba; by left]. }
    split; [exact Hf|].
    assert (~ (err_Line a < err_Line b
               \/ (err_Line a = err_Line b /\ err_Column a < err_Column b)))
      by (intros ?; apply Hnab; by right).
    assert (~ (err_Line b < err_Line a
               \/ (err_Line b = err_Line a /\ err_Column b < err_Column a)))
      by (intros ?; apply Hnba; right; by split).
    lia.
Qed.

(** ** The build package *)

Lemma map_fold_insert_union (m b : gmap string string) :
  map_fold (fun k v merged => <[k := v]> merged) b m = m ∪ b.
Proof.
  apply (map_fold_weak_ind (fun r m => r = m ∪ b)).
  - by rewrite (left_id_L ∅ (∪)).
  - intros k v m' r Hk ->. by rewrite insert_union_l.
Qed.

(** X21.  [MergedConfig] returns nothing for an index outside the task
    list, and otherwise the global configuration overridden by that of
    the task: a key is looked up in the task's configuration first and in
    the global one only when the task does not set it. *)
Theorem MergedConfig_task_overrides (c : Config) (taskIndex : Z) :
  match MergedConfig c taskIndex with
  | None => taskIndex < 0 \/ Z.of_nat (length (Generate c)) <= taskIndex
  | Some merged =>
      exists task,
        nth_error (Generate c) (Z.to_nat taskIndex) = Some task
        /\ 0 <= taskIndex < Z.of_nat (length (Generate c))
        /\ forall k,
             merged !! k =
             match task_Config task !! k with
             | Some v => Some v
             | None => cfg_Config c !! k
             end
  end.
Proof.
  unfold MergedConfig.
  destruct (taskIndex <? 0) eqn:Eneg; cbn [orb].
  { left. by apply Z.ltb_lt. }
  destruct (Z.of_nat (length (Generate c)) <=? taskIndex) eqn:Elen.
  { right. by apply Z.leb_le. }
  apply Z.ltb_ge in Eneg. apply Z.leb_gt in Elen.
  destruct (nth_error (Generate c) (Z.to_nat taskIndex)) as [task|] eqn:Et.
  - exists task. split; [reflexivity | split; [lia|]].
    intros k. rewrite !map_fold_insert_union, (right_id_L ∅ (∪)).
    rewrite lookup_union. destruct (task_Config task !! k), (cfg_Config c !! k); reflexivity.
  - apply nth_error_None in Et. lia.
Qed.

Section BuilderProperties.
Context `{CaseConversion}.

(** X22.  The builder validates an input once.  The task that meets an
    input for the first time stops at the validation step exactly when
    [Validate] finds errors in the module, and the result is cached; any
    later task with the same input gets no result back, so its validation
    step never stops it, whatever the module holds, and the builder is
    left as it is. *)
Theorem validation_stops_first_task_only (b : Builder) (module module' : Module_)
    (input : string) :
  let first := validationStep b module input in
  let second := validationStep (fst first) module' input in
  (validationCache b !! input = None ->
   snd first = HasErrors (snd (Validate NewValidator module))
   /\ validationCache (fst first) !! input = Some (snd (Validate NewValidator module)))
  /\ snd second = false
  /\ fst second = fst first.
Proof.
  cbn zeta. unfold validationStep, getOrValidateModule.
  destruct (validationCache b !! input) as [cached|] eqn:E; cbn [fst snd].
  - split; [discriminate|]. by rewrite E.
  - cbn [validationCache]. rewrite lookup_insert_eq. cbn [fst snd].
    split; [|by split]. intros _. by split.
Qed.

End BuilderProperties.

(** ** Searching the declarations of a tree *)

Lemma AllDeclarations_unfold path name files subs :
  AllDeclarations (mkModule path name files subs) =
  (flat_map (fun entry => Declarations (snd entry)) files
   ++ flat_map (fun sub => AllDeclarations (snd sub)) subs)%list.
Proof.
  simpl. f_equal. induction subs as [| [n sub] subs IH]; simpl;
    [reflexivity | by rewrite IH].
Qed.

Lemma AllDeclarations_walk module : forall basePath,
  AllDeclarations module
  = flat_map (fun entry => Declarations (snd entry)) (moduleFiles module basePath).
Proof.
  induction module as [path name files subs IH] using Module_induction.
  intros basePath. rewrite AllDeclarations_unfold, moduleFiles_unfold, flat_map_app.
  f_equal.
  - induction files as [| e files IHf]; simpl; [reflexivity | by rewrite IHf].
  - induction IH as [| [n sub] subs Hsub _ IHsubs]; cbn [flat_map fst snd];
      [reflexivity|].
    cbn [snd] in Hsub.
    by rewrite flat_map_app, <- (Hsub (joinPath basePath n)), IHsubs.
Qed.

Lemma declarationNamed_true name decl :
  declarationNamed name decl = true ->
  decl_Name decl = name /\ registryKind decl <> "constant".
Proof.
  destruct decl; cbn [declarationNamed decl_Name registryKind]; try discriminate;
    intros E%String.eqb_eq; by split.
Qed.

Section FindDeclarationProperties.
Variable filepath_Join : string -> string -> string.

Lemma findInFiles_spec name files :
  match findInFiles name files with
  | Some (decl, filename) =>
      declarationNamed name decl = true
      /\ exists program, In (filename, program) files /\ In decl (Declarations program)
  | None =>
      forall decl,
        In decl (flat_map (fun entry => Declarations (snd entry)) files) ->
        declarationNamed name decl = false
  end.
Proof.
  induction files as [| [filename program] files IH]; cbn [findInFiles flat_map snd].
  - intros decl [].
  - destruct (List.find (declarationNamed name) (Declarations program)) as [d|] eqn:E.
    + apply List.find_some in E as [Hin Hn]. split; [exact Hn|].
      exists program. split; [by left | exact Hin].
    + destruct (findInFiles name files) as [[d f]|].
      * destruct IH as (Hn & prog & Hin & Hd). split; [exact Hn|].
        exists prog. split; [by right | exact Hd].
      * intros decl [Hin | Hin]%in_app_or; [|by apply IH].
        by apply (List.find_none _ _ E).
Qed.

(** X23.  [FindDeclaration] searches the declarations that
    [AllDeclarations] lists, the files of a module before its submodules:
    what it returns is a struct, an enum or an alias of the tree with the
    name asked for, never a constant; it returns nothing exactly when no
    struct, enum or alias of the tree has that name.  [AllDeclarations]
    lists the declarations in the order in which the registry is built
    from them. *)
Theorem FindDeclaration_searches_AllDeclarations (module : Module_) (name : string) :
  match FindDeclaration filepath_Join module name with
  | Some (decl, filename) =>
      In decl (AllDeclarations module)
      /\ decl_Name decl = name
      /\ registryKind decl <> "constant"
  | None =>
      forall decl, In decl (AllDeclarations module) -> declarationNamed name decl = false
  end
  /\ AllDeclarations module = map snd (moduleDeclarations module).
Proof.
  split.
  - induction module as [path mname files subs IH] using Module_induction.
    rewrite AllDeclarations_unfold. cbn [FindDeclaration Files SubModules].
    pose proof (findInFiles_spec name files) as Hfiles.
    destruct (findInFiles name files) as [[d f]|].
    + destruct Hfiles as (Hn & prog & Hin & Hd).
      destruct (declarationNamed_true _ _ Hn) as [Hname Hkind].
      split; [|by split]. apply in_or_app. left. apply in_flat_map.
      by exists (f, prog).
    + induction IH as [| [n sub] subs Hsub _ IHsubs]; cbn [flat_map].
      * rewrite app_nil_r. exact Hfiles.
      * cbn [snd] in Hsub.
        destruct (FindDeclaration filepath_Join sub name) as [[d f]|].
        -- destruct Hsub as (Hin & Hname & Hkind). split; [|by split].
           apply in_or_app. right. apply in_or_app. by left.
        -- match goal with
           | |- match ?x with _ => _ end =>
               destruct x as [[d f]|]
           end.
           ++ destruct IHsubs as (Hin & Hname & Hkind). split; [|by split].
              apply in_app_or in Hin as [Hin | Hin]; apply in_or_app;
                [by left | right; apply in_or_app; by right].
           ++ intros decl [Hin | [Hin | Hin]%in_app_or]%in_app_or.
              ** by apply Hfiles.
              ** by apply Hsub.
              ** apply IHsubs. apply in_or_app. by right.
  - rewrite (AllDeclarations_walk module ""). unfold moduleDeclarations.
    induction (moduleFiles module "") as [| [p prog] files IH]; cbn [flat_map];
      [reflexivity|].
    rewrite map_app, <- IH. f_equal. cbn [fst snd].
    induction (Declarations prog) as [| d decls IHd]; simpl; [reflexivity | by rewrite <- IHd].
Qed.

End FindDeclarationProperties.

(** X24.  Constants are registered like types: the name of a constant
    declared anywhere in the tree exists as a type from every file, so a
    reference to it where a type is expected is accepted without an
    error. *)
Theorem constant_accepted_as_type module path base name value :
  In (path, ConstantNode base name value) (moduleDeclarations module) ->
  forall at_ filename line column,
    TypeExists (buildTypeRegistry module) name filename = true
    /\ typeErrors (buildTypeRegistry module) (NamedType at_ name) filename line column
       = [].
Proof.
  intros Hin at_ filename line column.
  assert (Hex : TypeExists (buildTypeRegistry module) name filename = true).
  { apply TypeExists_true_iff. right. right.
    exists (qualifyName name path). split; [|apply HasSuffix_qualifyName].
    apply moduleDeclarations_In in Hin as (program & Hf & Hd).
    apply buildTypeRegistry_keys. by exists path, program, (ConstantNode base name value). }
  split; [exact Hex|].
  rewrite (Logs_unique _ _ _
             (validateType_Logs (buildTypeRegistry module) (NamedType at_ name)
                filename line column)
             (validateNamedType_Logs (buildTypeRegistry module) name filename line column)).
  by rewrite Hex.
Qed.

Lemma constant_accepted_as_type_witness :
  let at_ := mkBaseNode (mkPosition "" 1 1) in
  let limits := mkProgramNode at_ [] [ConstantNode at_ "MAX_SIZE" (Some (IntConstant at_ 10))] in
  let tree := mkModule "app" "app" [("limits.tg", limits)] [] in
  typeErrors (buildTypeRegistry tree) (NamedType at_ "MAX_SIZE") "user.tg" 7 3 = []
  /\ FindDeclaration (fun dir file => dir +:+ "/" +:+ file) tree "MAX_SIZE" = None.
Proof.
  cbn zeta. split; [|reflexivity].
  eapply (constant_accepted_as_type _ "limits.tg" _ "MAX_SIZE"). left. reflexivity.
Defined.

(** ** Directories that are left out *)

(** X25.  [shouldSkipDirectory] leaves out exactly the directories whose
    name starts with a dot and [node_modules], [vendor], [target],
    [build], [dist] and [__pycache__]; the entries of its list that start
    with a dot change nothing.  Among the names that the validator accepts
    as snake_case module names, the ones left out are the first five. *)
Theorem shouldSkipDirectory_names (name : string) :
  shouldSkipDirectory name
  = HasPrefix name "."
    || existsb (String.eqb name)
         ["node_modules"; "vendor"; "target"; "build"; "dist"; "__pycache__"]
  /\ (IsValidSnakeCase name = true ->
      (shouldSkipDirectory name = true
       <-> In name ["node_modules"; "vendor"; "target"; "build"; "dist"])).
Proof.
  assert (Hdot : forall s, HasPrefix (String "." s) "." = true)
    by (intros s; apply HasPrefix_char).
  assert (Heq : shouldSkipDirectory name
                = HasPrefix name "."
                  || existsb (String.eqb name)
                       ["node_modules"; "vendor"; "target"; "build"; "dist"; "__pycache__"]).
  { unfold shouldSkipDirectory, skipDirs. cbn [existsb].
    repeat match goal with
           | |- context [String.eqb name ?lit] =>
               destruct (String.eqb_spec name lit) as [-> | _];
               [vm_compute; reflexivity|]
           end.
    by rewrite !orb_false_r. }
  split; [exact Heq|]. intros Hsnake. rewrite Heq.
  assert (Hnodot : HasPrefix name "." = false).
  { destruct name as [| c s]; [discriminate|]. rewrite HasPrefix_char.
    unfold IsValidSnakeCase in Hsnake. apply andb_true_iff in Hsnake as [Hc _].
    revert Hc. ascii_cases c. }
  rewrite Hnodot. cbn [orb existsb In]. rewrite !orb_true_iff, !String.eqb_eq.
  split.
  - intros [? | [? | [? | [? | [? | [-> | []%Bool.diff_false_true]]]]]]; auto 6.
    discriminate Hsnake.
  - intros [<- | [<- | [<- | [<- | [<- | []]]]]]; auto 7.
Qed.

(** ** Qualified names in the resolver with module paths *)

Lemma cut_dot_found a : forall b before,
  all_chars notDot a = true ->
  ModuleResolver.cut "." (a +:+ "." +:+ b) before = Some (before +:+ a, b).
Proof.
  induction a as [| c a IH]; intros b before.
  - intros _. rewrite append_nil_l, append_cons, append_nil_l, append_nil_r.
    cbn [ModuleResolver.cut]. by rewrite HasPrefix_char.
  - cbn [all_chars]. intros [Hc Ha]%andb_true_iff. rewrite append_cons.
    cbn [ModuleResolver.cut]. rewrite HasPrefix_char.
    unfold notDot in Hc. rewrite Ascii.eqb_sym. destruct (Ascii.eqb c "."); [discriminate|].
    rewrite IH by exact Ha. by rewrite append_assoc.
Qed.

Lemma QualifiedTypeExists_range typeName moduleAlias modulePath keys :
  (fix range (keys : list string) : bool :=
     match keys with
     | [] => false
     | moduleTypeKey :: rest =>
         if HasSuffix moduleTypeKey ("." +:+ typeName) then
           let keyModulePath :=
             match ModuleResolver.SplitN2 moduleTypeKey ("." +:+ typeName) with
             | Some (first, _) => first
             | None => moduleTypeKey
             end in
           if HasSuffix modulePath ("." +:+ moduleAlias)
              || String.eqb modulePath moduleAlias
           then true
           else if String.eqb keyModulePath modulePath then true
           else range rest
         else range rest
     end) keys = true
  <-> exists key,
        In key keys
        /\ HasSuffix key ("." +:+ typeName) = true
        /\ (HasSuffix modulePath ("." +:+ moduleAlias) = true
            \/ modulePath = moduleAlias
            \/ match ModuleResolver.SplitN2 key ("." +:+ typeName) with
               | Some (first, _) => first
               | None => key
               end = modulePath).
Proof.
  induction keys as [| k keys IH].
  - split; [discriminate | intros (key & [] & _)].
  - assert (Hrest : (exists key, In key keys
                       /\ HasSuffix key ("." +:+ typeName) = true
                       /\ (HasSuffix modulePath ("." +:+ moduleAlias) = true
                           \/ modulePath = moduleAlias
                           \/ match ModuleResolver.SplitN2 key ("." +:+ typeName) with
                              | Some (first, _) => first
                              | None => key
                              end = modulePath))
                    -> exists key, In key (k :: keys)
                       /\ HasSuffix key ("." +:+ typeName) = true
                       /\ (HasSuffix modulePath ("." +:+ moduleAlias) = true
                           \/ modulePath = moduleAlias
                           \/ match ModuleResolver.SplitN2 key ("." +:+ typeName) with
                              | Some (first, _) => first
                              | None => key
                              end = modulePath)).
    { intros (key & Hin & H'). exists key. split; [by right | exact H']. }
    destruct (HasSuffix k ("." +:+ typeName)) eqn:Es.
    + cbn zeta.
      destruct (HasSuffix modulePath ("." +:+ moduleAlias)) eqn:Ea; cbn [orb].
      { split; [intros _ | done]. exists k. split; [by left | by split; [|left]]. }
      destruct (String.eqb_spec modulePath moduleAlias) as [Heq | Hne].
      { split; [intros _ | done]. exists k.
        split; [by left | split; [exact Es | right; by left]]. }
      match goal with
      | |- context [String.eqb ?x modulePath] =>
          destruct (String.eqb_spec x modulePath) as [Hk | Hk]
      end.
      { split; [intros _ | done]. exists k.
        split; [by left | split; [exact Es | right; by right]]. }
      rewrite IH. split; [exact Hrest|].
      intros (key & [<- | Hin] & Hs & Hor); [|by exists key].
      destruct Hor as [? | [? | ?]]; congruence.
    + rewrite IH. split; [exact Hrest|].
      intros (key & [<- | Hin] & Hs & Hor); [congruence | by exists key].
Qed.

(** X26.  [QualifiedTypeExists] checks the alias against the module path
    and the type name against the registry separately.  For a reference
    [alias.Name] made from a module path that is [alias] or ends in
    [.alias], it answers true exactly when some registered key ends in
    [.Name], whichever module that type is registered under; and a name
    just registered is found under the module path of its file from any
    module path. *)
Theorem QualifiedTypeExists_by_alias (r : ModuleResolver.TypeRegistry)
    (moduleAlias typeName modulePath : string) :
  all_chars notDot moduleAlias = true ->
  modulePath = moduleAlias \/ HasSuffix modulePath ("." +:+ moduleAlias) = true ->
  (ModuleResolver.QualifiedTypeExists r (moduleAlias +:+ "." +:+ typeName) modulePath
   = true
   <-> exists key,
         In key (gomap_keys (ModuleResolver.moduleTypes r))
         /\ HasSuffix key ("." +:+ typeName) = true)
  /\ forall name declType file line column,
       ModuleResolver.QualifiedTypeExists
         (ModuleResolver.RegisterType r name declType file line column)
         (ModuleResolver.fileToModulePath file +:+ "." +:+ name) modulePath = true.
Proof.
  intros Halias Hpath. split.
  - unfold ModuleResolver.QualifiedTypeExists.
    destruct (gomap_lookup (moduleAlias +:+ "." +:+ typeName)
                (ModuleResolver.moduleTypes r)) as [info|] eqn:El.
    + split; [intros _ | done]. exists (moduleAlias +:+ "." +:+ typeName).
      split; [apply gomap_lookup_Some_In; eauto | apply HasSuffix_append].
    + unfold ModuleResolver.SplitN2. rewrite cut_dot_found by exact Halias.
      rewrite append_nil_l, QualifiedTypeExists_range. split.
      * intros (key & Hin & Hs & _). by exists key.
      * intros (key & Hin & Hs). exists key. split; [exact Hin | split; [exact Hs|]].
        destruct Hpath as [-> | ->]; [right; by left | by left].
  - intros name declType file line column.
    unfold ModuleResolver.QualifiedTypeExists, ModuleResolver.RegisterType.
    cbn [ModuleResolver.moduleTypes]. by rewrite gomap_lookup_store_eq.
Qed.

Lemma QualifiedTypeExists_by_alias_witness :
  let r :=
    ModuleResolver.RegisterType ModuleResolver.NewTypeRegistry
      "Token" "struct" "billing/token.tg" 1 1 in
  ModuleResolver.fileToModulePath "billing/token.tg" = "billing.token"
  /\ ModuleResolver.QualifiedTypeExists r "auth.Token" "services.auth" = true
  /\ ModuleResolver.QualifiedTypeExists r "auth.Token" "services.billing" = false.
Proof.
  cbn zeta. split; [reflexivity | split; [|reflexivity]].
  apply (QualifiedTypeExists_by_alias _ "auth" "Token" "services.auth");
    [reflexivity | right; reflexivity |].
  exists "billing.token.Token". split; [left; reflexivity | reflexivity].
Defined.

(** ** A declaration that refers to itself *)

Lemma HasPrefix_refl_append sep b : HasPrefix (sep +:+ b) sep = true.
Proof.
  induction sep as [| c sep IH]; [by destruct b|].
  rewrite append_cons. cbn [HasPrefix]. by rewrite Ascii.eqb_refl.
Qed.

Lemma split_go_skip sep p : forall b cur,
  split_go sep (p +:+ b) (String.length p) cur = split_go sep b 0 cur.
Proof.
  induction p as [| c p IH]; intros b cur; [reflexivity|].
  rewrite append_cons. cbn [String.length split_go]. apply IH.
Qed.

Lemma split_go_free c0 sep' s : forall cur,
  all_chars (fun c => negb (Ascii.eqb c c0)) s = true ->
  split_go (String c0 sep') s 0 cur = [cur +:+ s].
Proof.
  induction s as [| c s IH]; intros cur; cbn [all_chars split_go HasPrefix].
  - intros _. by rewrite append_nil_r.
  - intros [Hc Hs]%andb_true_iff. rewrite Ascii.eqb_sym.
    destruct (Ascii.eqb c c0); [discriminate|].
    rewrite IH by exact Hs. by rewrite append_assoc.
Qed.

Lemma split_go_first c0 sep' a : forall b cur,
  all_chars (fun c => negb (Ascii.eqb c c0)) a = true ->
  split_go (String c0 sep') (a +:+ String c0 sep' +:+ b) 0 cur
  = (cur +:+ a) :: split_go (String c0 sep') b 0 "".
Proof.
  induction a as [| c a IH]; intros b cur.
  - intros _. rewrite append_nil_l, append_nil_r.
    pose proof (HasPrefix_refl_append (String c0 sep') b) as Hp.
    rewrite append_cons in *. cbn [split_go]. rewrite Hp.
    cbn [String.length Nat.sub]. by rewrite Nat.sub_0_r, split_go_skip.
  - cbn [all_chars]. intros [Hc Ha]%andb_true_iff. rewrite append_cons.
    cbn [split_go HasPrefix]. rewrite Ascii.eqb_sym.
    destruct (Ascii.eqb c c0); [discriminate|].
    rewrite IH by exact Ha. by rewrite append_assoc.
Qed.

Lemma Join_cons e rest sep :
  rest <> [] -> Join (e :: rest) sep = e +:+ sep +:+ Join rest sep.
Proof. by destruct rest. Qed.

Lemma plain_notColon s : all_chars plainByte s = true -> all_chars notColon s = true.
Proof. apply all_chars_impl. intros c. unfold plainByte. by intros [? _]%andb_true_iff. Qed.

Lemma plain_notSpace s :
  all_chars plainByte s = true ->
  all_chars (fun c => negb (Ascii.eqb c " ")) s = true.
Proof. apply all_chars_impl. intros c. unfold plainByte. by intros [_ ?]%andb_true_iff. Qed.

(** The report of a cycle that starts at a key made of a plain file path
    and a plain name is always turned into an error. *)
Lemma reportCycle_adds file name mid :
  all_chars plainByte file = true -> all_chars plainByte name = true ->
  let cycle := Join (qualifyName name file :: mid ++ [qualifyName name file]) " -> " in
  forall res,
    reportCycle res cycle
    = AddError res CircularDependencyError
        ("circular dependency detected: " +:+ cycle) file 0 0
        "restructure types to eliminate circular references".
Proof.
  intros Hfile Hname cycle res. unfold reportCycle, cycle.
  rewrite Join_cons by (by destruct mid). unfold Split.
  rewrite (split_go_first " " "-> ").
  2:{ unfold qualifyName. rewrite !all_chars_app.
      rewrite (plain_notSpace _ Hfile), (plain_notSpace _ Hname). reflexivity. }
  rewrite append_nil_l. unfold qualifyName at 1.
  rewrite (split_go_first ":" ":") by (apply plain_notColon, Hfile).
  rewrite (split_go_free ":" ":") by (apply plain_notColon, Hname).
  by rewrite !append_nil_l.
Qed.

Lemma store_fold_other (decls : list (string * Declaration)) k : forall table,
  ~ In k (map declKey decls) ->
  gomap_lookup k
    (fold_left (fun table entry => gomap_store (declKey entry)
                                     (declRecord (fst entry) (snd entry)) table)
       decls table)
  = gomap_lookup k table.
Proof.
  induction decls as [| d decls IH]; intros table Hk; cbn [fold_left]; [reflexivity|].
  rewrite IH by (intros ?; apply Hk; by right).
  apply gomap_lookup_store_ne. intros Heq. apply Hk. by left.
Qed.

Lemma store_fold_lookup (decls : list (string * Declaration)) entry : forall table,
  List.NoDup (map declKey decls) -> In entry decls ->
  gomap_lookup (declKey entry)
    (fold_left (fun table entry => gomap_store (declKey entry)
                                     (declRecord (fst entry) (snd entry)) table)
       decls table)
  = Some (declRecord (fst entry) (snd entry)).
Proof.
  induction decls as [| d decls IH]; intros table Hnd Hin; [destruct Hin|].
  cbn [map] in Hnd. inversion Hnd as [| ? ? Hnotin Hnd']; subst. cbn [fold_left].
  destruct Hin as [-> | Hin].
  - rewrite store_fold_other by exact Hnotin. apply gomap_lookup_store_eq.
  - by apply IH.
Qed.

Lemma errorsOfType_none ty kinds errs :
  ~ In ty kinds -> Forall (fun e => In (Type' e) kinds) errs -> errorsOfType ty errs = [].
Proof.
  intros Hn Hf. induction Hf as [| e errs He _ IH]; simpl; [reflexivity|].
  rewrite IH. rewrite bool_decide_eq_false_2; [reflexivity|].
  intros Heq. apply Hn. by rewrite <- Heq.
Qed.

Lemma errorsOfType_all ty errs :
  Forall (fun e => Type' e = ty) errs -> errorsOfType ty errs = errs.
Proof.
  intros Hf. induction Hf as [| e errs He _ IH]; simpl; [reflexivity|].
  by rewrite IH, bool_decide_eq_true_2.
Qed.

Section SelfReference.
Context `{CaseConversion}.

Lemma fold_reportCycle cycles :
  (forall cycle, In cycle cycles ->
     exists e, Type' e = CircularDependencyError
               /\ forall res, reportCycle res cycle = appendErrors res [e]) ->
  exists errs,
    length errs = length cycles
    /\ Forall (fun e => Type' e = CircularDependencyError) errs
    /\ forall res, fold_left reportCycle cycles res = appendErrors res errs.
Proof.
  induction cycles as [| cycle cycles IH]; intros Hall.
  - exists []. repeat split; [constructor|]. intros res. by rewrite appendErrors_nil.
  - destruct (Hall cycle ltac:(by left)) as (e & He & Hr).
    destruct IH as (errs & Hlen & Hty & Hfold); [intros c Hc; apply Hall; by right|].
    exists (e :: errs). split; [simpl; by rewrite Hlen | split; [by constructor|]].
    intros res. cbn [fold_left]. rewrite Hr, Hfold.
    by rewrite appendErrors_app.
Qed.

(** X27.  A declaration that refers to its own name is always rejected.
    When no two declarations share a file and a name, and file paths and
    declared names hold neither a colon nor a space, [Validate] reports
    every cycle that the search returns as one [CircularDependencyError],
    and for a tree with a declaration one of whose type expressions names
    the declaration itself there is at least one: the result is invalid,
    whatever else the tree holds and in whatever order it is enumerated. *)
Theorem self_reference_always_rejected v module path decl :
  In (path, decl) (moduleDeclarations module) ->
  In (decl_Name decl) (declLeaves decl) ->
  List.NoDup (map declKey (moduleDeclarations module)) ->
  Forall (fun entry => all_chars plainByte (fst entry) = true
                       /\ all_chars plainByte (decl_Name (snd entry)) = true)
    (moduleDeclarations module) ->
  let reported :=
    errorsOfType CircularDependencyError (Errors (snd (Validate v module))) in
  reported <> []
  /\ length reported
     = length (ValidateCircularDependencies (buildTypeRegistry module))
  /\ Valid (snd (Validate v module)) = false.
Proof.
  intros Hin Hself Hnd Hplain reported.
  set (r := buildTypeRegistry module).
  assert (Hcycles : ValidateCircularDependencies r <> []).
  { assert (Hrecord : gomap_lookup (declKey (path, decl)) (types r)
                      = Some (declRecord path decl)).
    { unfold r. rewrite buildTypeRegistry_types.
      by apply (store_fold_lookup _ (path, decl)). }
    unfold ValidateCircularDependencies, ValidateCircularDependencies_fuel.
    destruct (cyclesFrom_enough r (S (length (reachableNames r))) ltac:(lia)
                (gomap_keys (types r)) ∅ ∅ []) as [found Hfound].
    { intros n Hn. unfold reachableNames. apply in_or_app. by left. }
    rewrite Hfound. cbn [default from_option].
    eapply (cyclesFrom_self r (declKey (path, decl)) (decl_Name decl)
              (declRecord path decl) Hrecord Hself eq_refl); [exact Hfound | done |].
    apply gomap_lookup_Some_In. eauto. }
  destruct (fold_reportCycle (ValidateCircularDependencies r))
    as (errs & Hlen & Hty & Hfold).
  { intros cycle Hc.
    pose proof (ValidateCircularDependencies_reports r) as Hall.
    rewrite List.Forall_forall in Hall.
    destruct (Hall cycle Hc) as (c & -> & Hchain & q & mid & ->).
    assert (Hedge : exists x, dependsOn r q x).
    { destruct mid as [| x mid]; simpl in Hchain; [exists q | exists x];
        by destruct Hchain. }
    destruct Hedge as (x & info & dep & Hl & _).
    assert (Hkey : In q (gomap_keys (types r)))
      by (apply gomap_lookup_Some_In; eauto).
    apply buildTypeRegistry_keys in Hkey as (p & program & d & Hf & Hd & ->).
    assert (Hdecl : In (p, d) (moduleDeclarations module))
      by (apply moduleDeclarations_In; by exists program).
    rewrite List.Forall_forall in Hplain. destruct (Hplain _ Hdecl) as [Hp Hn].
    eexists. split; [|intros res; by rewrite (reportCycle_adds p (decl_Name d) mid Hp Hn)].
    reflexivity. }
  assert (Herrs : Errors (snd (Validate v module))
                  = (flat_map (eventErrors r) (moduleWalk module "") ++ errs)%list).
  { unfold Validate. cbn [snd]. fold r. unfold validateCircularDependencies.
    rewrite Hfold, validateModule_walk, walk_Logs. reflexivity. }
  assert (Hrep : reported = errs).
  { unfold reported. rewrite Herrs, errorsOfType_app.
    rewrite (errorsOfType_none _ walkKinds), (errorsOfType_all _ _ Hty);
      [reflexivity | |apply walk_kinds].
    unfold walkKinds. simpl. intuition discriminate. }
  assert (Hne : errs <> []).
  { destruct errs; [|discriminate]. destruct (ValidateCircularDependencies r); [done|].
    discriminate Hlen. }
  rewrite Hrep. split; [exact Hne | split; [exact Hlen|]].
  unfold Validate. cbn [snd]. fold r. unfold validateCircularDependencies.
  rewrite Hfold. destruct errs; [done | reflexivity].
Qed.

End SelfReference.

Lemma self_reference_always_rejected_witness :
  let at_ := mkBaseNode (mkPosition "shapes.tg" 1 1) in
  let tree_ :=
    EnumNode at_ "Tree"
      [mkEnumVariantNode at_ "leaf" None;
       mkEnumVariantNode at_ "node" (Some (ArrayType at_ (NamedType at_ "Tree")))] in
  let module :=
    mkModule "app" "app" []
      [("core", mkModule "app/core" "core"
                  [("shapes.tg", mkProgramNode at_ [] [tree_])] [])] in
  Valid (snd (Validate (H := asciiCase) NewValidator module)) = false.
Proof.
  cbn zeta.
  eapply (self_reference_always_rejected (H := asciiCase) _ _ "core/shapes.tg").
  - left. reflexivity.
  - left. reflexivity.
  - vm_compute. repeat constructor. intros [].
  - vm_compute. repeat constructor.
Defined.

(** ** The two versions of the resolver *)







(** ** A search that finds nothing: there is nothing to find *)

Lemma chain_app_edge r l1 x y l2 : chain r (l1 ++ x :: y :: l2) -> dependsOn r x y.
Proof.
  induction l1 as [| a l1 IH]; [by intros [? _]|].
  intros Hc. apply IH. by eapply chain_tail.
Qed.

Lemma closedChain_out r cycle x :
  closedChain r cycle -> In x cycle -> exists y, In y cycle /\ dependsOn r x y.
Proof.
  intros [Hc (q & mid & ->)] Hin.
  apply in_split in Hin as (l1 & l2 & Heq).
  destruct l2 as [| y l2].
  - assert (x = q).
    { apply (f_equal (fun l => List.last l "")) in Heq.
      change (q :: mid ++ [q])%list with ((q :: mid) ++ [q])%list in Heq.
      by rewrite !List.last_last in Heq. }
    subst x. destruct mid as [| m mid].
    + exists q. split; [by left | by destruct Hc].
    + exists m. split; [right; by left | by destruct Hc].
  - exists y. split.
    + rewrite Heq. apply in_or_app. right. right. by left.
    + rewrite Heq in Hc. by eapply chain_app_edge.
Qed.

Lemma closedChain_in r cycle x :
  closedChain r cycle -> In x cycle -> exists p, In p cycle /\ dependsOn r p x.
Proof.
  intros [Hc (q & mid & ->)] Hin.
  assert (Hlast : exists l p, (q :: mid ++ [q])%list = (l ++ [p; q])%list).
  { destruct (exists_last (l := q :: mid) ltac:(discriminate)) as (l & p & Heq).
    exists l, p. change (q :: mid ++ [q])%list with ((q :: mid) ++ [q])%list.
    rewrite Heq, <- app_assoc. reflexivity. }
  apply in_split in Hin as (l1 & l2 & Heq).
  destruct l1 as [| a l1] using rev_ind.
  - injection Heq as <- _. destruct Hlast as (l & p & Hl).
    exists p. split.
    + rewrite Hl. apply in_or_app. right. by left.
    + rewrite Hl in Hc. by eapply chain_app_edge.
  - clear IHl1. rewrite <- app_assoc in Heq. cbn [app] in Heq.
    exists a. split.
    + rewrite Heq. apply in_or_app. right. by left.
    + rewrite Heq in Hc. by eapply chain_app_edge.
Qed.

Lemma chain_leaves r (A : string -> bool) l : forall a,
  chain r (a :: l) -> A a = true -> (exists z, In z l /\ A z = false) ->
  exists x y, In x (a :: l) /\ In y (a :: l) /\ dependsOn r x y
              /\ A x = true /\ A y = false.
Proof.
  induction l as [| b l IH]; intros a Hc Ha (z & Hz & Hfalse); [destruct Hz|].
  destruct Hc as [Hab Hc]. destruct (A b) eqn:Eb.
  - destruct (IH b Hc Eb) as (x & y & Hx & Hy & Hxy & Hax & Hay).
    { exists z. split; [|exact Hfalse]. destruct Hz as [-> | ?]; [congruence | done]. }
    exists x, y. repeat split; try done; by right.
  - exists a, b. repeat split; try done; [by left | right; by left].
Qed.

Lemma closedChain_leaves r (A : string -> bool) cycle :
  closedChain r cycle ->
  (exists x, In x cycle /\ A x = true) -> (exists z, In z cycle /\ A z = false) ->
  exists x y, In x cycle /\ In y cycle /\ dependsOn r x y /\ A x = true /\ A y = false.
Proof.
  intros [Hc (q & mid & ->)] (a & Ha & HAa) (z & Hz & HAz).
  destruct (A q) eqn:Eq.
  - apply (chain_leaves r A _ q Hc Eq). exists z. split; [|exact HAz].
    destruct Hz as [-> | ?]; [congruence | done].
  - assert (Hmid : In a mid).
    { destruct Ha as [-> | [? | [-> | []]]%in_app_or]; [congruence | done | congruence]. }
    apply in_split in Hmid as (l1 & l2 & ->).
    assert (Hsuffix : chain r (a :: l2 ++ [q])).
    { replace (q :: (l1 ++ a :: l2) ++ [q])%list
        with ((q :: l1) ++ a :: l2 ++ [q])%list in Hc
        by (cbn [app]; by rewrite <- app_assoc).
      clear -Hc. induction (q :: l1) as [| b l IH]; [exact Hc|].
      apply IH. by eapply chain_tail. }
    destruct (chain_leaves r A _ a Hsuffix HAa) as (x & y & Hx & Hy & Hrest).
    { exists q. split; [apply in_or_app; right; by left | exact Eq]. }
    exists x, y. split; [|split; [|exact Hrest]].
    + right. rewrite <- app_assoc. apply in_or_app. right. exact Hx.
    + right. rewrite <- app_assoc. apply in_or_app. right. exact Hy.
Qed.

Lemma explored_refl r stack v : explored r stack v v.
Proof.
  split; [apply grows_refl | split].
  - intros x y [Hf Ht]. congruence.
  - intros cycle [_ (q & mid & ->)] Hall.
    inversion Hall as [| ? ? [Hf Ht] _]; subst. congruence.
Qed.

Lemma explored_stack r stack stack' v v' :
  incl stack stack' -> explored r stack' v v' -> explored r stack v v'.
Proof.
  intros Hi (Hg & He & Hc). split; [exact Hg | split; [|exact Hc]].
  intros x y Hx Hxy. destruct (He x y Hx Hxy) as [Hy Hn].
  split; [exact Hy | intros Hin; by apply Hn, Hi].
Qed.

Lemma explored_seq r stack va vb vc :
  explored r stack va vb -> explored r stack vb vc -> explored r stack va vc.
Proof.
  intros (Hg1 & He1 & Hc1) (Hg2 & He2 & Hc2).
  split; [by eapply grows_trans | split].
  - intros x y [Hxa Hxc] Hxy. destruct (flag vb x) eqn:Exb.
    + destruct (He1 x y (conj Hxa Exb) Hxy) as [Hy Hn]. split; [by apply Hg2 | exact Hn].
    + by apply (He2 x y (conj Exb Hxc) Hxy).
  - intros cycle Hcycle Hall. rewrite List.Forall_forall in Hall.
    destruct (List.existsb (flag vb) cycle) eqn:Eex.
    + destruct (List.forallb (flag vb) cycle) eqn:Eall.
      * apply (Hc1 cycle Hcycle). apply List.Forall_forall. intros x Hx.
        split; [by apply Hall|].
        rewrite List.forallb_forall in Eall. by apply Eall.
      * apply List.existsb_exists in Eex as (a & Ha & HAa).
        assert (Hz : exists z, In z cycle /\ flag vb z = false).
        { destruct (List.existsb (fun z => negb (flag vb z)) cycle) eqn:En.
          - apply List.existsb_exists in En as (z & Hz & HAz).
            exists z. split; [exact Hz | by destruct (flag vb z)].
          - rewrite <- Eall. exfalso. rewrite <- not_true_iff_false in Eall.
            apply Eall. apply List.forallb_forall. intros z Hz.
            destruct (flag vb z) eqn:Ez; [reflexivity|].
            rewrite <- not_true_iff_false in En. destruct En.
            apply List.existsb_exists. exists z. by rewrite Ez. }
        destruct (closedChain_leaves r (flag vb) cycle Hcycle)
          as (x & y & Hx & Hy & Hxy & HAx & HAy); [by exists a | exact Hz|].
        destruct (He1 x y) as [Hyb _]; [|exact Hxy | congruence].
        split; [by apply Hall | exact HAx].
    + apply (Hc2 cycle Hcycle). apply List.Forall_forall. intros x Hx.
      split; [|by apply Hall].
      destruct (flag vb x) eqn:Ex; [|reflexivity].
      rewrite <- not_true_iff_false in Eex. destruct Eex.
      apply List.existsb_exists. by exists x.
Qed.

Lemma onStack_step path visited recStack typeName :
  flag visited typeName = false ->
  onStack path visited recStack ->
  onStack (path ++ [typeName]) (<[typeName := true]> visited)
    (<[typeName := true]> recStack).
Proof.
  intros Hv Hs s [Hin | [<- | []]]%in_app_or.
  - destruct (Hs s Hin) as [Hsv Hsr].
    assert (typeName <> s) by congruence.
    by rewrite !flag_insert_ne.
  - by rewrite !flag_insert_eq.
Qed.

Section NothingFound.
Variable r : TypeRegistry.

Lemma dependenciesLoop_explored fuel typeName file prefix :
  (forall q visited recStack visited' recStack',
     detectCycle fuel r q visited recStack (prefix ++ [typeName])
     = Some (None, visited', recStack') ->
     flag visited q = false ->
     onStack (prefix ++ [typeName]) visited recStack ->
     explored r ((prefix ++ [typeName]) ++ [q]) visited visited') ->
  forall ds visited recStack visited' recStack',
    onStack (prefix ++ [typeName]) visited recStack ->
    dependenciesLoop
      (fun q visited recStack =>
         detectCycle fuel r q visited recStack (prefix ++ [typeName]))
      typeName file (prefix ++ [typeName]) ds visited recStack
    = Some (None, visited', recStack') ->
    explored r (prefix ++ [typeName]) visited visited'
    /\ forall dep, In dep ds ->
         flag visited' (qualifyName dep file) = true
         /\ ~ In (qualifyName dep file) (prefix ++ [typeName]).
Proof.
  intros Hdescend.
  induction ds as [| dep rest IH]; intros visited recStack visited' recStack' Hstack;
    cbn [dependenciesLoop].
  - intros [= <- _]. split; [apply explored_refl | intros dep []].
  - destruct (flag visited (qualifyName dep file)) eqn:Ev; cbn [negb].
    + assert (Hcont : dependenciesLoop
                        (fun q visited recStack =>
                           detectCycle fuel r q visited recStack (prefix ++ [typeName]))
                        typeName file (prefix ++ [typeName]) rest visited recStack
                      = Some (None, visited', recStack') ->
                      ~ In (qualifyName dep file) (prefix ++ [typeName]) ->
                      explored r (prefix ++ [typeName]) visited visited'
                      /\ forall dep0, In dep0 (dep :: rest) ->
                           flag visited' (qualifyName dep0 file) = true
                           /\ ~ In (qualifyName dep0 file) (prefix ++ [typeName])).
      { intros Hloop Hnot. destruct (IH _ _ _ _ Hstack Hloop) as [He Hdeps].
        split; [exact He|]. intros dep0 [<- | Hin]; [|by apply Hdeps].
        split; [|exact Hnot]. destruct He as [Hg _]. by apply Hg. }
      destruct (flag recStack (qualifyName dep file)) eqn:Er.
      * destruct (cycleStart (prefix ++ [typeName]) (qualifyName dep file)) eqn:Ec;
          [discriminate|].
        intros Hloop. apply Hcont; [exact Hloop|].
        intros Hin. by apply cycleStart_In in Hin.
      * intros Hloop. apply Hcont; [exact Hloop|].
        intros Hin. destruct (Hstack _ Hin). congruence.
    + destruct (detectCycle fuel r (qualifyName dep file) visited recStack
                  (prefix ++ [typeName])) as [[[[c|] v1] rs1]|] eqn:E;
        [discriminate | | discriminate].
      intros Hloop.
      pose proof (detectCycle_grows r fuel _ _ _ _ _ _ _ E) as Hg1.
      assert (Hstack1 : onStack (prefix ++ [typeName]) v1 rs1).
      { intros s Hs. destruct (Hstack s Hs) as [Hsv Hsr].
        assert (Hne : qualifyName dep file <> s) by congruence.
        split.
        - apply Hg1. by rewrite flag_insert_ne.
        - by rewrite (detectCycle_recStack r fuel s _ _ _ _ _ _ E Hne Hsv). }
      destruct (IH _ _ _ _ Hstack1 Hloop) as [He Hdeps].
      split.
      * eapply explored_seq; [|exact He].
        eapply explored_stack; [|by eapply Hdescend].
        intros s Hs. apply in_or_app. by left.
      * intros dep0 [<- | Hin]; [|by apply Hdeps]. split.
        -- destruct He as [Hg _]. apply Hg, Hg1, flag_insert_eq.
        -- intros Hin. destruct (Hstack _ Hin). congruence.
Qed.

Lemma detectCycle_explored fuel :
  forall typeName visited recStack path visited' recStack',
    detectCycle fuel r typeName visited recStack path = Some (None, visited', recStack') ->
    flag visited typeName = false ->
    onStack path visited recStack ->
    explored r (path ++ [typeName]) visited visited'.
Proof.
  induction fuel as [| fuel IH];
    intros typeName visited recStack path visited' recStack'; [discriminate|].
  cbn [detectCycle]. intros Hd Hv Hstack.
  pose proof (onStack_step path visited recStack typeName Hv Hstack) as Hstack'.
  destruct (gomap_lookup typeName (types r)) as [typeInfo|] eqn:El.
  - destruct (dependenciesLoop_explored fuel typeName (ti_File typeInfo) path
                (fun q v rs v' rs' => IH q v rs (path ++ [typeName])%list v' rs')
                _ _ _ _ _ Hstack' Hd) as [(Hg & He & Hc) Hdeps].
    assert (Hedges : forall x y,
      fresh visited visited' x -> dependsOn r x y ->
      flag visited' y = true /\ ~ In y (path ++ [typeName])).
    { intros x y [Hxv Hxv'] Hxy. destruct (decide (x = typeName)) as [-> | Hne].
      - destruct Hxy as (info & dep & Hl & Hdep & ->).
        rewrite El in Hl. injection Hl as <-. by apply Hdeps.
      - apply (He x y); [|exact Hxy]. split; [by rewrite flag_insert_ne | exact Hxv']. }
    split; [eapply grows_trans; [apply grows_insert | exact Hg] | split; [exact Hedges|]].
    intros cycle Hcycle Hall. rewrite List.Forall_forall in Hall.
    destruct (in_dec string_dec typeName cycle) as [Hin | Hnotin].
    + destruct (closedChain_in r cycle typeName Hcycle Hin) as (p & Hp & Hpt).
      destruct (Hedges p typeName (Hall p Hp) Hpt) as [_ Hn].
      apply Hn. apply in_or_app. right. by left.
    + apply (Hc cycle Hcycle). apply List.Forall_forall. intros x Hx.
      destruct (Hall x Hx) as [Hxv Hxv']. split; [|exact Hxv'].
      rewrite flag_insert_ne; [exact Hxv | congruence].
  - injection Hd as <- _.
    assert (Honly : forall x, fresh visited (<[typeName := true]> visited) x -> x = typeName).
    { intros x [Hxv Hxv']. destruct (decide (typeName = x)) as [-> | Hne]; [reflexivity|].
      rewrite flag_insert_ne in Hxv' by exact Hne. congruence. }
    split; [apply grows_insert | split].
    + intros x y Hx (info & dep & Hl & _). apply Honly in Hx. subst x. congruence.
    + intros cycle Hcycle Hall. rewrite List.Forall_forall in Hall.
      destruct Hcycle as [Hchain (q & mid & ->)].
      assert (Hq : q = typeName) by (apply Honly, Hall; by left).
      destruct (closedChain_out r (q :: mid ++ [q]) q) as (y & _ & info & dep & Hl & _);
        [split; [exact Hchain | by exists q, mid] | by left |].
      congruence.
Qed.

Lemma cyclesFrom_explored fuel :
  forall names visited recStack cycles,
    cyclesFrom fuel r names visited recStack cycles = Some [] ->
    explored r [] ∅ visited ->
    exists visited',
      explored r [] ∅ visited'
      /\ grows visited visited'
      /\ forall n, In n names -> flag visited' n = true.
Proof.
  induction names as [| n names IH]; intros visited recStack cycles; cbn [cyclesFrom].
  - intros _ He. exists visited. split; [exact He | split; [apply grows_refl | intros n []]].
  - destruct (flag visited n) eqn:Ev; cbn [negb].
    + intros Hf He. destruct (IH _ _ _ Hf He) as (v' & He' & Hg & Hall).
      exists v'. split; [exact He' | split; [exact Hg|]].
      intros m [<- | Hm]; [by apply Hg | by apply Hall].
    + destruct (detectCycle fuel r n visited recStack []) as [[[[c|] v1] rs1]|] eqn:E;
        [| | discriminate].
      * intros Hf. exfalso. eapply (cyclesFrom_extends r fuel); [exact Hf | | reflexivity].
        by destruct cycles.
      * intros Hf He.
        pose proof (detectCycle_explored fuel _ _ _ _ _ _ E Ev ltac:(intros s []))
          as He1.
        destruct (IH _ _ _ Hf) as (v' & He' & Hg & Hall).
        { eapply explored_seq; [exact He|].
          eapply explored_stack; [|exact He1]. intros s []. }
        exists v'. split; [exact He'|].
        pose proof (detectCycle_grows r fuel _ _ _ _ _ _ _ E) as Hg1.
        split.
        -- eapply grows_trans; [|exact Hg].
           eapply grows_trans; [apply grows_insert | exact Hg1].
        -- intros m [<- | Hm]; [|by apply Hall]. apply Hg, Hg1, flag_insert_eq.
Qed.

(** X29.  The cycle search is complete as well as sound:
    [ValidateCircularDependencies] returns no cycle exactly when the
    recorded dependencies hold none, that is, when no chain of
    dependencies leads from a registered type back to itself. *)
Theorem no_cycle_reported_iff_acyclic :
  ValidateCircularDependencies r = [] <-> forall cycle, ~ closedChain r cycle.
Proof.
  split.
  - intros Hnone cycle Hcycle.
    pose proof (ValidateCircularDependencies_fuel_enough r
                  (S (length (reachableNames r))) ltac:(lia)) as Hrun.
    rewrite Hnone in Hrun. unfold ValidateCircularDependencies_fuel in Hrun.
    destruct (cyclesFrom_explored _ _ _ _ _ Hrun (explored_refl r [] ∅))
      as (v' & (_ & _ & Hc) & _ & Hall).
    apply (Hc cycle Hcycle). apply List.Forall_forall. intros x Hx.
    split; [reflexivity|]. apply Hall.
    destruct (closedChain_out r cycle x Hcycle Hx) as (y & _ & info & dep & Hl & _).
    apply gomap_lookup_Some_In. eauto.
  - intros Hacyclic.
    pose proof (ValidateCircularDependencies_reports r) as Hall.
    destruct (ValidateCircularDependencies r) as [| s rest]; [reflexivity|].
    inversion Hall as [| ? ? (cycle & _ & Hc) _]; subst.
    by destruct (Hacyclic cycle).
Qed.

End NothingFound.

(** ** References across files *)

Lemma append_inv_tail a : forall b s, a +:+ s = b +:+ s -> a = b.
Proof.
  induction a as [| c a IH]; intros [| d b] s.
  - done.
  - rewrite append_nil_l, append_cons. intros Heq.
    apply (f_equal String.length) in Heq. cbn [String.length] in Heq.
    rewrite length_append in Heq. lia.
  - rewrite append_nil_l, append_cons. intros Heq.
    apply (f_equal String.length) in Heq. cbn [String.length] in Heq.
    rewrite length_append in Heq. lia.
  - rewrite !append_cons. intros [= -> Heq]. by rewrite (IH b s Heq).
Qed.

Lemma qualifyName_inj name file name' file' :
  all_chars notColon name = true -> all_chars notColon name' = true ->
  qualifyName name file = qualifyName name' file' -> name = name' /\ file = file'.
Proof.
  intros Hn Hn' Heq.
  assert (name = name') as <-.
  { apply (qualified_suffix_name file' file); [exact Heq | exact Hn | exact Hn']. }
  split; [reflexivity|]. unfold qualifyName in Heq. by apply append_inv_tail in Heq.
Qed.

Lemma buildTypeRegistry_entries module :
  Forall (fun entry =>
            exists path decl,
              In (path, decl) (moduleDeclarations module)
              /\ fst entry = declKey (path, decl)
              /\ snd entry = declRecord path decl)
    (types (buildTypeRegistry module)).
Proof.
  rewrite buildTypeRegistry_types.
  destruct (store_table_invariant
              (fun entry =>
                 exists path decl,
                   In (path, decl) (moduleDeclarations module)
                   /\ fst entry = declKey (path, decl)
                   /\ snd entry = declRecord path decl)
              (moduleDeclarations module)) with (table := @nil (string * TypeInfo))
    as (_ & Hall & _); [| constructor | constructor | exact Hall].
  intros [path decl] Hin. by exists path, decl.
Qed.

Section CrossFile.
Context `{CaseConversion}.

(** X30.  Only references within one file count as dependencies.  A
    dependency is qualified with the file of the declaration that refers
    to it, so when no declaration refers to a name declared in its own
    file the search finds no cycle and [Validate] reports none, however
    the declarations of different files refer to one another. *)
Theorem cross_file_references_never_cycle v module :
  Forall (fun entry => all_chars notColon (decl_Name (snd entry)) = true
                       /\ Forall (fun n => all_chars notColon n = true)
                            (declLeaves (snd entry)))
    (moduleDeclarations module) ->
  (forall path decl decl',
     In (path, decl) (moduleDeclarations module) ->
     In (path, decl') (moduleDeclarations module) ->
     ~ In (decl_Name decl') (declLeaves decl)) ->
  ValidateCircularDependencies (buildTypeRegistry module) = []
  /\ errorsOfType CircularDependencyError (Errors (snd (Validate v module))) = [].
Proof.
  intros Hplain Hfiles. rewrite List.Forall_forall in Hplain.
  set (r := buildTypeRegistry module).
  assert (Hrecord : forall k info,
    gomap_lookup k (types r) = Some info ->
    exists path decl, In (path, decl) (moduleDeclarations module)
                      /\ k = declKey (path, decl) /\ info = declRecord path decl).
  { intros k info Hl%gomap_lookup_In.
    pose proof (buildTypeRegistry_entries module) as Hall.
    rewrite List.Forall_forall in Hall. exact (Hall _ Hl). }
  assert (Hnone : ValidateCircularDependencies r = []).
  { pose proof (ValidateCircularDependencies_reports r) as Hall.
    destruct (ValidateCircularDependencies r) as [| s rest]; [reflexivity|].
    exfalso. inversion Hall as [| ? ? (cycle & _ & Hc) _]; subst.
    destruct Hc as [Hchain (q & mid & ->)].
    assert (Hq : closedChain r (q :: mid ++ [q])) by (split; eauto).
    destruct (closedChain_out r _ q Hq ltac:(by left))
      as (y & Hy & info & dep & Hl & Hdep & ->).
    destruct (closedChain_out r _ _ Hq Hy) as (z & _ & info' & _ & Hl' & _).
    destruct (Hrecord _ _ Hl) as (path & decl & Hd & _ & ->).
    destruct (Hrecord _ _ Hl') as (path' & decl' & Hd' & Hk & _).
    cbn [declRecord ti_File Dependencies] in Hdep, Hk.
    destruct (Hplain _ Hd) as [_ Hleaves]. destruct (Hplain _ Hd') as [Hname' _].
    rewrite List.Forall_forall in Hleaves.
    unfold declKey in Hk. cbn [fst snd] in Hk, Hleaves, Hname'.
    apply qualifyName_inj in Hk as [Hname Hpath];
      [| by apply Hleaves | exact Hname'].
    subst dep path'. by apply (Hfiles path decl decl'). }
  split; [exact Hnone|].
  unfold Validate. cbn [snd]. fold r. unfold validateCircularDependencies.
  rewrite Hnone. cbn [fold_left]. rewrite validateModule_walk, walk_Logs.
  cbn [Errors appendErrors NewValidationResult app].
  apply (errorsOfType_none _ walkKinds); [|apply walk_kinds].
  unfold walkKinds. simpl. intuition discriminate.
Qed.

End CrossFile.

Lemma cross_file_references_never_cycle_witness :
  let at_ := mkBaseNode (mkPosition "" 1 1) in
  let nodeA := StructNode at_ "NodeA" [mkFieldNode at_ "b_node" (NamedType at_ "NodeB") false] in
  let nodeB := StructNode at_ "NodeB" [mkFieldNode at_ "a_node" (NamedType at_ "NodeA") false] in
  let module :=
    mkModule "test" "test"
      [("a.tg", mkProgramNode at_ [] [nodeA]); ("b.tg", mkProgramNode at_ [] [nodeB])] [] in
  Errors (snd (Validate (H := asciiCase) NewValidator module)) = []
  /\ errorsOfType CircularDependencyError
       (Errors (snd (Validate (H := asciiCase) NewValidator module))) = [].
Proof.
  cbn zeta. split; [vm_compute; reflexivity|].
  eapply (cross_file_references_never_cycle (H := asciiCase)).
  - vm_compute. repeat constructor.
  - intros path decl decl' Hd Hd'. vm_compute in Hd, Hd'.
    destruct Hd as [[= <- <-] | [[= <- <-] | []]];
      destruct Hd' as [[= <-] | [[= <-] | []]]; try discriminate;
      vm_compute; intros [[=] | []].
Defined.
